(** * Query expressions of django.db.models.expressions

    A shallow embedding of the expression nodes of
    [django/db/models/expressions.py]: Python objects live in a store
    indexed by references, methods are computations in a state and
    exception monad, and dynamic dispatch is a match on the class of the
    receiver.  Recursion through method calls is bounded by a recursion
    limit, as in the interpreter: running out of it raises
    [RecursionError]. *)

From Stdlib Require Import ZArith String Ascii List Bool Lia DecimalString.
From stdpp Require Import base option list strings gmap.

Set Warnings "-register-all".

(** ** Python values and exceptions *)

(** A reference to an object of the store (Python's object identity). *)
Abbreviation loc := nat.

Inductive pyval :=
| PNone
| PBool (b : bool)
| PInt (n : Z)
| PStr (s : string)
| PTimedelta (microseconds : Z)
| PObj (l : loc).

Inductive exn :=
| FieldError (msg : string)
| ValueError (msg : string)
| TypeError (msg : string)
| AttributeError (msg : string)
| KeyError (key : string)
| IndexError (msg : string)
| AssertionError
| NotImplementedError (msg : string)
| EmptyResultSet
| RecursionError.

Inductive res (A : Type) :=
| Ok (a : A)
| Raise (e : exn).
Arguments Ok {A} a.
Arguments Raise {A} e.

Definition is_ok {A} (r : res A) : bool :=
  match r with Ok _ => true | Raise _ => false end.

(** ** The [%] operator on strings *)

(** A keyword dictionary whose values are the strings that [%] would
    substitute; later entries never shadow earlier ones because
    [dict_set] replaces in place. *)
Definition dict := list (string * string).

Fixpoint dict_get (d : dict) (k : string) : option string :=
  match d with
  | [] => None
  | (k', v) :: d' => if String.eqb k k' then Some v else dict_get d' k
  end.

Fixpoint dict_set (d : dict) (k v : string) : dict :=
  match d with
  | [] => [(k, v)]
  | (k', v') :: d' =>
      if String.eqb k k' then (k, v) :: d' else (k', v') :: dict_set d' k v
  end.

(** [d.update(e)] *)
Definition dict_update (d e : dict) : dict :=
  fold_left (fun acc kv => dict_set acc (fst kv) (snd kv)) e d.

(** [d.setdefault(k, v)] *)
Definition dict_setdefault (d : dict) (k v : string) : dict :=
  match dict_get d k with Some _ => d | None => dict_set d k v end.

(** [d.get(k, default)] *)
Definition dict_get_default (d : dict) (k default : string) : string :=
  match dict_get d k with Some v => v | None => default end.

(** [template % (arg, ...)]: every [%s] consumes one argument, [%%] is a
    literal percent sign; [after_percent] tells that the character
    before was the percent sign of a conversion. *)
Fixpoint format_positional_from (after_percent : bool) (template : string)
    (args : list string) : res string :=
  match template with
  | EmptyString =>
      if after_percent then Raise (ValueError "incomplete format")
      else
        match args with
        | [] => Ok ""
        | _ => Raise (TypeError "not all arguments converted during string formatting")
        end
  | String c rest =>
      if after_percent then
        if Ascii.eqb c "s" then
          match args with
          | a :: args' =>
              match format_positional_from false rest args' with
              | Ok s => Ok (a +:+ s)
              | Raise e => Raise e
              end
          | [] => Raise (TypeError "not enough arguments for format string")
          end
        else if Ascii.eqb c "%" then
          match format_positional_from false rest args with
          | Ok s => Ok (String "%" s)
          | Raise e => Raise e
          end
        else Raise (ValueError "unsupported format character")
      else if Ascii.eqb c "%" then format_positional_from true rest args
      else
        match format_positional_from false rest args with
        | Ok s => Ok (String c s)
        | Raise e => Raise e
        end
  end.

Definition format_positional (template : string) (args : list string) : res string :=
  format_positional_from false template args.

(** Where the scanner of [template % mapping] stands. *)
Inductive fmt_state :=
| FText
| FPercent
| FKey (key : string)
| FConv (key : string).

(** [template % mapping]: [%(key)s] is replaced by [mapping[key]], [%%]
    is a literal percent sign. *)
Fixpoint format_mapping_from (st : fmt_state) (template : string) (data : dict)
  : res string :=
  match template with
  | EmptyString =>
      match st with
      | FText => Ok ""
      | _ => Raise (ValueError "incomplete format")
      end
  | String c rest =>
      match st with
      | FText =>
          if Ascii.eqb c "%" then format_mapping_from FPercent rest data
          else match format_mapping_from FText rest data with
               | Ok s => Ok (String c s)
               | Raise e => Raise e
               end
      | FPercent =>
          if Ascii.eqb c "%" then
            match format_mapping_from FText rest data with
            | Ok s => Ok (String "%" s)
            | Raise e => Raise e
            end
          else if Ascii.eqb c "(" then format_mapping_from (FKey "") rest data
          else Raise (TypeError "format requires a mapping")
      | FKey key =>
          if Ascii.eqb c ")" then format_mapping_from (FConv key) rest data
          else format_mapping_from (FKey (key +:+ String c "")) rest data
      | FConv key =>
          if Ascii.eqb c "s" then
            match dict_get data key with
            | Some v =>
                match format_mapping_from FText rest data with
                | Ok s => Ok (v +:+ s)
                | Raise e => Raise e
                end
            | None => Raise (KeyError key)
            end
          else Raise (ValueError "unsupported format character")
      end
  end.

Definition format_mapping (template : string) (data : dict) : res string :=
  format_mapping_from FText template data.

(** [sep.join(parts)] *)
Fixpoint join (sep : string) (parts : list string) : string :=
  match parts with
  | [] => ""
  | [p] => p
  | p :: ps => p +:+ sep +:+ join sep ps
  end.

(** [c.isspace()], for the characters of ASCII. *)
Definition is_space (c : ascii) : bool :=
  Ascii.eqb c " " || Ascii.eqb c "009" || Ascii.eqb c "010" ||
  Ascii.eqb c "011" || Ascii.eqb c "012" || Ascii.eqb c "013" ||
  Ascii.eqb c "028" || Ascii.eqb c "029" || Ascii.eqb c "030" || Ascii.eqb c "031".

(** [s.rstrip()] *)
Fixpoint rstrip (s : string) : string :=
  match s with
  | EmptyString => ""
  | String c rest =>
      match rstrip rest with
      | EmptyString => if is_space c then "" else String c ""
      | r => String c r
      end
  end.

(** [a or b] on an optional string: [None] and the empty string are
    both false. *)
Definition str_or (a : option string) (b : string) : string :=
  match a with
  | Some (String c s) => String c s
  | _ => b
  end.

(** ** Collaborators outside the module *)

(** A model field instance ([django.db.models.fields]): its class, the
    base classes of that class, and the methods the expressions call. *)
Record Field := {
  field_class : string;
  field_bases : list string;
  get_internal_type : string;
  column : string;
  get_db_prep_value : pyval -> pyval;
  get_db_prep_save : pyval -> pyval;
  get_placeholder : option (pyval -> string);
}.

(** [isinstance(f, cls)] *)
Definition isinstance (f : Field) (cls : string) : bool :=
  String.eqb (field_class f) cls || existsb (String.eqb cls) (field_bases f).

Definition plain_field (cls : string) (bases : list string) : Field :=
  {| field_class := cls; field_bases := bases; get_internal_type := cls;
     column := ""; get_db_prep_value := fun v => v;
     get_db_prep_save := fun v => v; get_placeholder := None |}.

(** [fields.Field()], [fields.BooleanField()], ... *)
Definition fields_Field : Field := plain_field "Field" [].
Definition fields_BooleanField : Field := plain_field "BooleanField" ["Field"].
Definition fields_FloatField : Field := plain_field "FloatField" ["Field"].
Definition fields_DurationField : Field := plain_field "DurationField" ["Field"].
Definition fields_IntegerField : Field := plain_field "IntegerField" ["Field"].
Definition fields_CharField : Field := plain_field "CharField" ["Field"].

(** The filter tree of a nested query: inner nodes have [children],
    lookups have [lhs] and [rhs]. *)
Inductive WhereNode :=
| WhereTree (children : list WhereNode)
| LookupNode (lhs : loc) (rhs : pyval).

(** The queryset wrapped by a [Subquery], reduced to what the
    expressions read and write: the fields of the selected columns, the
    ordering, the filter tree, the annotations, the external aliases and
    the outcome of compiling the nested query. *)
Record QuerySet := {
  query_select : list Field;
  query_order_by : list string;
  query_where : WhereNode;
  query_annotations : list (string * pyval);
  query_external_aliases : gset string;
  query_as_sql : res (string * list pyval);
}.

(** Modelled from the spec: [QuerySet.all()] (django.db.models.query is
    not under src): the wrapper owns a deep copy of the nested query, so
    the copy is an independent value equal to the original. *)
Definition QuerySet_all (qs : QuerySet) : QuerySet := qs.

(** Modelled from the spec: [QuerySet.order_by()] without arguments
    (django.db.models.query is not under src): a copy of the queryset
    with its ordering stripped. *)
Definition QuerySet_order_by (qs : QuerySet) : QuerySet :=
  {| query_select := query_select qs;
     query_order_by := [];
     query_where := query_where qs;
     query_annotations := query_annotations qs;
     query_external_aliases := query_external_aliases qs;
     query_as_sql := query_as_sql qs |}.

Definition set_where (qs : QuerySet) (w : WhereNode) : QuerySet :=
  {| query_select := query_select qs;
     query_order_by := query_order_by qs;
     query_where := w;
     query_annotations := query_annotations qs;
     query_external_aliases := query_external_aliases qs;
     query_as_sql := query_as_sql qs |}.

Definition set_annotations (qs : QuerySet) (a : list (string * pyval)) : QuerySet :=
  {| query_select := query_select qs;
     query_order_by := query_order_by qs;
     query_where := query_where qs;
     query_annotations := a;
     query_external_aliases := query_external_aliases qs;
     query_as_sql := query_as_sql qs |}.

(** [qs.query.external_aliases.add(alias)] *)
Definition add_external_alias (qs : QuerySet) (alias : string) : QuerySet :=
  {| query_select := query_select qs;
     query_order_by := query_order_by qs;
     query_where := query_where qs;
     query_annotations := query_annotations qs;
     query_external_aliases := {[ alias ]} ∪ query_external_aliases qs;
     query_as_sql := query_as_sql qs |}.

(** What [Query.resolve_ref] hands back: an object the query already
    holds (an annotation), or a column reference built for the call. *)
Inductive RefTarget :=
| RefExisting (l : loc)
| RefCol (alias : string) (target : Field).

(** A [Q] object or the where-clause it resolves to
    (django.db.models.query_utils and django.db.models.sql.where are not
    under src), described by what the expressions observe of it. *)
Record Condition := {
  cond_resolvable : bool;            (* a Q offers resolve_expression *)
  cond_resolve_error : option exn;   (* what resolving it raises, if anything *)
  cond_nonempty : bool;              (* its truth value: it has children *)
  cond_contains_aggregate : bool;
  cond_group_by_cols : list loc;
  cond_sql : res (string * list pyval);   (* the outcome of compiling it *)
}.

(** ** Objects *)

(** The attributes every [BaseExpression] instance carries, with the
    slots that [cached_property] fills in the instance dictionary. *)
Record Base := {
  is_summary : bool;
  _output_field : option Field;
  copied : bool;
  cached_output_field : option Field;
  cached__output_field_or_none : option (option Field);
  cached_contains_aggregate : option bool;
}.

Inductive FClass := F | ResolvedOuterRef | OuterRef.
Inductive ValueClass := Value | DurationValue.
Inductive CombinedClass := CombinedExpression | DurationExpression | TemporalSubtraction.
Inductive SubqueryClass := Subquery | Exists (negated : bool).

(** The class attributes of [Func] or of a subclass of it. *)
Record FuncClass := {
  func_name : string;
  function : option string;
  func_template : string;
  arg_joiner : string;
  arity : option nat;
  func_contains_aggregate : bool;
}.

Definition Func : FuncClass :=
  {| func_name := "Func"; function := None;
     func_template := "%(function)s(%(expressions)s)"; arg_joiner := ", ";
     arity := None; func_contains_aggregate := false |}.

(** Modelled from the spec: [Aggregate] (django.db.models.aggregates is
    not under src): a function node that is an aggregate boundary, its
    class attribute [contains_aggregate] being [True]. *)
Definition Aggregate (name : string) : FuncClass :=
  {| func_name := name; function := Some name;
     func_template := "%(function)s(%(expressions)s)"; arg_joiner := ", ";
     arity := None; func_contains_aggregate := true |}.

Inductive Obj :=
| OF (cls : FClass) (name : pyval)
| OValue (cls : ValueClass) (b : Base) (value : pyval) (for_save : option bool)
| OCombined (cls : CombinedClass) (b : Base) (lhs : loc) (connector : string) (rhs : loc)
| OFunc (cls : FuncClass) (b : Base) (source_expressions : loc) (extra : dict)
| ORawSQL (b : Base) (sql : string) (params : list pyval)
| OStar (b : Base)
| ORandom (b : Base)
| OCol (b : Base) (alias : string) (target : Field)
| ORef (b : Base) (refs : string) (source : loc)
| OExpressionWrapper (b : Base) (expression : loc)
| OWhen (b : Base) (condition : loc) (result : loc)
| OCase (b : Base) (cases : loc) (default : loc) (extra : dict)
| OSubquery (cls : SubqueryClass) (b : Base) (queryset : QuerySet) (extra : dict)
| OOrderBy (b : Base) (expression : loc) (descending nulls_first nulls_last : bool)
| OCondition (c : Condition)
| OList (items : list loc).

(** ** The store and the monad of methods *)

Abbreviation heap := (list Obj).

Definition M (A : Type) : Type := heap -> res A * heap.

(** The query an expression is resolved against
    (django.db.models.sql.query is not under src): [resolve_ref name
    allow_joins reuse summarize] binds a field name or fails, and
    [bump_prefix nested h] is what [nested.query.bump_prefix(outer)]
    does to the nested query [nested] in the store [h]: it fails, or it
    re-namespaces the table aliases of the nested query against this
    query, for which it may build objects (the relabelled clones of the
    sides of the lookups), and answers the nested query as it is
    afterwards together with the objects it built. *)
Record Query := {
  resolve_ref : string -> bool -> option (list string) -> bool -> res RefTarget;
  bump_prefix : QuerySet -> heap -> res (QuerySet * list Obj);
}.

Definition ret {A} (a : A) : M A := fun h => (Ok a, h).

Definition raise {A} (e : exn) : M A := fun h => (Raise e, h).

Definition bind {A B} (m : M A) (f : A -> M B) : M B :=
  fun h =>
    match m h with
    | (Ok a, h') => f a h'
    | (Raise e, h') => (Raise e, h')
    end.

Declare Scope py_scope.
Delimit Scope py_scope with py.
Notation "x <- m ;; k" := (bind m (fun x => k))
  (at level 100, m at next level, right associativity) : py_scope.
Notation "m ;; k" := (bind m (fun _ => k))
  (at level 100, right associativity) : py_scope.
Open Scope py_scope.

(** The outcome of a call outside the store. *)
Definition lift {A} (r : res A) : M A := fun h => (r, h).

(** [try: m  except E: handler], where [handles] recognises [E]. *)
Definition try_except {A} (m : M A) (handles : exn -> bool) (handler : M A) : M A :=
  fun h =>
    match m h with
    | (Ok a, h') => (Ok a, h')
    | (Raise e, h') => if handles e then handler h' else (Raise e, h')
    end.

Definition is_FieldError (e : exn) : bool :=
  match e with FieldError _ => true | _ => false end.

Definition is_EmptyResultSet (e : exn) : bool :=
  match e with EmptyResultSet => true | _ => false end.

(** A new object: its reference is the next free one. *)
Definition alloc (o : Obj) : M loc := fun h => (Ok (length h), h ++ [o]).

(** [nested.query.bump_prefix(outer)]: the objects it builds are the
    next ones of the store. *)
Definition Query_bump_prefix (outer : Query) (nested : QuerySet) : M QuerySet :=
  fun h =>
    match bump_prefix outer nested h with
    | Ok (nested', built) => (Ok nested', h ++ built)
    | Raise e => (Raise e, h)
    end.

Definition deref (l : loc) : M Obj :=
  fun h =>
    match h !! l with
    | Some o => (Ok o, h)
    | None => (Raise (AttributeError "no such object"), h)
    end.

Definition store (l : loc) (o : Obj) : M unit := fun h => (Ok tt, <[l := o]> h).

Fixpoint traverse {A B} (f : A -> M B) (xs : list A) : M (list B) :=
  match xs with
  | [] => ret []
  | x :: xs' => y <- f x ;; ys <- traverse f xs' ;; ret (y :: ys)
  end.

Fixpoint for_each {A} (xs : list A) (body : A -> M unit) : M unit :=
  match xs with
  | [] => ret tt
  | x :: xs' => body x ;; for_each xs' body
  end.

(** [enumerate(xs)] *)
Definition enumerate {A} (xs : list A) : list (nat * A) :=
  zip (seq 0 (length xs)) xs.

(** ** Attributes *)

Definition base_of (o : Obj) : option Base :=
  match o with
  | OF _ _ | OCondition _ | OList _ => None
  | OValue _ b _ _ | OCombined _ b _ _ _ | OFunc _ b _ _ | ORawSQL b _ _
  | OStar b | ORandom b | OCol b _ _ | ORef b _ _ | OExpressionWrapper b _
  | OWhen b _ _ | OCase b _ _ _ | OSubquery _ b _ _ | OOrderBy b _ _ _ _ => Some b
  end.

Definition with_base (o : Obj) (b : Base) : Obj :=
  match o with
  | OF cls name => OF cls name
  | OValue cls _ value for_save => OValue cls b value for_save
  | OCombined cls _ lhs connector rhs => OCombined cls b lhs connector rhs
  | OFunc cls _ source_expressions extra => OFunc cls b source_expressions extra
  | ORawSQL _ sql params => ORawSQL b sql params
  | OStar _ => OStar b
  | ORandom _ => ORandom b
  | OCol _ alias target => OCol b alias target
  | ORef _ refs source => ORef b refs source
  | OExpressionWrapper _ expression => OExpressionWrapper b expression
  | OWhen _ condition result => OWhen b condition result
  | OCase _ cases default extra => OCase b cases default extra
  | OSubquery cls _ queryset extra => OSubquery cls b queryset extra
  | OOrderBy _ expression descending nulls_first nulls_last =>
      OOrderBy b expression descending nulls_first nulls_last
  | OCondition c => OCondition c
  | OList items => OList items
  end.

Definition no_attribute {A} (name : string) : M A :=
  raise (AttributeError ("object has no attribute '" +:+ name +:+ "'")).

(** Read the [BaseExpression] attributes of [self]. *)
Definition get_base (self : loc) : M Base :=
  o <- deref self ;;
  match base_of o with
  | Some b => ret b
  | None => no_attribute "_output_field"
  end.

Definition set_base (self : loc) (f : Base -> Base) : M unit :=
  o <- deref self ;;
  match base_of o with
  | Some b => store self (with_base o (f b))
  | None => no_attribute "_output_field"
  end.

Definition set_is_summary (v : bool) (b : Base) : Base :=
  {| is_summary := v; _output_field := _output_field b; copied := copied b;
     cached_output_field := cached_output_field b;
     cached__output_field_or_none := cached__output_field_or_none b;
     cached_contains_aggregate := cached_contains_aggregate b |}.

Definition set__output_field (v : option Field) (b : Base) : Base :=
  {| is_summary := is_summary b; _output_field := v; copied := copied b;
     cached_output_field := cached_output_field b;
     cached__output_field_or_none := cached__output_field_or_none b;
     cached_contains_aggregate := cached_contains_aggregate b |}.

Definition set_copied (v : bool) (b : Base) : Base :=
  {| is_summary := is_summary b; _output_field := _output_field b; copied := v;
     cached_output_field := cached_output_field b;
     cached__output_field_or_none := cached__output_field_or_none b;
     cached_contains_aggregate := cached_contains_aggregate b |}.

Definition set_cached_output_field (v : option Field) (b : Base) : Base :=
  {| is_summary := is_summary b; _output_field := _output_field b; copied := copied b;
     cached_output_field := v;
     cached__output_field_or_none := cached__output_field_or_none b;
     cached_contains_aggregate := cached_contains_aggregate b |}.

Definition set_cached__output_field_or_none (v : option (option Field)) (b : Base) : Base :=
  {| is_summary := is_summary b; _output_field := _output_field b; copied := copied b;
     cached_output_field := cached_output_field b;
     cached__output_field_or_none := v;
     cached_contains_aggregate := cached_contains_aggregate b |}.

Definition set_cached_contains_aggregate (v : option bool) (b : Base) : Base :=
  {| is_summary := is_summary b; _output_field := _output_field b; copied := copied b;
     cached_output_field := cached_output_field b;
     cached__output_field_or_none := cached__output_field_or_none b;
     cached_contains_aggregate := v |}.

(** The contents of a list object. *)
Definition get_list (l : loc) : M (list loc) :=
  o <- deref l ;;
  match o with
  | OList items => ret items
  | _ => raise (TypeError "object is not iterable")
  end.

(** [lst[pos] = x] *)
Definition list_setitem (lst : loc) (pos : nat) (x : loc) : M unit :=
  items <- get_list lst ;;
  if pos <? length items then store lst (OList (<[pos := x]> items))
  else raise (IndexError "list assignment index out of range").

(** The truth value of an object: a condition is true when it has
    children, a list when it is not empty, any other object always. *)
Definition truthy (l : loc) : M bool :=
  o <- deref l ;;
  ret match o with
      | OCondition c => cond_nonempty c
      | OList items => negb (bool_decide (items = []))
      | _ => true
      end.

(** [hasattr(v, 'resolve_expression')] *)
Definition has_resolve_expression (v : pyval) : M bool :=
  match v with
  | PObj l =>
      o <- deref l ;;
      ret match o with
          | OList _ => false
          | OCondition c => cond_resolvable c
          | _ => true
          end
  | _ => ret false
  end.

(** [self.queryset], and an update of it in place. *)
Definition get_queryset (self : loc) : M QuerySet :=
  o <- deref self ;;
  match o with
  | OSubquery _ _ queryset _ => ret queryset
  | _ => no_attribute "queryset"
  end.

Definition set_queryset (self : loc) (f : QuerySet -> QuerySet) : M unit :=
  o <- deref self ;;
  match o with
  | OSubquery cls b queryset extra => store self (OSubquery cls b (f queryset) extra)
  | _ => no_attribute "queryset"
  end.

(** ** Construction *)

(** Connectors of [Combinable]. *)
Definition Combinable_ADD : string := "+".
Definition Combinable_SUB : string := "-".
Definition Combinable_MUL : string := "*".
Definition Combinable_DIV : string := "/".
Definition Combinable_POW : string := "^".
Definition Combinable_MOD : string := "%%".
Definition Combinable_BITAND : string := "&".
Definition Combinable_BITOR : string := "|".
Definition Combinable_BITLEFTSHIFT : string := "<<".
Definition Combinable_BITRIGHTSHIFT : string := ">>".

(** [BaseExpression.__init__]: the class attributes [is_summary = False]
    and [_output_field = None], the latter overridden when an output
    field is given. *)
Definition BaseExpression_init (output_field : option Field) : Base :=
  {| is_summary := false; _output_field := output_field; copied := false;
     cached_output_field := None; cached__output_field_or_none := None;
     cached_contains_aggregate := None |}.

Definition F_init (name : pyval) : M loc := alloc (OF F name).
Definition ResolvedOuterRef_init (name : pyval) : M loc := alloc (OF ResolvedOuterRef name).
Definition OuterRef_init (name : pyval) : M loc := alloc (OF OuterRef name).

Definition Value_init (value : pyval) (output_field : option Field) : M loc :=
  alloc (OValue Value (BaseExpression_init output_field) value None).

Definition DurationValue_init (value : pyval) (output_field : option Field) : M loc :=
  alloc (OValue DurationValue (BaseExpression_init output_field) value None).

Definition CombinedExpression_init (lhs : loc) (connector : string) (rhs : loc)
    (output_field : option Field) : M loc :=
  alloc (OCombined CombinedExpression (BaseExpression_init output_field) lhs connector rhs).

Definition DurationExpression_init (lhs : loc) (connector : string) (rhs : loc) : M loc :=
  alloc (OCombined DurationExpression (BaseExpression_init None) lhs connector rhs).

Definition TemporalSubtraction_init (lhs rhs : loc) : M loc :=
  alloc (OCombined TemporalSubtraction (BaseExpression_init (Some fields_DurationField))
           lhs Combinable_SUB rhs).

Definition Col_init (alias : string) (target : Field) (output_field : option Field) : M loc :=
  let output_field := match output_field with None => target | Some f => f end in
  alloc (OCol (BaseExpression_init (Some output_field)) alias target).

Definition Ref_init (refs : string) (source : loc) : M loc :=
  alloc (ORef (BaseExpression_init None) refs source).

Definition RawSQL_init (sql : string) (params : list pyval) (output_field : option Field) : M loc :=
  let output_field := match output_field with None => fields_Field | Some f => f end in
  alloc (ORawSQL (BaseExpression_init (Some output_field)) sql params).

Definition Star_init : M loc := alloc (OStar (BaseExpression_init None)).

Definition Random_init : M loc := alloc (ORandom (BaseExpression_init (Some fields_FloatField))).

Definition ExpressionWrapper_init (expression : loc) (output_field : Field) : M loc :=
  alloc (OExpressionWrapper (BaseExpression_init (Some output_field)) expression).

(** [_parse_expressions]: an argument that is not an expression becomes
    an [F] when it is a string and a [Value] otherwise. *)
Definition _parse_expressions (expressions : list pyval) : M (list loc) :=
  traverse (fun arg =>
    b <- has_resolve_expression arg ;;
    match arg with
    | PObj l => if b then ret l else Value_init arg None
    | PStr _ => F_init arg
    | _ => Value_init arg None
    end) expressions.

(** [str(n)] of a natural number. *)
Definition str_of_nat (n : nat) : string := NilZero.string_of_uint (Nat.to_uint n).

Definition Func_init (cls : FuncClass) (expressions : list pyval)
    (output_field : option Field) (extra : dict) : M loc :=
  match arity cls with
  | Some n =>
      if negb (length expressions =? n)
      then
        msg <- lift (format_positional "'%s' takes exactly %s %s (%s given)"
                       [func_name cls; str_of_nat n;
                        if n =? 1 then "argument" else "arguments";
                        str_of_nat (length expressions)]) ;;
        raise (TypeError msg)
      else ret tt
  | None => ret tt
  end ;;
  args <- _parse_expressions expressions ;;
  source_expressions <- alloc (OList args) ;;
  alloc (OFunc cls (BaseExpression_init output_field) source_expressions extra).

(** [isinstance(v, Q)] *)
Definition is_Q (v : pyval) : M bool :=
  match v with
  | PObj l =>
      o <- deref l ;;
      ret match o with OCondition c => cond_resolvable c | _ => false end
  | _ => ret false
  end.

(** [When(condition, then=...)], without keyword lookups. *)
Definition When_init (condition : pyval) (then_ : pyval) : M loc :=
  q <- is_Q condition ;;
  match condition with
  | PObj c =>
      if q then
        parsed <- _parse_expressions [then_] ;;
        match parsed with
        | result :: _ => alloc (OWhen (BaseExpression_init None) c result)
        | [] => raise (IndexError "list index out of range")
        end
      else raise (TypeError "__init__() takes either a Q object or lookups as keyword arguments")
  | _ => raise (TypeError "__init__() takes either a Q object or lookups as keyword arguments")
  end.

(** [isinstance(v, When)] *)
Definition is_When (v : pyval) : M bool :=
  match v with
  | PObj l =>
      o <- deref l ;;
      ret match o with OWhen _ _ _ => true | _ => false end
  | _ => ret false
  end.

Definition Case_init (cases : list pyval) (default : pyval)
    (output_field : option Field) (extra : dict) : M loc :=
  whens <- traverse (fun case =>
             b <- is_When case ;;
             match case with
             | PObj l => if b then ret l
                         else raise (TypeError "Positional arguments must all be When objects.")
             | _ => raise (TypeError "Positional arguments must all be When objects.")
             end) cases ;;
  lst <- alloc (OList whens) ;;
  parsed <- _parse_expressions [default] ;;
  match parsed with
  | d :: _ => alloc (OCase (BaseExpression_init output_field) lst d extra)
  | [] => raise (IndexError "list index out of range")
  end.

(** [Subquery.__init__]: without an explicit output field, the field of
    the only selected column is taken. *)
Definition Subquery_init_as (cls : SubqueryClass) (queryset : QuerySet)
    (output_field : option Field) (extra : dict) : M loc :=
  let output_field :=
    match output_field, query_select queryset with
    | None, [col] => Some col
    | _, _ => output_field
    end in
  alloc (OSubquery cls (BaseExpression_init output_field) queryset extra).

Definition Subquery_init (queryset : QuerySet) (output_field : option Field)
    (extra : dict) : M loc :=
  Subquery_init_as Subquery queryset output_field extra.

(** [Exists.__init__]: records [negated], then [Subquery.__init__]. *)
Definition Exists_init (queryset : QuerySet) (output_field : option Field)
    (negated : bool) (extra : dict) : M loc :=
  Subquery_init_as (Exists negated) queryset output_field extra.

Definition OrderBy_init (expression : pyval) (descending nulls_first nulls_last : bool)
  : M loc :=
  if nulls_first && nulls_last
  then raise (ValueError "nulls_first and nulls_last are mutually exclusive")
  else
    b <- has_resolve_expression expression ;;
    match expression with
    | PObj e =>
        if b then
          alloc (OOrderBy (BaseExpression_init None) e descending nulls_first nulls_last)
        else raise (ValueError "expression must be an expression type")
    | _ => raise (ValueError "expression must be an expression type")
    end.

(** ** Copying and source expressions *)

(** [BaseExpression.copy]: a shallow copy marked as copied. *)
Definition BaseExpression_copy (self : loc) : M loc :=
  o <- deref self ;;
  match base_of o with
  | Some _ =>
      c <- alloc o ;;
      set_base c (set_copied true) ;;
      ret c
  | None => no_attribute "copy"
  end.

(** [Func.copy]: the copy gets a list of its own. *)
Definition Func_copy (self : loc) : M loc :=
  copy <- BaseExpression_copy self ;;
  o <- deref self ;;
  match o with
  | OFunc _ _ source_expressions _ =>
      items <- get_list source_expressions ;;
      slice <- alloc (OList items) ;;
      o' <- deref copy ;;
      match o' with
      | OFunc cls b _ extra => store copy (OFunc cls b slice extra) ;; ret copy
      | _ => no_attribute "source_expressions"
      end
  | _ => no_attribute "source_expressions"
  end.

(** [Case.copy]: the copy gets a list of cases of its own. *)
Definition Case_copy (self : loc) : M loc :=
  c <- BaseExpression_copy self ;;
  o <- deref c ;;
  match o with
  | OCase b cases default extra =>
      items <- get_list cases ;;
      slice <- alloc (OList items) ;;
      store c (OCase b slice default extra) ;;
      ret c
  | _ => no_attribute "cases"
  end.

(** [Subquery.copy]: the copy wraps a copy of the queryset. *)
Definition Subquery_copy (self : loc) : M loc :=
  clone <- BaseExpression_copy self ;;
  set_queryset clone QuerySet_all ;;
  ret clone.

(** [self.copy()] *)
Definition copy (self : loc) : M loc :=
  o <- deref self ;;
  match o with
  | OFunc _ _ _ _ => Func_copy self
  | OCase _ _ _ _ => Case_copy self
  | OSubquery _ _ _ _ => Subquery_copy self
  | _ => BaseExpression_copy self
  end.

(** One step of the comprehension of [Subquery.get_source_expressions]:
    [getattr(expr, 'lhs', None)], kept when it is true. *)
Definition lhs_if_true (expr : WhereNode) : M (list loc) :=
  match expr with
  | LookupNode lhs _ => t <- truthy lhs ;; ret (if t then [lhs] else [])
  | WhereTree _ => ret []
  end.

(** The [lhs] attributes of the children of a filter tree that are
    true: [[x for x in [getattr(expr, 'lhs', None) for expr in children] if x]]. *)
Definition Subquery_get_source_expressions (queryset : QuerySet) : M (list loc) :=
  match query_where queryset with
  | WhereTree children =>
      xs <- traverse lhs_if_true children ;;
      ret (concat xs)
  | LookupNode _ _ => no_attribute "children"
  end.

(** [self.get_source_expressions()] *)
Definition get_source_expressions (self : loc) : M (list loc) :=
  o <- deref self ;;
  match o with
  | OCombined _ _ lhs _ rhs => ret [lhs; rhs]
  | OFunc _ _ source_expressions _ => get_list source_expressions
  | ORef _ _ source => ret [source]
  | OExpressionWrapper _ expression => ret [expression]
  | OWhen _ condition result => ret [condition; result]
  | OCase _ cases default _ => items <- get_list cases ;; ret (items ++ [default])
  | OSubquery _ _ queryset _ => Subquery_get_source_expressions queryset
  | OOrderBy _ expression _ _ _ => ret [expression]
  | OValue _ _ _ _ | ORawSQL _ _ _ | OStar _ | ORandom _ | OCol _ _ _ => ret []
  | OF _ _ | OCondition _ | OList _ => no_attribute "get_source_expressions"
  end.

(** What unpacking [got] values into [expected] names raises. *)
Definition unpack_error (expected got : nat) : exn :=
  ValueError
    (if got <? expected then
       "not enough values to unpack (expected " +:+ str_of_nat expected +:+ ", got " +:+
       str_of_nat got +:+ ")"
     else "too many values to unpack (expected " +:+ str_of_nat expected +:+ ")").

(** [self.set_source_expressions(exprs)] *)
Definition set_source_expressions (self : loc) (exprs : list loc) : M unit :=
  o <- deref self ;;
  match o with
  | OCombined cls b _ connector _ =>
      match exprs with
      | [lhs; rhs] => store self (OCombined cls b lhs connector rhs)
      | _ => raise (unpack_error 2 (length exprs))
      end
  | OFunc cls b _ extra =>
      lst <- alloc (OList exprs) ;;
      store self (OFunc cls b lst extra)
  | ORef b refs _ =>
      match exprs with
      | [source] => store self (ORef b refs source)
      | _ => raise (unpack_error 1 (length exprs))
      end
  | OExpressionWrapper b _ =>
      match exprs with
      | expression :: _ => store self (OExpressionWrapper b expression)
      | [] => raise (IndexError "list index out of range")
      end
  | OWhen b _ _ =>
      match exprs with
      | [condition; result] => store self (OWhen b condition result)
      | _ => raise (unpack_error 2 (length exprs))
      end
  | OCase b _ default extra =>
      lst <- alloc (OList (removelast exprs)) ;;
      store self (OCase b lst default extra) ;;
      match last exprs with
      | Some default' => store self (OCase b lst default' extra)
      | None => raise (IndexError "list index out of range")
      end
  | OOrderBy b _ descending nulls_first nulls_last =>
      match exprs with
      | expression :: _ => store self (OOrderBy b expression descending nulls_first nulls_last)
      | [] => raise (IndexError "list index out of range")
      end
  | OValue _ _ _ _ | ORawSQL _ _ _ | OStar _ | ORandom _ | OCol _ _ _
  | OSubquery _ _ _ _ =>
      match exprs with
      | [] => ret tt
      | _ => raise AssertionError
      end
  | OF _ _ | OCondition _ | OList _ => no_attribute "set_source_expressions"
  end.

(** ** Resolution *)

Section resolve_methods.

(** [expr.resolve_expression(query, allow_joins=..., reuse=...,
    summarize=..., for_save=...)] on whatever object [expr] is, the
    arguments after the query passed by keyword. *)
Variable resolve_expression :
  loc -> option Query -> bool -> option (list string) -> bool -> bool -> M loc.

(** [expr.resolve_expression(query, allow_joins, reuse, summarize)] and
    [expr.resolve_expression(query, allow_joins, reuse, summarize,
    for_save)], every argument passed by position: [given] counts them,
    the receiver included.  [Exists.resolve_expression(self, query=None,
    **kwargs)] takes the query only by position, so that such a call on
    an [Exists] is a [TypeError], raised before the method runs. *)
Definition resolve_expression_positional (given : nat) (expr : loc)
    (query : option Query) (allow_joins : bool) (reuse : option (list string))
    (summarize for_save : bool) : M loc :=
  o <- deref expr ;;
  match o with
  | OSubquery (Exists _) _ _ _ =>
      raise (TypeError ("Exists.resolve_expression() takes from 1 to 2 positional " +:+
                        "arguments but " +:+ str_of_nat given +:+ " were given"))
  | _ => resolve_expression expr query allow_joins reuse summarize for_save
  end.

Definition BaseExpression_resolve_expression (self : loc) (query : option Query)
    (allow_joins : bool) (reuse : option (list string)) (summarize for_save : bool)
  : M loc :=
  c <- copy self ;;
  set_base c (set_is_summary summarize) ;;
  sources <- get_source_expressions c ;;
  resolved <- traverse (fun expr =>
                resolve_expression_positional 5 expr query allow_joins reuse summarize
                  false)
                sources ;;
  set_source_expressions c resolved ;;
  ret c.

Definition CombinedExpression_resolve_expression (self : loc) (query : option Query)
    (allow_joins : bool) (reuse : option (list string)) (summarize for_save : bool)
  : M loc :=
  c <- copy self ;;
  set_base c (set_is_summary summarize) ;;
  o <- deref c ;;
  match o with
  | OCombined _ _ lhs _ _ =>
      lhs' <- resolve_expression_positional 6 lhs query allow_joins reuse
                summarize for_save ;;
      o <- deref c ;;
      match o with
      | OCombined cls b _ connector rhs =>
          store c (OCombined cls b lhs' connector rhs) ;;
          rhs' <- resolve_expression_positional 6 rhs query allow_joins reuse
                    summarize for_save ;;
          o <- deref c ;;
          match o with
          | OCombined cls b lhs connector _ =>
              store c (OCombined cls b lhs connector rhs') ;;
              ret c
          | _ => no_attribute "rhs"
          end
      | _ => no_attribute "lhs"
      end
  | _ => no_attribute "lhs"
  end.

(** [F.resolve_expression]: the query binds the name. *)
Definition F_resolve_expression (name : pyval) (query : option Query)
    (allow_joins : bool) (reuse : option (list string)) (summarize for_save : bool)
  : M loc :=
  match query with
  | None => no_attribute "resolve_ref"
  | Some q =>
      match name with
      | PStr s =>
          target <- lift (resolve_ref q s allow_joins reuse summarize) ;;
          match target with
          | RefExisting l => ret l
          | RefCol alias field => Col_init alias field None
          end
      | _ => no_attribute "split"
      end
  end.

(** [OuterRef.resolve_expression]: an outer reference to an outer
    reference is peeled, any other name is wrapped. *)
Definition OuterRef_resolve_expression (name : pyval) (query : option Query)
    (allow_joins : bool) (reuse : option (list string)) (summarize for_save : bool)
  : M loc :=
  match name with
  | PObj l =>
      o <- deref l ;;
      match o with
      | OF OuterRef _ => ret l
      | _ => ResolvedOuterRef_init name
      end
  | _ => ResolvedOuterRef_init name
  end.

Definition Func_resolve_expression (self : loc) (query : option Query)
    (allow_joins : bool) (reuse : option (list string)) (summarize for_save : bool)
  : M loc :=
  c <- copy self ;;
  set_base c (set_is_summary summarize) ;;
  o <- deref c ;;
  match o with
  | OFunc _ _ source_expressions _ =>
      items <- get_list source_expressions ;;
      for_each (enumerate items) (fun '(pos, arg) =>
        arg' <- resolve_expression_positional 6 arg query allow_joins reuse summarize
                  for_save ;;
        list_setitem source_expressions pos arg') ;;
      ret c
  | _ => no_attribute "source_expressions"
  end.

Definition Value_resolve_expression (self : loc) (query : option Query)
    (allow_joins : bool) (reuse : option (list string)) (summarize for_save : bool)
  : M loc :=
  c <- BaseExpression_resolve_expression self query allow_joins reuse summarize for_save ;;
  o <- deref c ;;
  match o with
  | OValue cls b value _ => store c (OValue cls b value (Some for_save)) ;; ret c
  | _ => no_attribute "for_save"
  end.

(** [Ref.resolve_expression]: the source is resolved already. *)
Definition Ref_resolve_expression (self : loc) (query : option Query)
    (allow_joins : bool) (reuse : option (list string)) (summarize for_save : bool)
  : M loc :=
  ret self.

Definition When_resolve_expression (self : loc) (query : option Query)
    (allow_joins : bool) (reuse : option (list string)) (summarize for_save : bool)
  : M loc :=
  c <- copy self ;;
  set_base c (set_is_summary summarize) ;;
  o <- deref c ;;
  match o with
  | OWhen _ condition _ =>
      has <- has_resolve_expression (PObj condition) ;;
      (if has then
         condition' <- resolve_expression_positional 6 condition query allow_joins reuse
                         summarize false ;;
         o <- deref c ;;
         match o with
         | OWhen b _ result => store c (OWhen b condition' result)
         | _ => no_attribute "condition"
         end
       else ret tt) ;;
      o <- deref c ;;
      match o with
      | OWhen _ _ result =>
          result' <- resolve_expression_positional 6 result query allow_joins reuse
                       summarize for_save ;;
          o <- deref c ;;
          match o with
          | OWhen b condition _ => store c (OWhen b condition result') ;; ret c
          | _ => no_attribute "result"
          end
      | _ => no_attribute "result"
      end
  | _ => no_attribute "condition"
  end.

Definition Case_resolve_expression (self : loc) (query : option Query)
    (allow_joins : bool) (reuse : option (list string)) (summarize for_save : bool)
  : M loc :=
  c <- copy self ;;
  set_base c (set_is_summary summarize) ;;
  o <- deref c ;;
  match o with
  | OCase _ cases _ _ =>
      items <- get_list cases ;;
      for_each (enumerate items) (fun '(pos, case) =>
        case' <- resolve_expression_positional 6 case query allow_joins reuse summarize
                   for_save ;;
        list_setitem cases pos case') ;;
      o <- deref c ;;
      match o with
      | OCase _ _ default _ =>
          default' <- resolve_expression_positional 6 default query allow_joins reuse
                        summarize for_save ;;
          o <- deref c ;;
          match o with
          | OCase b cases _ extra => store c (OCase b cases default' extra) ;; ret c
          | _ => no_attribute "default"
          end
      | _ => no_attribute "default"
      end
  | _ => no_attribute "cases"
  end.

(** The inner function [resolve] of [Subquery.resolve_expression]: a
    child that can be resolved is resolved against the outer query,
    and the alias of a resulting column becomes an external alias of
    the clone's nested query. *)
Definition Subquery_resolve (clone : loc) (child : pyval) (query : option Query)
    (allow_joins : bool) (reuse : option (list string)) (summarize for_save : bool)
  : M pyval :=
  has <- has_resolve_expression child ;;
  match child with
  | PObj l =>
      if has then
        resolved <- resolve_expression l query allow_joins reuse summarize for_save ;;
        o <- deref resolved ;;
        match o with
        | OCol _ alias _ => set_queryset clone (fun qs => add_external_alias qs alias)
        | _ => ret tt
        end ;;
        ret (PObj resolved)
      else ret child
  | _ => ret child
  end.

(** The inner function [resolve_all]: the right-hand side of every
    lookup of the filter tree is resolved. *)
Fixpoint Subquery_resolve_all (clone : loc) (child : WhereNode) (query : option Query)
    (allow_joins : bool) (reuse : option (list string)) (summarize for_save : bool)
  : M WhereNode :=
  match child with
  | WhereTree children =>
      children' <- traverse (fun _child =>
                     Subquery_resolve_all clone _child query allow_joins reuse
                       summarize for_save) children ;;
      ret (WhereTree children')
  | LookupNode lhs rhs =>
      rhs' <- Subquery_resolve clone rhs query allow_joins reuse summarize for_save ;;
      ret (LookupNode lhs rhs')
  end.

(** [isinstance(v, Subquery)] *)
Definition is_Subquery (v : pyval) : M bool :=
  match v with
  | PObj l =>
      o <- deref l ;;
      ret match o with OSubquery _ _ _ _ => true | _ => false end
  | _ => ret false
  end.

Definition Subquery_resolve_expression (self : loc) (query : option Query)
    (allow_joins : bool) (reuse : option (list string)) (summarize for_save : bool)
  : M loc :=
  clone <- copy self ;;
  set_base clone (set_is_summary summarize) ;;
  match query with
  | Some q =>
      nested <- get_queryset clone ;;
      nested' <- Query_bump_prefix q nested ;;
      set_queryset clone (fun _ => nested')
  | None => no_attribute "alias_prefix"
  end ;;
  qs <- get_queryset clone ;;
  where' <- Subquery_resolve_all clone (query_where qs) query allow_joins reuse
              summarize for_save ;;
  set_queryset clone (fun qs => set_where qs where') ;;
  qs <- get_queryset clone ;;
  annotations' <- traverse (fun '(key, value) =>
                    sub <- is_Subquery value ;;
                    if sub then
                      value' <- Subquery_resolve clone value query allow_joins reuse
                                  summarize for_save ;;
                      ret (key, value')
                    else ret (key, value)) (query_annotations qs) ;;
  set_queryset clone (fun qs => set_annotations qs annotations') ;;
  ret clone.

(** [Exists.resolve_expression(self, query=None, **kwargs)], the
    arguments after the query passed by keyword: the ordering is removed
    from the queryset of the receiver, then
    [Subquery.resolve_expression] with the same arguments. *)
Definition Exists_resolve_expression (self : loc) (query : option Query)
    (allow_joins : bool) (reuse : option (list string)) (summarize for_save : bool)
  : M loc :=
  set_queryset self QuerySet_order_by ;;
  Subquery_resolve_expression self query allow_joins reuse summarize for_save.

(** Modelled from the spec: [Q.resolve_expression]
    (django.db.models.query_utils is not under src): resolving a
    condition against a query yields a new, resolved condition or
    fails. *)
Definition Q_resolve_expression (c : Condition) (query : option Query) : M loc :=
  if cond_resolvable c then
    match query with
    | None => no_attribute "_add_q"
    | Some _ =>
        match cond_resolve_error c with
        | Some e => raise e
        | None =>
            alloc (OCondition
                     {| cond_resolvable := false; cond_resolve_error := None;
                        cond_nonempty := cond_nonempty c;
                        cond_contains_aggregate := cond_contains_aggregate c;
                        cond_group_by_cols := cond_group_by_cols c;
                        cond_sql := cond_sql c |})
        end
    end
  else no_attribute "resolve_expression".

(** Method resolution on the class of the receiver. *)
Definition resolve_expression_of (self : loc) (query : option Query)
    (allow_joins : bool) (reuse : option (list string)) (summarize for_save : bool)
  : M loc :=
  o <- deref self ;;
  match o with
  | OF OuterRef name =>
      OuterRef_resolve_expression name query allow_joins reuse summarize for_save
  | OF _ name => F_resolve_expression name query allow_joins reuse summarize for_save
  | OValue _ _ _ _ =>
      Value_resolve_expression self query allow_joins reuse summarize for_save
  | OCombined _ _ _ _ _ =>
      CombinedExpression_resolve_expression self query allow_joins reuse summarize for_save
  | OFunc _ _ _ _ => Func_resolve_expression self query allow_joins reuse summarize for_save
  | ORef _ _ _ => Ref_resolve_expression self query allow_joins reuse summarize for_save
  | OWhen _ _ _ => When_resolve_expression self query allow_joins reuse summarize for_save
  | OCase _ _ _ _ => Case_resolve_expression self query allow_joins reuse summarize for_save
  | OSubquery Subquery _ _ _ =>
      Subquery_resolve_expression self query allow_joins reuse summarize for_save
  | OSubquery (Exists _) _ _ _ =>
      Exists_resolve_expression self query allow_joins reuse summarize for_save
  | ORawSQL _ _ _ | OStar _ | ORandom _ | OCol _ _ _ | OExpressionWrapper _ _
  | OOrderBy _ _ _ _ _ =>
      BaseExpression_resolve_expression self query allow_joins reuse summarize for_save
  | OCondition c => Q_resolve_expression c query
  | OList _ => no_attribute "resolve_expression"
  end.

End resolve_methods.

(** [self.resolve_expression(query, allow_joins=..., reuse=...,
    summarize=..., for_save=...)] under a recursion limit. *)
Fixpoint resolve_expression (limit : nat) (self : loc) (query : option Query)
    (allow_joins : bool) (reuse : option (list string)) (summarize for_save : bool)
  : M loc :=
  match limit with
  | 0 => raise RecursionError
  | S limit' =>
      resolve_expression_of (resolve_expression limit') self query allow_joins reuse
        summarize for_save
  end.

(** ** Output fields *)

(** Modelled from the spec: [cached_property] (django.utils.functional
    is not under src), a cached lazy property: the first access runs the
    method and stores what it returns in the instance, under the name of
    the property; every later access returns the stored value without
    running the method.  Nothing is stored when the method raises. *)
Definition cached_property {A} (slot : Base -> option A)
    (set_slot : option A -> Base -> Base) (method : loc -> M A) (self : loc) : M A :=
  b <- get_base self ;;
  match slot b with
  | Some v => ret v
  | None =>
      v <- method self ;;
      set_base self (set_slot (Some v)) ;;
      ret v
  end.

Section output_field_methods.

(** [e._output_field_or_none] on whatever object [e] is. *)
Variable _output_field_or_none : loc -> M (option Field).

Definition BaseExpression_get_source_fields (self : loc) : M (list (option Field)) :=
  sources <- get_source_expressions self ;;
  traverse _output_field_or_none sources.

(** [When.get_source_fields]: only the result counts. *)
Definition When_get_source_fields (result : loc) : M (list (option Field)) :=
  f <- _output_field_or_none result ;;
  ret [f].

Definition get_source_fields (self : loc) : M (list (option Field)) :=
  o <- deref self ;;
  match o with
  | OWhen _ _ result => When_get_source_fields result
  | _ => BaseExpression_get_source_fields self
  end.

(** The body of the loop of [_resolve_output_field], for one source. *)
Definition check_source (self : loc) (source : option Field) : M unit :=
  b <- get_base self ;;
  match _output_field b with
  | None => set_base self (set__output_field source)
  | Some _ => ret tt
  end ;;
  b <- get_base self ;;
  match source with
  | None => ret tt
  | Some s =>
      let same :=
        match _output_field b with
        | Some f => isinstance f (field_class s)
        | None => false
        end in
      if negb same
      then raise (FieldError "Expression contains mixed types. You must set output_field")
      else ret tt
  end.

Definition _resolve_output_field (self : loc) : M unit :=
  b <- get_base self ;;
  match _output_field b with
  | Some _ => ret tt
  | None =>
      sources <- get_source_fields self ;;
      if length sources =? 0 then set_base self (set__output_field None)
      else for_each sources (check_source self)
  end.

Definition BaseExpression__output_field_or_none (self : loc) : M (option Field) :=
  b <- get_base self ;;
  match _output_field b with
  | None => _resolve_output_field self
  | Some _ => ret tt
  end ;;
  b <- get_base self ;;
  ret (_output_field b).

End output_field_methods.

(** [self._output_field_or_none] under a recursion limit. *)
Fixpoint _output_field_or_none (limit : nat) (self : loc) : M (option Field) :=
  match limit with
  | 0 => raise RecursionError
  | S limit' =>
      cached_property cached__output_field_or_none set_cached__output_field_or_none
        (BaseExpression__output_field_or_none (_output_field_or_none limit')) self
  end.

(** The body of [BaseExpression.output_field]; its second read of
    [_output_field_or_none] finds the value the first one cached. *)
Definition BaseExpression_output_field (limit : nat) (self : loc) : M Field :=
  x <- _output_field_or_none limit self ;;
  match x with
  | None => raise (FieldError "Cannot resolve expression type, unknown output_field")
  | Some _ =>
      y <- _output_field_or_none limit self ;;
      match y with
      | Some f => ret f
      | None => raise (FieldError "Cannot resolve expression type, unknown output_field")
      end
  end.

(** [self.output_field]: a plain property on [Exists], a cached
    property everywhere else. *)
Definition output_field (limit : nat) (self : loc) : M Field :=
  o <- deref self ;;
  match o with
  | OSubquery (Exists _) _ _ _ => ret fields_BooleanField
  | _ =>
      cached_property cached_output_field set_cached_output_field
        (BaseExpression_output_field limit) self
  end.

(** [self._output_field = field] *)
Definition assign__output_field (self : loc) (field : option Field) : M unit :=
  set_base self (set__output_field field).

(** ** Aggregates and grouping *)

Section contains_aggregate_methods.

(** [expr.contains_aggregate] on whatever object [expr] is. *)
Variable contains_aggregate : loc -> M bool.

Fixpoint any_contains_aggregate (sources : list loc) : M bool :=
  match sources with
  | [] => ret false
  | expr :: rest =>
      t <- truthy expr ;;
      if t then
        a <- contains_aggregate expr ;;
        if a then ret true else any_contains_aggregate rest
      else any_contains_aggregate rest
  end.

Definition BaseExpression_contains_aggregate (self : loc) : M bool :=
  sources <- get_source_expressions self ;;
  any_contains_aggregate sources.

End contains_aggregate_methods.

(** [self.contains_aggregate] under a recursion limit: a class
    attribute on aggregates, a cached property on the other
    expressions. *)
Fixpoint contains_aggregate (limit : nat) (self : loc) : M bool :=
  match limit with
  | 0 => raise RecursionError
  | S limit' =>
      o <- deref self ;;
      match o with
      | OF _ _ | OList _ => no_attribute "contains_aggregate"
      | OCondition c =>
          if cond_resolvable c then no_attribute "contains_aggregate"
          else ret (cond_contains_aggregate c)
      | OFunc cls _ _ _ =>
          if func_contains_aggregate cls then ret true
          else cached_property cached_contains_aggregate set_cached_contains_aggregate
                 (BaseExpression_contains_aggregate (contains_aggregate limit')) self
      | _ =>
          cached_property cached_contains_aggregate set_cached_contains_aggregate
            (BaseExpression_contains_aggregate (contains_aggregate limit')) self
      end
  end.

Section get_group_by_cols_methods.

Variable limit : nat.

(** [source.get_group_by_cols()] on whatever object [source] is. *)
Variable get_group_by_cols : loc -> M (list loc).

(** [cols = []; for source in ...: cols.extend(source.get_group_by_cols())] *)
Definition collect_group_by_cols (self : loc) : M (list loc) :=
  sources <- get_source_expressions self ;;
  cols <- traverse get_group_by_cols sources ;;
  ret (concat cols).

Definition BaseExpression_get_group_by_cols (self : loc) : M (list loc) :=
  a <- contains_aggregate limit self ;;
  if negb a then ret [self] else collect_group_by_cols self.

Definition get_group_by_cols_of (self : loc) : M (list loc) :=
  o <- deref self ;;
  match o with
  | OValue _ _ _ _ => ret []
  | ORawSQL _ _ _ | OCol _ _ _ | ORef _ _ _ => ret [self]
  | OWhen _ _ _ | OOrderBy _ _ _ _ _ => collect_group_by_cols self
  | OCombined _ _ _ _ _ | OFunc _ _ _ _ | OStar _ | ORandom _
  | OExpressionWrapper _ _ | OCase _ _ _ _ | OSubquery _ _ _ _ =>
      BaseExpression_get_group_by_cols self
  | OCondition c =>
      if cond_resolvable c then no_attribute "get_group_by_cols"
      else ret (cond_group_by_cols c)
  | OF _ _ | OList _ => no_attribute "get_group_by_cols"
  end.

End get_group_by_cols_methods.

(** [self.get_group_by_cols()] under a recursion limit. *)
Fixpoint get_group_by_cols (limit : nat) (self : loc) : M (list loc) :=
  match limit with
  | 0 => raise RecursionError
  | S limit' => get_group_by_cols_of limit' (get_group_by_cols limit') self
  end.

(** ** Rendering *)

(** A SQL fragment with its bind parameters. *)
Definition fragment : Type := string * list pyval.

(** The database connection, reduced to the feature flags and the
    operations ([connection.ops]) the expressions call
    (django.db.backends is not under src). *)
Record Connection := {
  vendor : string;
  has_native_duration_field : bool;
  check_expression_support : loc -> M unit;
  combine_expression : string -> list string -> string;
  combine_duration_expression : string -> list string -> res string;
  format_for_duration_arithmetic : string -> res string;
  date_interval_sql : pyval -> res fragment;
  subtract_temporals : string -> fragment -> fragment -> res fragment;
  unification_cast_sql : Field -> string;
  random_function_sql : string;
  quote_name : string -> string;
}.

(** The query compiler, reduced to what the expressions call
    (django.db.models.sql.compiler is not under src): [compile node],
    the same with a select format, and the quoting of names. *)
Record Compiler := {
  compile : loc -> M fragment;
  compile_select_format : loc -> M fragment;
  quote_name_unless_alias : string -> string;
}.

(** [template % arg] and [template % mapping] as steps of a method. *)
Definition percent (template : string) (args : list string) : M string :=
  lift (format_positional template args).

Definition percent_mapping (template : string) (data : dict) : M string :=
  lift (format_mapping template data).

Section as_sql_methods.

Variable compiler : Compiler.
Variable connection : Connection.
Variable limit : nat.

(** [expr.as_sql(compiler, connection)] on whatever object [expr] is. *)
Variable as_sql : loc -> M fragment.

(** [ResolvedOuterRef.as_sql], whatever its arguments. *)
Definition ResolvedOuterRef_as_sql : M fragment :=
  raise (ValueError
    "This queryset contains a reference to an outer query and may only be used in a subquery.").

Definition Value_as_sql (self : loc) : M fragment :=
  check_expression_support connection self ;;
  o <- deref self ;;
  match o with
  | OValue _ b value for_save =>
      match _output_field b with
      | Some field =>
          val <- match for_save with
                 | None => no_attribute "for_save"
                 | Some true => f <- output_field limit self ;; ret (get_db_prep_save f value)
                 | Some false => f <- output_field limit self ;; ret (get_db_prep_value f value)
                 end ;;
          match get_placeholder field with
          | Some placeholder => ret (placeholder val, [val])
          | None =>
              match val with
              | PNone => ret ("NULL", [])
              | _ => ret ("%s", [val])
              end
          end
      | None =>
          match value with
          | PNone => ret ("NULL", [])
          | _ => ret ("%s", [value])
          end
      end
  | _ => no_attribute "value"
  end.

Definition DurationValue_as_sql (self : loc) : M fragment :=
  check_expression_support connection self ;;
  if has_native_duration_field connection then Value_as_sql self
  else
    o <- deref self ;;
    match o with
    | OValue _ _ value _ => lift (date_interval_sql connection value)
    | _ => no_attribute "value"
    end.

(** [DurationExpression.compile(side, compiler, connection)] *)
Definition DurationExpression_compile (side : loc) : M fragment :=
  o <- deref side ;;
  match o with
  | OValue DurationValue _ _ _ => compile compiler side
  | _ =>
      output <- try_except (f <- output_field limit side ;; ret (Some f))
                  is_FieldError (ret None) ;;
      match output with
      | Some f =>
          if String.eqb (get_internal_type f) "DurationField" then
            p <- compile compiler side ;;
            sql <- lift (format_for_duration_arithmetic connection (fst p)) ;;
            ret (sql, snd p)
          else compile compiler side
      | None => compile compiler side
      end
  end.

Definition DurationExpression_as_sql (self : loc) : M fragment :=
  check_expression_support connection self ;;
  o <- deref self ;;
  match o with
  | OCombined _ _ lhs connector rhs =>
      l <- DurationExpression_compile lhs ;;
      r <- DurationExpression_compile rhs ;;
      sql <- lift (combine_duration_expression connection connector [fst l; fst r]) ;;
      wrapped <- percent "(%s)" [sql] ;;
      ret (wrapped, snd l ++ snd r)
  | _ => no_attribute "lhs"
  end.

Definition TemporalSubtraction_as_sql (self : loc) : M fragment :=
  check_expression_support connection self ;;
  o <- deref self ;;
  match o with
  | OCombined _ _ lhs _ rhs =>
      l <- compile_select_format compiler lhs ;;
      r <- compile_select_format compiler rhs ;;
      f <- output_field limit lhs ;;
      lift (subtract_temporals connection (get_internal_type f) l r)
  | _ => no_attribute "lhs"
  end.

(** [try: x = side.output_field  except FieldError: x = None] *)
Definition output_field_or_None (side : loc) : M (option Field) :=
  try_except (f <- output_field limit side ;; ret (Some f)) is_FieldError (ret None).

Definition is_duration (output : option Field) : bool :=
  match output with
  | Some f => String.eqb (get_internal_type f) "DurationField"
  | None => false
  end.

Definition is_temporal_subtraction (connector : string) (lhs_output rhs_output : option Field)
  : bool :=
  match lhs_output, rhs_output with
  | Some l, Some r =>
      String.eqb connector Combinable_SUB &&
      (String.eqb (get_internal_type l) "DateField" ||
       String.eqb (get_internal_type l) "DateTimeField" ||
       String.eqb (get_internal_type l) "TimeField") &&
      String.eqb (get_internal_type l) (get_internal_type r)
  | _, _ => false
  end.

Definition CombinedExpression_as_sql (self : loc) : M fragment :=
  o <- deref self ;;
  match o with
  | OCombined _ _ lhs connector rhs =>
      lhs_output <- output_field_or_None lhs ;;
      rhs_output <- output_field_or_None rhs ;;
      if negb (has_native_duration_field connection) &&
         (is_duration lhs_output || is_duration rhs_output)
      then
        d <- DurationExpression_init lhs connector rhs ;;
        DurationExpression_as_sql d
      else if is_temporal_subtraction connector lhs_output rhs_output
      then
        t <- TemporalSubtraction_init lhs rhs ;;
        TemporalSubtraction_as_sql t
      else
        l <- compile compiler lhs ;;
        r <- compile compiler rhs ;;
        let sql := combine_expression connection connector [fst l; fst r] in
        wrapped <- percent "(%s)" [sql] ;;
        ret (wrapped, snd l ++ snd r)
  | _ => no_attribute "lhs"
  end.

(** The loop of [Func.as_sql] over the arguments. *)
Fixpoint compile_all (args : list loc) : M (list string * list pyval) :=
  match args with
  | [] => ret ([], [])
  | arg :: rest =>
      p <- compile compiler arg ;;
      q <- compile_all rest ;;
      ret (fst p :: fst q, snd p ++ snd q)
  end.

Definition Func_as_sql (self : loc) (function_ template arg_joiner_ : option string)
    (extra_context : dict) : M fragment :=
  check_expression_support connection self ;;
  o <- deref self ;;
  match o with
  | OFunc cls _ source_expressions extra =>
      args <- get_list source_expressions ;;
      parts <- compile_all args ;;
      let data := dict_update extra extra_context in
      let data :=
        match function_ with
        | Some f => dict_set data "function" f
        | None =>
            dict_setdefault data "function"
              (match function cls with Some f => f | None => "None" end)
        end in
      let template := str_or template (dict_get_default data "template" (func_template cls)) in
      let joiner := str_or arg_joiner_ (dict_get_default data "arg_joiner" (arg_joiner cls)) in
      let data := dict_set data "expressions" (join joiner (fst parts)) in
      let data := dict_set data "field" (join joiner (fst parts)) in
      sql <- percent_mapping template data ;;
      ret (sql, snd parts)
  | _ => no_attribute "source_expressions"
  end.

Definition Func_as_sqlite (self : loc) : M fragment :=
  p <- Func_as_sql self None None None [] ;;
  try_except
    (f <- output_field limit self ;;
     if String.eqb (get_internal_type f) "DecimalField" then
       sql <- percent "CAST(%s AS NUMERIC)" [fst p] ;;
       ret (sql, snd p)
     else ret p)
    is_FieldError (ret p).

Definition RawSQL_as_sql (self : loc) : M fragment :=
  o <- deref self ;;
  match o with
  | ORawSQL _ sql params => wrapped <- percent "(%s)" [sql] ;; ret (wrapped, params)
  | _ => no_attribute "sql"
  end.

Definition Star_as_sql : M fragment := ret ("*", []).

Definition Random_as_sql : M fragment := ret (random_function_sql connection, []).

Definition Col_as_sql (self : loc) : M fragment :=
  o <- deref self ;;
  match o with
  | OCol _ alias target =>
      let qn := quote_name_unless_alias compiler in
      sql <- percent "%s.%s" [qn alias; qn (column target)] ;;
      ret (sql, [])
  | _ => no_attribute "alias"
  end.

Definition Ref_as_sql (self : loc) : M fragment :=
  o <- deref self ;;
  match o with
  | ORef _ refs _ => sql <- percent "%s" [quote_name connection refs] ;; ret (sql, [])
  | _ => no_attribute "refs"
  end.

Definition ExpressionWrapper_as_sql (self : loc) : M fragment :=
  o <- deref self ;;
  match o with
  | OExpressionWrapper _ expression => as_sql expression
  | _ => no_attribute "expression"
  end.

Definition When_template : string := "WHEN %(condition)s THEN %(result)s".

Definition When_as_sql (self : loc) (template : option string) (extra_context : dict)
  : M fragment :=
  check_expression_support connection self ;;
  o <- deref self ;;
  match o with
  | OWhen _ condition result =>
      c <- compile compiler condition ;;
      let template_params := dict_set extra_context "condition" (fst c) in
      r <- compile compiler result ;;
      let template_params := dict_set template_params "result" (fst r) in
      sql <- percent_mapping (str_or template When_template) template_params ;;
      ret (sql, snd c ++ snd r)
  | _ => no_attribute "condition"
  end.

Definition Case_template : string := "CASE %(cases)s ELSE %(default)s END".
Definition Case_case_joiner : string := " ".

(** The loop of [Case.as_sql]: a case whose compilation raises
    [EmptyResultSet] is left out. *)
Fixpoint compile_cases (cases : list loc) : M (list string * list pyval) :=
  match cases with
  | [] => ret ([], [])
  | case :: rest =>
      p <- try_except (f <- compile compiler case ;; ret (Some f))
             is_EmptyResultSet (ret None) ;;
      q <- compile_cases rest ;;
      match p with
      | Some (case_sql, case_params) => ret (case_sql :: fst q, case_params ++ snd q)
      | None => ret q
      end
  end.

Definition Case_as_sql (self : loc) (template case_joiner : option string)
    (extra_context : dict) : M fragment :=
  check_expression_support connection self ;;
  o <- deref self ;;
  match o with
  | OCase _ cases default extra =>
      items <- get_list cases ;;
      match items with
      | [] => compile compiler default
      | _ =>
          let template_params := dict_update extra extra_context in
          parts <- compile_cases items ;;
          d <- compile compiler default ;;
          match fst parts with
          | [] => ret d
          | case_parts =>
              let case_joiner := str_or case_joiner Case_case_joiner in
              let template_params :=
                dict_set template_params "cases" (join case_joiner case_parts) in
              let template_params := dict_set template_params "default" (fst d) in
              let sql_params := snd parts ++ snd d in
              let template :=
                str_or template (dict_get_default template_params "template" Case_template) in
              sql <- percent_mapping template template_params ;;
              declared <- _output_field_or_none limit self ;;
              match declared with
              | Some _ =>
                  f <- output_field limit self ;;
                  cast <- percent (unification_cast_sql connection f) [sql] ;;
                  ret (cast, sql_params)
              | None => ret (sql, sql_params)
              end
          end
      end
  | _ => no_attribute "cases"
  end.

Definition Subquery_template (cls : SubqueryClass) : string :=
  match cls with
  | Subquery => "(%(subquery)s)"
  | Exists _ => "EXISTS(%(subquery)s)"
  end.

Definition Subquery_as_sql (self : loc) (template : option string) (extra_context : dict)
  : M fragment :=
  check_expression_support connection self ;;
  o <- deref self ;;
  match o with
  | OSubquery cls _ queryset extra =>
      let template_params := dict_update extra extra_context in
      nested <- lift (query_as_sql queryset) ;;
      let template_params := dict_set template_params "subquery" (fst nested) in
      let template :=
        str_or template (dict_get_default template_params "template" (Subquery_template cls)) in
      sql <- percent_mapping template template_params ;;
      f <- output_field limit self ;;
      cast <- percent (unification_cast_sql connection f) [sql] ;;
      ret (cast, snd nested)
  | _ => no_attribute "queryset"
  end.

Definition Exists_as_sql (self : loc) (template : option string) (extra_context : dict)
  : M fragment :=
  p <- Subquery_as_sql self template extra_context ;;
  o <- deref self ;;
  match o with
  | OSubquery (Exists true) _ _ _ => ret ("NOT " +:+ fst p, snd p)
  | OSubquery (Exists false) _ _ _ => ret p
  | _ => no_attribute "negated"
  end.

Definition Exists_as_oracle (self : loc) : M fragment :=
  p <- Exists_as_sql self None [] ;;
  ret ("CASE WHEN " +:+ fst p +:+ " THEN 1 ELSE 0 END", snd p).

Definition OrderBy_template : string := "%(expression)s %(ordering)s".

Definition OrderBy_as_sql (self : loc) (template : option string) (extra_context : dict)
  : M fragment :=
  o <- deref self ;;
  match o with
  | OOrderBy _ expression descending nulls_first nulls_last =>
      template <-
        match str_or template "" with
        | EmptyString =>
            if nulls_last then
              t <- percent "%s NULLS LAST" [OrderBy_template] ;; ret (Some t)
            else if nulls_first then
              t <- percent "%s NULLS FIRST" [OrderBy_template] ;; ret (Some t)
            else ret template
        | _ => ret template
        end ;;
      check_expression_support connection self ;;
      e <- compile compiler expression ;;
      let placeholders :=
        [("expression", fst e); ("ordering", if descending then "DESC" else "ASC")] in
      let placeholders := dict_update placeholders extra_context in
      sql <- percent_mapping (str_or template OrderBy_template) placeholders ;;
      ret (rstrip sql, snd e)
  | _ => no_attribute "expression"
  end.

Definition OrderBy_as_sqlite (self : loc) : M fragment :=
  o <- deref self ;;
  match o with
  | OOrderBy _ _ _ nulls_first nulls_last =>
      let template :=
        if nulls_last then Some "%(expression)s IS NULL, %(expression)s %(ordering)s"
        else if nulls_first then Some "%(expression)s IS NOT NULL, %(expression)s %(ordering)s"
        else None in
      OrderBy_as_sql self template []
  | _ => no_attribute "nulls_last"
  end.

Definition OrderBy_as_mysql (self : loc) : M fragment :=
  o <- deref self ;;
  match o with
  | OOrderBy _ _ _ nulls_first nulls_last =>
      let template :=
        if nulls_last then Some "IF(ISNULL(%(expression)s),1,0), %(expression)s %(ordering)s "
        else if nulls_first then Some "IF(ISNULL(%(expression)s),0,1), %(expression)s %(ordering)s "
        else None in
      OrderBy_as_sql self template []
  | _ => no_attribute "nulls_last"
  end.

(** [self.as_sql(compiler, connection)]: method resolution on the
    class of the receiver. *)
Definition as_sql_of (self : loc) : M fragment :=
  o <- deref self ;;
  match o with
  | OF ResolvedOuterRef _ => ResolvedOuterRef_as_sql
  | OF _ _ | OList _ => no_attribute "as_sql"
  | OValue Value _ _ _ => Value_as_sql self
  | OValue DurationValue _ _ _ => DurationValue_as_sql self
  | OCombined CombinedExpression _ _ _ _ => CombinedExpression_as_sql self
  | OCombined DurationExpression _ _ _ _ => DurationExpression_as_sql self
  | OCombined TemporalSubtraction _ _ _ _ => TemporalSubtraction_as_sql self
  | OFunc _ _ _ _ => Func_as_sql self None None None []
  | ORawSQL _ _ _ => RawSQL_as_sql self
  | OStar _ => Star_as_sql
  | ORandom _ => Random_as_sql
  | OCol _ _ _ => Col_as_sql self
  | ORef _ _ _ => Ref_as_sql self
  | OExpressionWrapper _ _ => ExpressionWrapper_as_sql self
  | OWhen _ _ _ => When_as_sql self None []
  | OCase _ _ _ _ => Case_as_sql self None None []
  | OSubquery Subquery _ _ _ => Subquery_as_sql self None []
  | OSubquery (Exists _) _ _ _ => Exists_as_sql self None []
  | OOrderBy _ _ _ _ _ => OrderBy_as_sql self None []
  | OCondition c =>
      if cond_resolvable c then no_attribute "as_sql" else lift (cond_sql c)
  end.

(** Modelled from the spec: [SQLCompiler.compile]
    (django.db.models.sql.compiler is not under src): a node is
    compiled by its dialect method [as_<vendor>] when its class has
    one for the vendor of the connection, by [as_sql] otherwise. *)
Definition compile_of (node : loc) : M fragment :=
  o <- deref node ;;
  match o with
  | OFunc _ _ _ _ =>
      if String.eqb (vendor connection) "sqlite" then Func_as_sqlite node
      else as_sql_of node
  | OSubquery (Exists _) _ _ _ =>
      if String.eqb (vendor connection) "oracle" then Exists_as_oracle node
      else as_sql_of node
  | OOrderBy _ _ _ _ _ =>
      if String.eqb (vendor connection) "sqlite" then OrderBy_as_sqlite node
      else if String.eqb (vendor connection) "mysql" then OrderBy_as_mysql node
      else as_sql_of node
  | _ => as_sql_of node
  end.

End as_sql_methods.

(** How a node is entered: through [compiler.compile(node)] or through
    [node.as_sql(compiler, connection)]. *)
Inductive entry := ByCompile | ByAsSql.

(** The compiler bound to a connection, under a recursion limit. *)
Fixpoint SQLCompiler (limit : nat) (connection : Connection)
    (quote : string -> string) (how : entry) (node : loc) : M fragment :=
  match limit with
  | 0 => raise RecursionError
  | S limit' =>
      let compiler :=
        {| compile := SQLCompiler limit' connection quote ByCompile;
           compile_select_format := SQLCompiler limit' connection quote ByCompile;
           quote_name_unless_alias := quote |} in
      match how with
      | ByCompile =>
          compile_of compiler connection limit'
            (SQLCompiler limit' connection quote ByAsSql) node
      | ByAsSql =>
          as_sql_of compiler connection limit'
            (SQLCompiler limit' connection quote ByAsSql) node
      end
  end.

(** Modelled from the spec: the operations of the base backend
    (django.db.backends.base.operations is not under src): every
    expression is supported, the generic combination joins the operands
    with the connector between single spaces, and a value needs no
    cast. *)
Definition base_connection : Connection :=
  {| vendor := "base";
     has_native_duration_field := false;
     check_expression_support := fun _ => ret tt;
     combine_expression := fun connector sub_expressions =>
       join (" " +:+ connector +:+ " ") sub_expressions;
     combine_duration_expression := fun connector sub_expressions =>
       Ok (join (" " +:+ connector +:+ " ") sub_expressions);
     format_for_duration_arithmetic := fun _ =>
       Raise (NotImplementedError "format_for_duration_arithmetic");
     date_interval_sql := fun _ => Raise (NotImplementedError "date_interval_sql");
     subtract_temporals := fun _ _ _ =>
       Raise (NotImplementedError "This backend does not support temporal subtraction.");
     unification_cast_sql := fun _ => "%s";
     random_function_sql := "RANDOM()";
     quote_name := fun name => name |}.

(** * Specification vocabulary *)

(** What resolution may do to an object that exists already: nothing,
    unless it is an [Exists], whose queryset loses its ordering. *)
Definition strip (o : Obj) : Obj :=
  match o with
  | OSubquery (Exists negated) b queryset extra =>
      OSubquery (Exists negated) b (QuerySet_order_by queryset) extra
  | _ => o
  end.

(** [ext h h']: the store [h'] extends [h], every object of [h] being
    as it was up to [strip]. *)
Definition ext (h h' : heap) : Prop :=
  length h <= length h' /\
  forall l o, h !! l = Some o -> h' !! l = Some o \/ h' !! l = Some (strip o).

(** The postcondition [Q] holds of the outcome of [m] run in [h]. *)
Definition wp {A} (m : M A) (h : heap) (Q : res A -> heap -> Prop) : Prop :=
  Q (m h).1 (m h).2.

(** The references [get_source_expressions] reads from a filter tree. *)
Definition child_lhs (w : WhereNode) : option loc :=
  match w with LookupNode lhs _ => Some lhs | WhereTree _ => None end.

Definition where_shape (w : WhereNode) : option (list (option loc)) :=
  match w with
  | WhereTree children => Some (map child_lhs children)
  | LookupNode _ _ => None
  end.

Definition is_copying (o : Obj) : bool :=
  match o with
  | ORef _ _ _ | OF _ _ | OCondition _ | OList _ => false
  | _ => true
  end.

Arguments wp : simpl never.
Arguments has_resolve_expression : simpl never.

Definition uses_base_resolve (o : Obj) : bool :=
  match o with
  | ORawSQL _ _ _ | OStar _ | ORandom _ | OCol _ _ _ | OExpressionWrapper _ _
  | OOrderBy _ _ _ _ _ | OValue _ _ _ _ => true
  | _ => false
  end.

(** A [Subquery] or an [Exists]: its source expressions are read from
    the filter tree of the queryset it wraps. *)
Definition wraps_queryset (o : Obj) : bool :=
  match o with OSubquery _ _ _ _ => true | _ => false end.

(** [ext_but own h h']: as [ext h h'], but for the objects at the
    references [own], of which nothing is said. *)
Definition ext_but (own : list loc) (h h' : heap) : Prop :=
  length h <= length h' /\
  forall l o, l ∉ own -> h !! l = Some o -> h' !! l = Some o \/ h' !! l = Some (strip o).

(** [h'] answers the truth value of every object as [h] does. *)
Definition same_truth (h h' : heap) : Prop :=
  forall l t, truthy l h = (Ok t, h) -> truthy l h' = (Ok t, h').

(** The objects [resolve_expression] builds for its result [c] and
    assigns to while it resolves the sources: the result and, for a
    function node or a [Case], the list of its own. *)
Definition own (h' : heap) (c : loc) : list loc :=
  c :: match h' !! c with
       | Some (OFunc _ _ lst _) | Some (OCase _ lst _ _) => [lst]
       | _ => []
       end.

(** Two objects of the same class. *)
Definition same_class (o o' : Obj) : Prop :=
  match o, o' with
  | OF cls _, OF cls' _ => cls = cls'
  | OValue cls _ _ _, OValue cls' _ _ _ => cls = cls'
  | OCombined cls _ _ _ _, OCombined cls' _ _ _ _ => cls = cls'
  | OFunc cls _ _ _, OFunc cls' _ _ _ => cls = cls'
  | ORawSQL _ _ _, ORawSQL _ _ _ | OStar _, OStar _ | ORandom _, ORandom _
  | OCol _ _ _, OCol _ _ _ | ORef _ _ _, ORef _ _ _
  | OExpressionWrapper _ _, OExpressionWrapper _ _ | OWhen _ _ _, OWhen _ _ _
  | OCase _ _ _ _, OCase _ _ _ _ | OOrderBy _ _ _ _ _, OOrderBy _ _ _ _ _
  | OCondition _, OCondition _ | OList _, OList _ => True
  | OSubquery cls _ _ _, OSubquery cls' _ _ _ => cls = cls'
  | _, _ => False
  end.

(** The clone of a subquery: an object of class [cls] with the
    attributes [b] at [c], whose filter tree has the shape [shape]. *)
Definition sub_at (hk : heap) (c : loc) (cls : SubqueryClass) (b : Base)
    (shape : option (list (option loc))) : Prop :=
  exists qs e, hk !! c = Some (OSubquery cls b qs e) /\
               where_shape (query_where qs) = shape.

Section resolve_specs.

Variable rec : loc -> option Query -> bool -> option (list string) -> bool -> bool -> M loc.
Variable query : option Query.
Variable allow_joins : bool.
Variable reuse : option (list string).
Variable summarize : bool.

(** [y] is what the source [x] became between the stores [h] and [h']:
    [x] itself, which offered no [resolve_expression]; or what the call
    of [resolve_expression] on [x] returned, a call made in a store [h1]
    that extends [h] and whose outcome [h'] keeps, but for the objects
    at [own]. *)
Definition resolved_from (h h' : heap) (own : list loc) (x y : loc) : Prop :=
  (y = x /\ exists h1, ext h h1 /\ has_resolve_expression (PObj x) h1 = (Ok false, h1)) \/
  exists for_save h1 h2,
    ext h h1 /\
    rec x query allow_joins reuse summarize for_save h1 = (Ok y, h2) /\
    ext_but own h2 h'.

Definition sources_related (h : heap) (self : loc) (h' : heap) (c : loc) : Prop :=
  forall xs, get_source_expressions self h = (Ok xs, h) ->
    exists ys, get_source_expressions c h' = (Ok ys, h') /\
               Forall2 (resolved_from h h' (own h' c)) xs ys.

(** Re-namespacing the aliases of a nested query keeps the number of
    source expressions that are read from its filter tree (the
    left-hand sides themselves may be replaced by relabelled clones). *)
Definition bump_keeps_sources : Prop :=
  forall q nested h nested' built xs,
    query = Some q ->
    bump_prefix q nested h = Ok (nested', built) ->
    Subquery_get_source_expressions nested h = (Ok xs, h) ->
    exists ys,
      Subquery_get_source_expressions nested' (h ++ built) = (Ok ys, h ++ built) /\
      length ys = length xs.

(** The result [c] of resolving [o] is a new node: an object of the
    class of [o] that the store [h] did not hold, marked as a copy, with
    [is_summary] as asked for. *)
Definition new_node (h : heap) (o : Obj) (c : loc) (h' : heap) : Prop :=
  c = length h /\
  exists o' b', h' !! c = Some o' /\ same_class o o' /\ base_of o' = Some b' /\
                is_summary b' = summarize /\ copied b' = true.

(** As many sources after as before, for a node that wraps a
    queryset. *)
Definition sources_counted (h : heap) (self : loc) (h' : heap) (c : loc) : Prop :=
  forall xs, get_source_expressions self h = (Ok xs, h) ->
    exists ys, get_source_expressions c h' = (Ok ys, h') /\ length ys = length xs.

Definition resolve_post (h : heap) (self : loc) (r : res loc) (h' : heap) : Prop :=
  ext h h' /\
  forall c o, r = Ok c -> h !! self = Some o ->
    (is_copying o = true -> new_node h o c h') /\
    (is_copying o = true -> wraps_queryset o = false -> sources_related h self h' c) /\
    (wraps_queryset o = true -> bump_keeps_sources -> sources_counted h self h' c) /\
    (is_copying o = false ->
     forall xs, get_source_expressions self h = (Ok xs, h) -> c = self /\ h' = h).

(** After [BaseExpression.resolve_expression] the result is the copy,
    of the class of the receiver. *)
Definition base_resolve_post (h : heap) (self : loc) (o : Obj) (r : res loc) (h' : heap)
  : Prop :=
  resolve_post h self r h' /\
  forall c, r = Ok c ->
    c = length h /\
    match o with
    | OValue cls b value for_save =>
        h' !! c = Some (OValue cls (set_is_summary summarize (set_copied true b)) value
                          for_save)
    | _ => True
    end.

Section subquery_specs.

Variable h0 : heap.
Variable clone : loc.
Variable cls : SubqueryClass.
Variable b : Base.
Variable shape : option (list (option loc)).

(** While the clone is worked on: the store is [h0] but for the clone,
    which is a subquery of the class, the attributes and the shape it
    had. *)
Definition sub_inv (hk : heap) : Prop :=
  ext_but [clone] h0 hk /\ sub_at hk clone cls b shape.

End subquery_specs.

(** After [Subquery.resolve_expression] on a subquery of class [cls],
    attributes [b] and queryset [qs], the result is the clone, and it
    has as many sources as the receiver when re-namespacing keeps their
    number. *)
Definition subquery_post (h : heap) (cls : SubqueryClass) (b : Base) (qs : QuerySet)
    (r : res loc) (h' : heap) : Prop :=
  ext h h' /\
  forall c, r = Ok c ->
    c = length h /\
    exists qs' e',
      h' !! c = Some (OSubquery cls (set_is_summary summarize (set_copied true b)) qs' e') /\
      (bump_keeps_sources ->
       forall xs, Subquery_get_source_expressions qs h = (Ok xs, h) ->
         exists ys, Subquery_get_source_expressions qs' h' = (Ok ys, h') /\
                    length ys = length xs).

End resolve_specs.

(** [y] is what the source [x] became between the stores [h] and [h']:
    [x] itself, which offered no [resolve_expression]; or what a call
    of [resolve_expression] on [x] returned, a call made in a store [h1]
    that extends [h] and whose outcome [h'] keeps, but for the objects
    at [own]. *)
Definition resolves_to (query : option Query) (allow_joins : bool)
    (reuse : option (list string)) (summarize : bool) (h h' : heap) (own : list loc)
    (x y : loc) : Prop :=
  (y = x /\ exists h1, ext h h1 /\ has_resolve_expression (PObj x) h1 = (Ok false, h1)) \/
  exists limit for_save h1 h2,
    ext h h1 /\
    resolve_expression limit x query allow_joins reuse summarize for_save h1 = (Ok y, h2) /\
    ext_but own h2 h'.

Definition is_Exists (o : Obj) : bool :=
  match o with OSubquery (Exists _) _ _ _ => true | _ => false end.

(** Modelled on the words of the spec: the output types of the sources
    are unified; sources without a type do not count, the first typed
    source gives the type, and a typed source whose class does not admit
    that type is a configuration error. *)
Definition unified_type (sources : list (option Field)) : res (option Field) :=
  match omap id sources with
  | [] => Ok None
  | f :: rest =>
      if forallb (fun s => isinstance f (field_class s)) (f :: rest) then Ok (Some f)
      else Raise (FieldError "Expression contains mixed types. You must set output_field")
  end.

(** What requesting the output type answers for an inferred type. *)
Definition requested (inferred : res (option Field)) : res Field :=
  match inferred with
  | Ok (Some f) => Ok f
  | Ok None => Raise (FieldError "Cannot resolve expression type, unknown output_field")
  | Raise e => Raise e
  end.

(** One step of the loop of [_resolve_output_field], as a function of
    the type found so far. *)
Definition unify_step (current source : option Field) : res (option Field) :=
  let current := match current with None => source | Some _ => current end in
  match source with
  | None => Ok current
  | Some s =>
      if match current with Some f => isinstance f (field_class s) | None => false end
      then Ok current
      else Raise (FieldError "Expression contains mixed types. You must set output_field")
  end.

Fixpoint unify_loop (current : option Field) (sources : list (option Field))
  : res (option Field) :=
  match sources with
  | [] => Ok current
  | source :: rest =>
      match unify_step current source with
      | Ok current' => unify_loop current' rest
      | Raise e => Raise e
      end
  end.

Section output_field_specs.

Variable self : loc.

(** The object at [self]: [o] with the attributes [b]. *)
Definition node_at (h : heap) (o : Obj) (b : Base) : Prop :=
  h !! self = Some (with_base o b) /\ base_of o <> None.

(** What a computation of [_output_field_or_none] that answers [R]
    leaves behind: the answer is cached in the node. *)
Definition or_none_post (o : Obj) (b : Base) (R : res (option Field))
    (r : res (option Field)) (h' : heap) : Prop :=
  r = R /\
  forall v, R = Ok v ->
    exists b', node_at h' o b' /\
               cached__output_field_or_none b' = Some v /\
               cached_output_field b' = cached_output_field b.

(** What requesting the output type leaves behind. *)
Definition output_field_post (o : Obj) (R : res (option Field)) (r : res Field) (h' : heap)
  : Prop :=
  r = requested R /\
  (forall f, R = Ok (Some f) ->
             exists b', node_at h' o b' /\ cached_output_field b' = Some f) /\
  (R = Ok None ->
   exists b', node_at h' o b' /\ cached__output_field_or_none b' = Some None /\
              cached_output_field b' = None).

End output_field_specs.

Definition unknown_output_field : exn :=
  FieldError "Cannot resolve expression type, unknown output_field".

(** A plain [Value(5)]: no sources, no declared output field. *)
Definition value_5 : heap := [OValue Value (BaseExpression_init None) (PInt 5) None].

(** [m] never raises [EmptyResultSet]. *)
Definition quiet {A} (m : M A) : Prop := forall h, (m h).1 <> Raise EmptyResultSet.

Section rendering_specs.

Variable compiler : Compiler.

(** Every case of the list signals an empty result set when it is
    compiled, one after the other from the store [h] to [h']. *)
Inductive all_skipped : list loc -> heap -> heap -> Prop :=
| all_skipped_nil h : all_skipped [] h h
| all_skipped_cons case rest h h1 h' :
    compile compiler case h = (Raise EmptyResultSet, h1) ->
    all_skipped rest h1 h' ->
    all_skipped (case :: rest) h h'.

End rendering_specs.

(** [CombinedExpression(Value(3), '+', Value(4))] in an empty store. *)
Definition three_plus_four : M loc :=
  a <- Value_init (PInt 3) None ;;
  b <- Value_init (PInt 4) None ;;
  CombinedExpression_init a Combinable_ADD b None.

(** The compiler of the base backend with two levels of nesting. *)
Definition base_compiler : Compiler :=
  {| compile := SQLCompiler 2 base_connection id ByCompile;
     compile_select_format := SQLCompiler 2 base_connection id ByCompile;
     quote_name_unless_alias := id |}.

(** A condition that matches no row, a [When] on it, and a [Case] of
    that single [When] with the default [Value(1)]. *)
Definition never : Condition :=
  {| cond_resolvable := false; cond_resolve_error := None; cond_nonempty := true;
     cond_contains_aggregate := false; cond_group_by_cols := [];
     cond_sql := Raise EmptyResultSet |}.

Definition case_of_never : heap :=
  [ OCondition never;
    OValue Value (BaseExpression_init None) (PInt 7) None;
    OWhen (BaseExpression_init None) 0 1;
    OList [2];
    OValue Value (BaseExpression_init None) (PInt 1) None;
    OCase (BaseExpression_init None) 3 4 [] ].

(** A queryset that matches no row: compiling it signals an empty
    result set. *)
Definition empty_queryset : QuerySet :=
  {| query_select := [fields_IntegerField];
     query_order_by := [];
     query_where := WhereTree [];
     query_annotations := [];
     query_external_aliases := ∅;
     query_as_sql := Raise EmptyResultSet |}.

(** [Case(default=Subquery(empty))], a [Case] without cases (the object
    2), and the same default under a [Case] of the single [When] of
    [case_of_never] (the object 7). *)
Definition case_default_empty : heap :=
  [ OSubquery Subquery (BaseExpression_init None) empty_queryset [];
    OList [];
    OCase (BaseExpression_init None) 1 0 [];
    OCondition never;
    OValue Value (BaseExpression_init None) (PInt 7) None;
    OWhen (BaseExpression_init None) 3 4;
    OList [5];
    OCase (BaseExpression_init None) 6 0 [] ].

(** A query with a single column [id], in the table of alias [T1]. *)
Definition query_with_id : Query :=
  {| resolve_ref := fun name _ _ _ =>
       if String.eqb name "id" then Ok (RefCol "T1" fields_IntegerField)
       else Raise (FieldError "Cannot resolve keyword into field.");
     bump_prefix := fun nested _ => Ok (nested, []) |}.





(** A store holding [Value(5)] and a reference [Ref("total", Value(5))]
    to it. *)
Definition ref_to_value_5 : heap :=
  value_5 ++ [ORef (BaseExpression_init None) "total" 0].

(** The store of [Value(3) + Value(4)]. *)
Definition three_plus_four_store : heap := (three_plus_four []).2.

(** The outcome of resolving the sum (the object 2) in it. *)
Definition resolved_three_plus_four : res loc * heap :=
  resolve_expression 2 2 (Some query_with_id) true None false false three_plus_four_store.

(** A queryset of one column, ordered by [name]. *)
Definition ordered_queryset : QuerySet :=
  {| query_select := [fields_IntegerField];
     query_order_by := ["name"];
     query_where := WhereTree [];
     query_annotations := [];
     query_external_aliases := ∅;
     query_as_sql := Ok ("SELECT U0.id FROM t U0 ORDER BY U0.name", []) |}.

Definition exists_ordered : heap := (Exists_init ordered_queryset None false [] []).2.

(** * The other methods of the module *)

(** ** Combining expressions *)

(** [Combinable._combine]: an operand that is not an expression is
    wrapped, a [timedelta] in a [DurationValue] with a [DurationField],
    anything else in a [Value]; [reversed] puts the receiver on the
    right. *)
Definition _combine (self : loc) (other : pyval) (connector : string) (reversed : bool)
  : M loc :=
  has <- has_resolve_expression other ;;
  other <- match other with
           | PObj l => if has then ret l else Value_init other None
           | PTimedelta _ => DurationValue_init other (Some fields_DurationField)
           | _ => Value_init other None
           end ;;
  if reversed then CombinedExpression_init other connector self None
  else CombinedExpression_init self connector other None.

Definition __add__ (self : loc) (other : pyval) : M loc :=
  _combine self other Combinable_ADD false.

Definition __sub__ (self : loc) (other : pyval) : M loc :=
  _combine self other Combinable_SUB false.

Definition __mul__ (self : loc) (other : pyval) : M loc :=
  _combine self other Combinable_MUL false.

Definition __truediv__ (self : loc) (other : pyval) : M loc :=
  _combine self other Combinable_DIV false.

Definition __mod__ (self : loc) (other : pyval) : M loc :=
  _combine self other Combinable_MOD false.

Definition __pow__ (self : loc) (other : pyval) : M loc :=
  _combine self other Combinable_POW false.

Definition __and__ (self : loc) (other : pyval) : M loc :=
  raise (NotImplementedError "Use .bitand() and .bitor() for bitwise logical operations.").

Definition bitand (self : loc) (other : pyval) : M loc :=
  _combine self other Combinable_BITAND false.

Definition bitleftshift (self : loc) (other : pyval) : M loc :=
  _combine self other Combinable_BITLEFTSHIFT false.

Definition bitrightshift (self : loc) (other : pyval) : M loc :=
  _combine self other Combinable_BITRIGHTSHIFT false.

Definition __or__ (self : loc) (other : pyval) : M loc :=
  raise (NotImplementedError "Use .bitand() and .bitor() for bitwise logical operations.").

Definition bitor (self : loc) (other : pyval) : M loc :=
  _combine self other Combinable_BITOR false.

Definition __radd__ (self : loc) (other : pyval) : M loc :=
  _combine self other Combinable_ADD true.

Definition __rsub__ (self : loc) (other : pyval) : M loc :=
  _combine self other Combinable_SUB true.

Definition __rmul__ (self : loc) (other : pyval) : M loc :=
  _combine self other Combinable_MUL true.

Definition __rtruediv__ (self : loc) (other : pyval) : M loc :=
  _combine self other Combinable_DIV true.

Definition __rmod__ (self : loc) (other : pyval) : M loc :=
  _combine self other Combinable_MOD true.

Definition __rpow__ (self : loc) (other : pyval) : M loc :=
  _combine self other Combinable_POW true.

Definition __rand__ (self : loc) (other : pyval) : M loc :=
  raise (NotImplementedError "Use .bitand() and .bitor() for bitwise logical operations.").

Definition __ror__ (self : loc) (other : pyval) : M loc :=
  raise (NotImplementedError "Use .bitand() and .bitor() for bitwise logical operations.").

(** ** Ordering *)

(** The keyword arguments [asc] and [desc] hand over to [OrderBy]. *)
Record kwargs := {
  kw_descending : option bool;
  kw_nulls_first : option bool;
  kw_nulls_last : option bool;
}.

Definition no_kwargs : kwargs :=
  {| kw_descending := None; kw_nulls_first := None; kw_nulls_last := None |}.

(** [BaseExpression.asc] and [F.asc]: [OrderBy(self, **kwargs)]. *)
Definition BaseExpression_asc (self : loc) (kw : kwargs) : M pyval :=
  o <- OrderBy_init (PObj self) (default false (kw_descending kw))
         (default false (kw_nulls_first kw)) (default false (kw_nulls_last kw)) ;;
  ret (PObj o).

(** [BaseExpression.desc] and [F.desc]:
    [OrderBy(self, descending=True, **kwargs)]. *)
Definition BaseExpression_desc (self : loc) (kw : kwargs) : M pyval :=
  match kw_descending kw with
  | Some _ => raise (TypeError "got multiple values for keyword argument 'descending'")
  | None =>
      o <- OrderBy_init (PObj self) true
             (default false (kw_nulls_first kw)) (default false (kw_nulls_last kw)) ;;
      ret (PObj o)
  end.

(** [OrderBy.asc] and [OrderBy.desc] set the direction of the receiver
    and return nothing. *)
Definition OrderBy_set_descending (self : loc) (descending : bool) : M pyval :=
  o <- deref self ;;
  match o with
  | OOrderBy b expression _ nulls_first nulls_last =>
      store self (OOrderBy b expression descending nulls_first nulls_last) ;;
      ret PNone
  | _ => no_attribute "descending"
  end.

Definition has_kwargs (kw : kwargs) : bool :=
  match kw_descending kw, kw_nulls_first kw, kw_nulls_last kw with
  | None, None, None => false
  | _, _, _ => true
  end.

(** [self.asc] called with keyword arguments. *)
Definition asc (self : loc) (kw : kwargs) : M pyval :=
  o <- deref self ;;
  match o with
  | OOrderBy _ _ _ _ _ =>
      if has_kwargs kw then raise (TypeError "asc() got an unexpected keyword argument")
      else OrderBy_set_descending self false
  | OCondition _ | OList _ => no_attribute "asc"
  | _ => BaseExpression_asc self kw
  end.

(** [self.desc] called with keyword arguments. *)
Definition desc (self : loc) (kw : kwargs) : M pyval :=
  o <- deref self ;;
  match o with
  | OOrderBy _ _ _ _ _ =>
      if has_kwargs kw then raise (TypeError "desc() got an unexpected keyword argument")
      else OrderBy_set_descending self true
  | OCondition _ | OList _ => no_attribute "desc"
  | _ => BaseExpression_desc self kw
  end.

(** [OrderBy.reverse_ordering]: the direction of the receiver is
    flipped in place. *)
Definition OrderBy_reverse_ordering (self : loc) : M loc :=
  o <- deref self ;;
  match o with
  | OOrderBy b expression descending nulls_first nulls_last =>
      store self (OOrderBy b expression (negb descending) nulls_first nulls_last) ;;
      ret self
  | _ => no_attribute "descending"
  end.

(** [self.reverse_ordering()]: [BaseExpression.reverse_ordering]
    returns the receiver as it is. *)
Definition reverse_ordering (self : loc) : M loc :=
  o <- deref self ;;
  match o with
  | OOrderBy _ _ _ _ _ => OrderBy_reverse_ordering self
  | OF _ _ | OCondition _ | OList _ => no_attribute "reverse_ordering"
  | _ => ret self
  end.

(** ** Negating an [Exists] *)

(** [Exists.__invert__]: a new node of the class of the receiver, over
    its queryset, with its [output_field] and its [extra]. *)
Definition __invert__ (limit : nat) (self : loc) : M loc :=
  o <- deref self ;;
  match o with
  | OSubquery (Exists negated) _ queryset extra =>
      f <- output_field limit self ;;
      Exists_init queryset (Some f) (negb negated) extra
  | _ => no_attribute "__invert__"
  end.

(** ** Flattening *)

Section flatten_methods.

(** [expr.flatten()] on whatever object [expr] is, run to its end. *)
Variable flatten : loc -> M (list loc).

(** [for expr in sources: if expr: yield from expr.flatten()] *)
Fixpoint flatten_sources (sources : list loc) : M (list loc) :=
  match sources with
  | [] => ret []
  | expr :: rest =>
      t <- truthy expr ;;
      xs <- (if t then flatten expr else ret []) ;;
      ys <- flatten_sources rest ;;
      ret (xs ++ ys)
  end.

Definition BaseExpression_flatten (self : loc) : M (list loc) :=
  sources <- get_source_expressions self ;;
  rest <- flatten_sources sources ;;
  ret (self :: rest).

Definition flatten_of (self : loc) : M (list loc) :=
  o <- deref self ;;
  match o with
  | OF _ _ | OCondition _ | OList _ => no_attribute "flatten"
  | _ => BaseExpression_flatten self
  end.

End flatten_methods.

(** [list(self.flatten())] under a recursion limit. *)
Fixpoint flatten (limit : nat) (self : loc) : M (list loc) :=
  match limit with
  | 0 => raise RecursionError
  | S limit' => flatten_of (flatten limit') self
  end.

(** * Vocabulary of the properties *)

(** [arg] offers [resolve_expression] in the store [h]. *)
Definition is_expression (h : heap) (arg : pyval) : bool :=
  match (has_resolve_expression arg h).1 with
  | Ok true => true
  | _ => false
  end.

(** What [_parse_expressions], run in [h] and ending in [h'], makes of
    the argument [arg]: the argument itself when it is an expression, a
    new [F] for a string and a new plain [Value] for anything else. *)
Definition parsed_as (h h' : heap) (arg : pyval) (l : loc) : Prop :=
  if is_expression h arg then arg = PObj l
  else
    length h <= l /\
    h' !! l = Some match arg with
                   | PStr _ => OF F arg
                   | _ => OValue Value (BaseExpression_init None) arg None
                   end.

(** Every reference among the arguments is a reference of the store. *)
Definition bound_in (h : heap) (args : list pyval) : Prop :=
  forall l, In (PObj l) args -> l < length h.

(** A [Q] object, not resolved yet. *)
Definition some_Q : Condition :=
  {| cond_resolvable := true; cond_resolve_error := None; cond_nonempty := true;
     cond_contains_aggregate := false; cond_group_by_cols := [];
     cond_sql := Ok ("price > %s", [PInt 0]) |}.

(** The references of a list of arguments that are all objects. *)
Definition objects_of (args : list pyval) : list loc :=
  omap (fun v => match v with PObj l => Some l | _ => None end) args.

(** A store with a [Q] object, a [Value(1)] and the [When] of the two. *)
Definition one_when : heap :=
  [ OCondition some_Q;
    OValue Value (BaseExpression_init None) (PInt 1) None;
    OWhen (BaseExpression_init None) 0 1 ].

(** What [get_source_expressions] reads back after
    [set_source_expressions exprs] on the object [o]: a wrapper and an
    ordering keep the first expression only. *)
Definition read_back (o : Obj) (exprs : list loc) : list loc :=
  match o with
  | OExpressionWrapper _ _ | OOrderBy _ _ _ _ _ => take 1 exprs
  | _ => exprs
  end.

(** The classes that keep [BaseExpression.set_source_expressions]. *)
Definition keeps_no_sources (o : Obj) : bool :=
  match o with
  | OValue _ _ _ _ | ORawSQL _ _ _ | OStar _ | ORandom _ | OCol _ _ _
  | OSubquery _ _ _ _ => true
  | _ => false
  end.

(** The list of sources of a function node or of a [Case] is an object
    of the store. *)
Definition list_bound (h : heap) (o : Obj) : Prop :=
  match o with
  | OFunc _ _ lst _ | OCase _ lst _ _ => exists items, h !! lst = Some (OList items)
  | _ => True
  end.

(** How the copy [o'] made in the store [h'] relates to the original
    [o] with attributes [b] in [h]: a shallow copy marked as copied,
    but for the list of a function node or of a [Case], which is a new
    list with the same items. *)
Definition copy_of (h h' : heap) (o : Obj) (b : Base) (o' : Obj) : Prop :=
  match o with
  | OFunc cls _ lst extra =>
      exists lst', o' = OFunc cls (set_copied true b) lst' extra /\
                   length h < lst' /\ h' !! lst' = h !! lst
  | OCase _ lst default extra =>
      exists lst', o' = OCase (set_copied true b) lst' default extra /\
                   length h < lst' /\ h' !! lst' = h !! lst
  | _ => o' = with_base o (set_copied true b)
  end.

(** [SUM(F('price'))] in a store of its own. *)
Definition sum_of_price : heap :=
  [ OF F (PStr "price");
    OList [0];
    OFunc (Aggregate "SUM") (BaseExpression_init None) 1 [] ].

(** [ExpressionWrapper(Sum('price'))] (the object 4), beside a
    [Value(1)] (the object 3). *)
Definition wrapped_sum : heap :=
  sum_of_price ++
  [ OValue Value (BaseExpression_init None) (PInt 1) None;
    OExpressionWrapper (BaseExpression_init None) 2 ].

(** The keyword of the direction, and the suffix for the nulls. *)
Definition ordering_keyword (descending : bool) : string :=
  if descending then "DESC" else "ASC".

Definition nulls_suffix (nulls_first nulls_last : bool) : string :=
  if nulls_last then " NULLS LAST" else if nulls_first then " NULLS FIRST" else "".

(** What the SQLite and MySQL variants put before the ordering to
    place the nulls, from the SQL text of the ordered expression. *)
Definition sqlite_nulls_prefix (nulls_first nulls_last : bool) (sql : string) : string :=
  if nulls_last then sql +:+ " IS NULL, "
  else if nulls_first then sql +:+ " IS NOT NULL, "
  else "".

Definition mysql_nulls_prefix (nulls_first nulls_last : bool) (sql : string) : string :=
  if nulls_last then "IF(ISNULL(" +:+ sql +:+ "),1,0), "
  else if nulls_first then "IF(ISNULL(" +:+ sql +:+ "),0,1), "
  else "".

(** [F('name').desc(nulls_last=True)] in a store of its own, over a
    column reference instead of the unresolved [F]. *)
Definition name_field : Field :=
  {| field_class := "CharField"; field_bases := ["Field"]; get_internal_type := "CharField";
     column := "name"; get_db_prep_value := fun v => v; get_db_prep_save := fun v => v;
     get_placeholder := None |}.

Definition name_desc_nulls_last : heap :=
  [ OCol (BaseExpression_init (Some name_field)) "T1" name_field;
    OOrderBy (BaseExpression_init None) 0 true false true ].

(** [Value(1).desc(nulls_last=True)] in a store of its own. *)
Definition value_desc_nulls_last : heap :=
  [ OValue Value (BaseExpression_init None) (PInt 1) None;
    OOrderBy (BaseExpression_init None) 0 true false true ].

(** How [Value.as_sql] renders a value that needs no placeholder of
    its field: the literal [NULL] for [None], a parameter otherwise. *)
Definition Value_literal (val : pyval) : fragment :=
  match val with
  | PNone => ("NULL", [])
  | _ => ("%s", [val])
  end.

(** [ExpressionWrapper(Value(5), output_field=IntegerField())] in a
    store of its own. *)
Definition wrapped_value_5 : heap :=
  value_5 ++ [OExpressionWrapper (BaseExpression_init (Some fields_IntegerField)) 0].

(** [Value('a', output_field=CharField())], not resolved, and resolved
    for a save. *)
Definition typed_value (for_save : option bool) : heap :=
  [OValue Value (BaseExpression_init (Some fields_CharField)) (PStr "a") for_save].

(** The name [Func.as_sql] calls the function by: the [function]
    argument, else the [function] entry of [extra], else the class
    attribute ([None] prints as [None]). *)
Definition function_used (function_ : option string) (extra : dict) (cls : FuncClass)
  : string :=
  match function_ with
  | Some f => f
  | None =>
      match dict_get extra "function" with
      | Some f => f
      | None => match function cls with Some f => f | None => "None" end
      end
  end.

(** [LOWER(Value('A'), Value('b'))]-like call in a store of its own: a
    function of two values. *)
Definition coalesce_call : heap :=
  [ OValue Value (BaseExpression_init None) (PInt 1) None;
    OValue Value (BaseExpression_init None) (PInt 2) None;
    OList [0; 1];
    OFunc (Aggregate "COALESCE") (BaseExpression_init None) 2 [] ].

(** A resolved condition (a where-clause), which compiles to a test
    with one parameter. *)
Definition price_positive : Condition :=
  {| cond_resolvable := false; cond_resolve_error := None; cond_nonempty := true;
     cond_contains_aggregate := false; cond_group_by_cols := [];
     cond_sql := Ok ("price > %s", [PInt 0]) |}.

(** [Case(When(price > 0, then=Value(1)), default=Value(2))], resolved,
    in a store of its own. *)
Definition case_of_price : heap :=
  [ OCondition price_positive;
    OValue Value (BaseExpression_init None) (PInt 1) None;
    OWhen (BaseExpression_init None) 0 1;
    OList [2];
    OValue Value (BaseExpression_init None) (PInt 2) None;
    OCase (BaseExpression_init None) 3 4 [] ].

(** The fragment [Subquery.as_sql] builds for an [Exists] over
    [queryset] with the keyword arguments [extra], before negation. *)
Definition Exists_fragment (connection : Connection) (queryset : QuerySet) (extra : dict)
  : res fragment :=
  match query_as_sql queryset with
  | Ok nested =>
      let template_params := dict_set extra "subquery" (fst nested) in
      let template :=
        str_or None (dict_get_default template_params "template" "EXISTS(%(subquery)s)") in
      match format_mapping template template_params with
      | Ok sql =>
          match format_positional (unification_cast_sql connection fields_BooleanField) [sql]
          with
          | Ok cast => Ok (cast, snd nested)
          | Raise e => Raise e
          end
      | Raise e => Raise e
      end
  | Raise e => Raise e
  end.

(** [sql] with [NOT] before it when [negated]. *)
Definition negate (negated : bool) (p : fragment) : fragment :=
  if negated then ("NOT " +:+ fst p, snd p) else p.

(** The dialect supports every expression. *)
Definition supports_all (connection : Connection) : Prop :=
  forall l h, check_expression_support connection l h = (Ok tt, h).

(** [h'] is [h] but for the cached [contains_aggregate] of some
    objects. *)
Definition cache_only (h h' : heap) : Prop :=
  length h' = length h /\
  forall l o, h !! l = Some o ->
    h' !! l = Some o \/
    exists b v, base_of o = Some b /\
                h' !! l = Some (with_base o (set_cached_contains_aggregate v b)).

(** An aggregate: [contains_aggregate] is a class attribute. *)
Definition aggregate_boundary (o : Obj) : bool :=
  match o with
  | OFunc cls _ _ _ => func_contains_aggregate cls
  | _ => false
  end.

(** [ExpressionWrapper(Exists(qs), output_field=BooleanField())]: the
    [Exists] of [exists_ordered] (the object 0) under a wrapper (the
    object 1). *)
Definition wrapped_exists : heap :=
  exists_ordered ++ [OExpressionWrapper (BaseExpression_init (Some fields_BooleanField)) 0].

(** [m] leaves the store as it is. *)
Definition reads_only {A} (m : M A) : Prop := forall h, (m h).2 = h.

(** * Proofs *)

(** ** Reasoning about methods *)

Lemma strip_strip o : strip (strip o) = strip o.
Proof. destruct o as [| | | | | | | | | | | |[|n] b qs e| | |]; reflexivity. Qed.

Lemma ext_refl h : ext h h.
Proof. split; [lia | auto]. Qed.

Lemma ext_trans h1 h2 h3 : ext h1 h2 -> ext h2 h3 -> ext h1 h3.
Proof.
  intros [L1 E1] [L2 E2]; split; [lia |].
  intros l o Hl. destruct (E1 l o Hl) as [H | H]; apply E2 in H.
  - exact H.
  - rewrite strip_strip in H. destruct H; auto.
Qed.

Lemma ext_alloc h0 h o : ext h0 h -> ext h0 (h ++ [o]).
Proof.
  intros [L E]; split; [rewrite length_app; simpl; lia |].
  intros l o' Hl. pose proof (lookup_lt_Some _ _ _ Hl).
  rewrite lookup_app_l by lia. auto.
Qed.

Lemma ext_store h0 h l o : ext h0 h -> length h0 <= l -> ext h0 (<[l := o]> h).
Proof.
  intros [L E] Hl; split; [rewrite length_insert; lia |].
  intros l' o' Hl'. pose proof (lookup_lt_Some _ _ _ Hl').
  rewrite list_lookup_insert_ne by lia. auto.
Qed.

Lemma ext_lookup h h' l o :
  ext h h' -> h !! l = Some o -> strip o = o -> h' !! l = Some o.
Proof. intros [_ E] Hl Hs. destruct (E l o Hl) as [H | H]; congruence. Qed.

Lemma wp_intro {A} (m : M A) h (Q : res A -> heap -> Prop) :
  (forall r h', m h = (r, h') -> Q r h') -> wp m h Q.
Proof. intros H. unfold wp. apply H. destruct (m h); reflexivity. Qed.

Lemma wp_elim {A} (m : M A) h (Q : res A -> heap -> Prop) r h' :
  wp m h Q -> m h = (r, h') -> Q r h'.
Proof. unfold wp. intros H E. rewrite E in H. exact H. Qed.

Lemma wp_mono {A} (m : M A) h (Q Q' : res A -> heap -> Prop) :
  wp m h Q -> (forall r h', Q r h' -> Q' r h') -> wp m h Q'.
Proof. unfold wp. auto. Qed.

Lemma wp_ret {A} (a : A) h (Q : res A -> heap -> Prop) : Q (Ok a) h -> wp (ret a) h Q.
Proof. auto. Qed.

Lemma wp_raise {A} e h (Q : res A -> heap -> Prop) : Q (Raise e) h -> wp (raise e) h Q.
Proof. auto. Qed.

Lemma wp_lift {A} (r : res A) h (Q : res A -> heap -> Prop) : Q r h -> wp (lift r) h Q.
Proof. auto. Qed.

Lemma wp_bind {A B} (m : M A) (f : A -> M B) h (Q : res B -> heap -> Prop) :
  wp m h (fun r h1 => match r with Ok a => wp (f a) h1 Q | Raise e => Q (Raise e) h1 end) ->
  wp (bind m f) h Q.
Proof. unfold wp, bind. destruct (m h) as [[a | e] h1]; auto. Qed.

Lemma wp_match_option {A B} (o : option A) (f : A -> M B) (g : M B) h
    (Q : res B -> heap -> Prop) :
  (forall a, o = Some a -> wp (f a) h Q) -> (o = None -> wp g h Q) ->
  wp (match o with Some a => f a | None => g end) h Q.
Proof. destruct o; auto. Qed.

Lemma wp_alloc o h (Q : res loc -> heap -> Prop) :
  Q (Ok (length h)) (h ++ [o]) -> wp (alloc o) h Q.
Proof. auto. Qed.

Lemma wp_store l o h (Q : res unit -> heap -> Prop) :
  Q (Ok tt) (<[l := o]> h) -> wp (store l o) h Q.
Proof. auto. Qed.

Lemma wp_deref l h (Q : res Obj -> heap -> Prop) :
  (forall o, h !! l = Some o -> Q (Ok o) h) ->
  (forall e, h !! l = None -> Q (Raise e) h) ->
  wp (deref l) h Q.
Proof. unfold wp, deref. destruct (h !! l); simpl; auto. Qed.

Lemma wp_deref_at l o h (Q : res Obj -> heap -> Prop) :
  h !! l = Some o -> Q (Ok o) h -> wp (deref l) h Q.
Proof. unfold wp, deref. intros ->. auto. Qed.

Lemma wp_set_base l f h o b (Q : res unit -> heap -> Prop) :
  h !! l = Some o -> base_of o = Some b ->
  Q (Ok tt) (<[l := with_base o (f b)]> h) -> wp (set_base l f) h Q.
Proof.
  intros Hl Hb HQ. unfold set_base. apply wp_bind, (wp_deref_at _ o); [done |].
  rewrite Hb. by apply wp_store.
Qed.

Lemma lookup_alloc (h : heap) o : (h ++ [o]) !! length h = Some o.
Proof. by apply list_lookup_middle. Qed.

Lemma lookup_store (h : heap) l o o' : h !! l = Some o' -> <[l := o]> h !! l = Some o.
Proof. intros H. apply list_lookup_insert_eq. by eapply lookup_lt_Some. Qed.

Lemma base_of_with_base o b b' : base_of o = Some b -> base_of (with_base o b') = Some b'.
Proof. destruct o; simpl; intros; simplify_eq; done. Qed.

Lemma wp_get_list_at l items h (Q : res (list loc) -> heap -> Prop) :
  h !! l = Some (OList items) -> Q (Ok items) h -> wp (get_list l) h Q.
Proof.
  intros Hl HQ. unfold get_list. apply wp_bind, (wp_deref_at _ _ _ _ Hl). by apply wp_ret.
Qed.

Lemma wp_BaseExpression_copy self h o b (Q : res loc -> heap -> Prop) :
  h !! self = Some o -> base_of o = Some b ->
  Q (Ok (length h)) (<[length h := with_base o (set_copied true b)]> (h ++ [o])) ->
  wp (BaseExpression_copy self) h Q.
Proof.
  intros Hl Hb HQ. unfold BaseExpression_copy.
  apply wp_bind, (wp_deref_at _ o); [done |]. rewrite Hb.
  apply wp_bind, wp_alloc.
  apply wp_bind, (wp_set_base _ _ _ o b); [apply lookup_alloc | done |].
  by apply wp_ret.
Qed.

Ltac len_tac :=
  repeat match goal with
         | H : context [length (<[_ := _]> _)] |- _ => rewrite length_insert in H
         | H : context [length (_ ++ _)] |- _ => rewrite length_app in H; simpl in H
         end;
  repeat first [rewrite length_insert | rewrite length_app]; simpl; lia.

(** Lookups in a store built by allocations and assignments. *)
Ltac lookup_tac :=
  first
    [ eassumption
    | apply lookup_alloc
    | eapply lookup_store; lookup_tac
    | rewrite list_lookup_insert_ne by len_tac; lookup_tac
    | rewrite lookup_app_l by len_tac; lookup_tac ].

Ltac ext_tac :=
  first
    [ assumption
    | apply ext_refl
    | apply ext_store; [ext_tac | len_tac]
    | apply ext_alloc; ext_tac
    | match goal with
      | X : ext ?a ?b |- ext _ ?b => eapply ext_trans; [| exact X]; ext_tac
      end ].

Lemma ext_length h h' : ext h h' -> length h <= length h'.
Proof. by intros [? _]. Qed.

(** Reads leave the store as it is. *)
Lemma truthy_pure l h : (truthy l h).2 = h.
Proof. unfold truthy, bind, deref, ret. by destruct (h !! l). Qed.

Lemma truthy_ext l h h' t :
  ext h h' -> truthy l h = (Ok t, h) -> truthy l h' = (Ok t, h').
Proof.
  intros [_ E]. unfold truthy, bind, deref, ret. cbv beta.
  destruct (h !! l) as [o |] eqn:Hl; [| done].
  destruct (E l o Hl) as [-> | ->]; simpl; intros ?; simplify_eq; [done |].
  by destruct o as [| | | | | | | | | | | |[|n] b qs e| | |].
Qed.

Lemma bind_ok {A B} (m : M A) (f : A -> M B) h b h' :
  bind m f h = (Ok b, h') -> exists a h1, m h = (Ok a, h1) /\ f a h1 = (Ok b, h').
Proof. unfold bind. destruct (m h) as [[a | e] h1]; [eauto | done]. Qed.

Lemma bind_run {A B} (m : M A) (f : A -> M B) h a h1 :
  m h = (Ok a, h1) -> bind m f h = f a h1.
Proof. unfold bind. by intros ->. Qed.

Lemma bind_raise {A B} (m : M A) (f : A -> M B) h e h1 :
  m h = (Raise e, h1) -> bind m f h = (Raise e, h1).
Proof. unfold bind. by intros ->. Qed.

Lemma traverse_cons {A B} (f : A -> M B) x xs :
  traverse f (x :: xs) = (y <- f x ;; ys <- traverse f xs ;; ret (y :: ys)).
Proof. reflexivity. Qed.

Lemma truthy_ok l h t h1 : truthy l h = (Ok t, h1) -> h1 = h.
Proof. intros E. pose proof (truthy_pure l h) as P. rewrite E in P. done. Qed.

Lemma lhs_if_true_truth w w' h h' x h1 :
  same_truth h h' -> child_lhs w = child_lhs w' ->
  lhs_if_true w h = (Ok x, h1) -> h1 = h /\ lhs_if_true w' h' = (Ok x, h').
Proof.
  intros X Hc. destruct w as [cs | lhs rhs], w' as [cs' | lhs' rhs']; try done; simpl.
  - unfold ret. intros ?. by simplify_eq.
  - simpl in Hc. simplify_eq. intros E. apply bind_ok in E as (t & h2 & Et & E).
    pose proof (truthy_ok _ _ _ _ Et); subst h2. unfold ret in E. simplify_eq.
    split; [done |]. by rewrite (bind_run _ _ _ _ _ (X _ _ Et)).
Qed.

Lemma Subquery_sources_children_truth children children' h h' xs h1 :
  same_truth h h' -> map child_lhs children = map child_lhs children' ->
  traverse lhs_if_true children h = (Ok xs, h1) ->
  h1 = h /\ traverse lhs_if_true children' h' = (Ok xs, h').
Proof.
  intros X. revert children' xs h1.
  induction children as [| w ws IH]; intros [| w' ws'] xs h1 Hm; try done.
  { simpl. unfold ret. intros ?. by simplify_eq. }
  simpl in Hm. injection Hm as Hw Hws. simpl. intros E.
  apply bind_ok in E as (x & h2 & Ex & E).
  apply (lhs_if_true_truth _ w' _ h') in Ex as [-> Ex]; [| done | done].
  apply bind_ok in E as (ys & h3 & Ey & E).
  apply (IH ws') in Ey as [-> Ey]; [| done]. unfold ret in E. simplify_eq.
  split; [done |]. by rewrite (bind_run _ _ _ _ _ Ex), (bind_run _ _ _ _ _ Ey).
Qed.

Lemma Subquery_get_source_expressions_truth qs qs' h h' xs :
  same_truth h h' -> where_shape (query_where qs) = where_shape (query_where qs') ->
  Subquery_get_source_expressions qs h = (Ok xs, h) ->
  Subquery_get_source_expressions qs' h' = (Ok xs, h').
Proof.
  intros X Hs. unfold Subquery_get_source_expressions.
  destruct (query_where qs) as [cs | ? ?], (query_where qs') as [cs' | ? ?]; try done.
  simpl in Hs. injection Hs as Hs. intros E.
  apply bind_ok in E as (ys & h1 & Ey & E).
  apply (Subquery_sources_children_truth _ cs' _ h') in Ey as [-> Ey]; [| done | done].
  unfold ret in E. simplify_eq. by rewrite (bind_run _ _ _ _ _ Ey).
Qed.

Lemma same_truth_ext h h' : ext h h' -> same_truth h h'.
Proof. intros X l t. by apply truthy_ext. Qed.

Lemma lhs_if_true_ext w w' h h' x h1 :
  ext h h' -> child_lhs w = child_lhs w' ->
  lhs_if_true w h = (Ok x, h1) -> h1 = h /\ lhs_if_true w' h' = (Ok x, h').
Proof. intros X. by apply lhs_if_true_truth, same_truth_ext. Qed.

Lemma Subquery_sources_children_ext children children' h h' xs h1 :
  ext h h' -> map child_lhs children = map child_lhs children' ->
  traverse lhs_if_true children h = (Ok xs, h1) ->
  h1 = h /\ traverse lhs_if_true children' h' = (Ok xs, h').
Proof. intros X. by apply Subquery_sources_children_truth, same_truth_ext. Qed.

Lemma Subquery_get_source_expressions_ext qs qs' h h' xs :
  ext h h' -> where_shape (query_where qs) = where_shape (query_where qs') ->
  Subquery_get_source_expressions qs h = (Ok xs, h) ->
  Subquery_get_source_expressions qs' h' = (Ok xs, h').
Proof. intros X. by apply Subquery_get_source_expressions_truth, same_truth_ext. Qed.

Lemma deref_run l o (h : heap) : h !! l = Some o -> deref l h = (Ok o, h).
Proof. unfold deref. by intros ->. Qed.

Lemma get_list_run l items (h : heap) :
  h !! l = Some (OList items) -> get_list l h = (Ok items, h).
Proof. intros Hl. unfold get_list. by rewrite (bind_run _ _ _ _ _ (deref_run _ _ _ Hl)). Qed.

Lemma get_source_expressions_run l o (h : heap) (k : M (list loc)) :
  h !! l = Some o ->
  k = match o with
      | OCombined _ _ lhs _ rhs => ret [lhs; rhs]
      | OFunc _ _ source_expressions _ => get_list source_expressions
      | ORef _ _ source => ret [source]
      | OExpressionWrapper _ expression => ret [expression]
      | OWhen _ condition result => ret [condition; result]
      | OCase _ cases default _ => items <- get_list cases ;; ret (items ++ [default])
      | OSubquery _ _ queryset _ => Subquery_get_source_expressions queryset
      | OOrderBy _ expression _ _ _ => ret [expression]
      | OValue _ _ _ _ | ORawSQL _ _ _ | OStar _ | ORandom _ | OCol _ _ _ => ret []
      | OF _ _ | OCondition _ | OList _ => no_attribute "get_source_expressions"
      end ->
  get_source_expressions l h = k h.
Proof. intros Hl ->. unfold get_source_expressions. by rewrite (bind_run _ _ _ _ _ (deref_run _ _ _ Hl)). Qed.

Lemma WhereNode_nested_ind (P : WhereNode -> Prop) :
  (forall lhs rhs, P (LookupNode lhs rhs)) ->
  (forall children, Forall P children -> P (WhereTree children)) ->
  forall w, P w.
Proof.
  intros Hl Ht. fix IH 1. intros [children | lhs rhs]; [apply Ht | apply Hl].
  induction children as [| w ws IHws]; constructor; [apply IH | exact IHws].
Qed.

Lemma ext_but_refl own h : ext_but own h h.
Proof. split; [lia | auto]. Qed.

Lemma ext_but_trans own h1 h2 h3 :
  ext_but own h1 h2 -> ext_but own h2 h3 -> ext_but own h1 h3.
Proof.
  intros [L1 E1] [L2 E2]; split; [lia |].
  intros l o Hown Hl. destruct (E1 l o Hown Hl) as [H | H]; apply E2 in H; try done.
  rewrite strip_strip in H. destruct H; auto.
Qed.

Lemma ext_but_of_ext own h h' : ext h h' -> ext_but own h h'.
Proof. intros [L E]. split; [done |]. intros l o _. apply E. Qed.

Lemma ext_but_store own h0 h l o :
  ext_but own h0 h -> l ∈ own -> ext_but own h0 (<[l := o]> h).
Proof.
  intros [L E] Hl; split; [by rewrite length_insert |].
  intros l' o' Hown Hl'. rewrite list_lookup_insert_ne; [by apply E |].
  intros ->. by apply Hown.
Qed.

Lemma ext_but_alloc own h0 h o : ext_but own h0 h -> ext_but own h0 (h ++ [o]).
Proof.
  intros X. eapply ext_but_trans; [exact X |]. apply ext_but_of_ext, ext_alloc, ext_refl.
Qed.

Lemma ext_app h0 h built : ext h0 h -> ext h0 (h ++ built).
Proof.
  intros [L E]; split; [rewrite length_app; lia |].
  intros l o Hl. pose proof (lookup_lt_Some _ _ _ Hl).
  rewrite lookup_app_l by lia. auto.
Qed.

(** What [h] holds is kept by a store that differs from an extension
    of [h] at new references only. *)
Lemma ext_of_ext_but own h h1 h2 :
  ext h h1 -> ext_but own h1 h2 -> Forall (fun l => length h <= l) own -> ext h h2.
Proof.
  intros [L1 E1] [L2 E2] Hown; split; [lia |].
  intros l o Hl. pose proof (lookup_lt_Some _ _ _ Hl) as Hlt.
  assert (l ∉ own) as Hl'.
  { intros Hin. rewrite Forall_forall in Hown. specialize (Hown _ Hin). lia. }
  destruct (E1 l o Hl) as [H | H]; apply (E2 _ _ Hl') in H; try done.
  rewrite strip_strip in H. destruct H; auto.
Qed.

Ltac own_tac :=
  first
    [ assumption
    | by repeat constructor
    | rewrite !elem_of_cons; first [left; len_tac | right; left; len_tac] ].

Ltac ext_but_tac :=
  first
    [ assumption
    | apply ext_but_refl
    | apply ext_but_store; [ext_but_tac | own_tac]
    | apply ext_but_alloc; ext_but_tac
    | match goal with
      | X : ext ?a ?b |- ext_but _ _ ?b =>
          eapply ext_but_trans; [| apply ext_but_of_ext; exact X]; ext_but_tac
      | X : ext_but ?own ?a ?b |- ext_but ?own _ ?b =>
          eapply ext_but_trans; [| exact X]; ext_but_tac
      end ].

Lemma own_plain h' c o :
  h' !! c = Some o ->
  match o with OFunc _ _ _ _ | OCase _ _ _ _ => False | _ => True end ->
  own h' c = [c].
Proof. intros Hc Ho. unfold own. rewrite Hc. by destruct o. Qed.

Lemma has_resolve_expression_pure v h : (has_resolve_expression v h).2 = h.
Proof.
  destruct v; try done. unfold has_resolve_expression, bind, deref, ret.
  by destruct (h !! l).
Qed.

Lemma wp_has_resolve_expression v hk (Q : res bool -> heap -> Prop) :
  (forall r, has_resolve_expression v hk = (r, hk) -> Q r hk) ->
  wp (has_resolve_expression v) hk Q.
Proof.
  intros HQ. apply wp_intro. intros r h' E.
  pose proof (has_resolve_expression_pure v hk) as P. rewrite E in P. simpl in P. subst h'.
  by apply HQ.
Qed.

Lemma same_truth_ext_but c h h' o o' :
  ext_but [c] h h' ->
  h !! c = Some o -> wraps_queryset o = true ->
  h' !! c = Some o' -> wraps_queryset o' = true ->
  same_truth h h'.
Proof.
  intros [_ E] Hc Ho Hc' Ho' l t. unfold truthy, bind, deref, ret. cbv beta.
  destruct (decide (l = c)) as [-> | Hne].
  - rewrite Hc, Hc'. destruct o, o'; try done. by intros [= <-].
  - destruct (h !! l) as [ol |] eqn:Hl; [| done].
    assert (l ∉ [c]) as Hl' by (rewrite elem_of_cons, elem_of_nil; tauto).
    destruct (E l ol Hl' Hl) as [-> | ->]; simpl; intros ?; simplify_eq; [done |].
    by destruct ol as [| | | | | | | | | | | |[|n] ? ? ?| | |].
Qed.

Lemma wp_Query_bump_prefix q nested hk (Q : res QuerySet -> heap -> Prop) :
  (forall nested' built,
     bump_prefix q nested hk = Ok (nested', built) -> Q (Ok nested') (hk ++ built)) ->
  (forall e, Q (Raise e) hk) ->
  wp (Query_bump_prefix q nested) hk Q.
Proof.
  intros Hok He. unfold wp, Query_bump_prefix.
  destruct (bump_prefix q nested hk) as [[nested' built] | e]; simpl; [by apply Hok | apply He].
Qed.

Section resolve_proofs.

Variable rec : loc -> option Query -> bool -> option (list string) -> bool -> bool -> M loc.
Variable query : option Query.
Variable allow_joins : bool.
Variable reuse : option (list string).
Variable summarize : bool.

Hypothesis rec_ext : forall x for_save h r h',
  rec x query allow_joins reuse summarize for_save h = (r, h') -> ext h h'.

Lemma wp_rec x for_save hk (Q : res loc -> heap -> Prop) :
  (forall e h', ext hk h' -> Q (Raise e) h') ->
  (forall y h', ext hk h' ->
                rec x query allow_joins reuse summarize for_save hk = (Ok y, h') ->
                Q (Ok y) h') ->
  wp (rec x query allow_joins reuse summarize for_save) hk Q.
Proof.
  intros He Hy. apply wp_intro. intros r h' E.
  pose proof (rec_ext _ _ _ _ _ E) as X. destruct r as [y | e]; [| by apply He].
  by apply Hy.
Qed.

Lemma wp_positional given x for_save hk (Q : res loc -> heap -> Prop) :
  (forall e h', ext hk h' -> Q (Raise e) h') ->
  (forall y h', ext hk h' ->
                rec x query allow_joins reuse summarize for_save hk = (Ok y, h') ->
                Q (Ok y) h') ->
  wp (resolve_expression_positional rec given x query allow_joins reuse summarize for_save)
    hk Q.
Proof.
  intros He Hy. unfold resolve_expression_positional.
  apply wp_bind, wp_deref; [| intros; apply He, ext_refl].
  intros o _.
  destruct o as [| | | | | | | | | | | | [|] | | |];
    first [by apply wp_rec | apply wp_raise, He, ext_refl].
Qed.

Lemma resolved_from_mono h h1 h2 own x y :
  resolved_from rec query allow_joins reuse summarize h h1 own x y ->
  ext_but own h1 h2 ->
  resolved_from rec query allow_joins reuse summarize h h2 own x y.
Proof.
  intros [H | (fs & ha & hb & Xa & R & Xb)] X; [by left |].
  right. exists fs, ha, hb. split; [done | split; [done |]]. by eapply ext_but_trans.
Qed.

Lemma Forall2_resolved_from_mono h h1 h2 own xs ys :
  Forall2 (resolved_from rec query allow_joins reuse summarize h h1 own) xs ys ->
  ext_but own h1 h2 ->
  Forall2 (resolved_from rec query allow_joins reuse summarize h h2 own) xs ys.
Proof.
  intros F X. eapply Forall2_impl; [exact F |]. intros x y R. by eapply resolved_from_mono.
Qed.

Lemma resolve_post_raise h self e h' :
  ext h h' -> resolve_post rec query allow_joins reuse summarize h self (Raise e) h'.
Proof. by split. Qed.

Ltac err := intros; apply resolve_post_raise; ext_tac.

(** The call on [x] in [hk] that returned [y] relates [x] to [y]. *)
Ltac resolved R :=
  right; eexists _, _, _; split; [| split; [exact R |]]; [ext_tac | ext_but_tac].

(** The result is a new node of the class of the receiver. *)
Ltac new_node_tac :=
  split; [done |]; eexists _, _; split; [lookup_tac |]; by repeat split.

Lemma CombinedExpression_resolve_ok self for_save h cls b lhs connector rhs :
  h !! self = Some (OCombined cls b lhs connector rhs) ->
  wp (CombinedExpression_resolve_expression rec self query allow_joins reuse summarize for_save)
    h (resolve_post rec query allow_joins reuse summarize h self).
Proof.
  intros Hself. unfold CombinedExpression_resolve_expression, copy.
  apply wp_bind, wp_bind, (wp_deref_at _ _ _ _ Hself).
  eapply wp_BaseExpression_copy; [done | done |]. simpl.
  apply wp_bind. eapply wp_set_base; [lookup_tac | done |]. simpl.
  apply wp_bind. eapply wp_deref_at; [lookup_tac |].
  apply wp_bind, wp_positional; [err |]. intros lhs' h1 X1 R1.
  pose proof (ext_lookup _ _ (length h) _ X1 ltac:(lookup_tac) eq_refl) as C1.
  apply wp_bind. eapply wp_deref_at; [lookup_tac |].
  apply wp_bind, wp_store.
  apply wp_bind, wp_positional; [err |]. intros rhs' h2 X2 R2.
  pose proof (ext_lookup _ _ (length h) _ X2 ltac:(lookup_tac) eq_refl) as C2.
  apply wp_bind. eapply wp_deref_at; [lookup_tac |].
  apply wp_bind, wp_store. apply wp_ret.
  split; [ext_tac |]. intros c o [= <-] Ho. simplify_eq.
  split; [intros _; new_node_tac |]. split; [| done].
  intros _ _ xs Hxs.
  rewrite (get_source_expressions_run _ _ _ _ Hself eq_refl) in Hxs.
  unfold ret in Hxs. simplify_eq.
  eexists. split.
  - erewrite get_source_expressions_run; [| lookup_tac | reflexivity]. reflexivity.
  - erewrite own_plain; [| lookup_tac | done].
    constructor; [resolved R1 |]. constructor; [resolved R2 | constructor].
Qed.

Lemma wp_traverse_rec h0 own xs :
  forall hk c oc (Q : res (list loc) -> heap -> Prop),
    ext h0 hk ->
    hk !! c = Some oc -> strip oc = oc ->
    (forall e h', ext hk h' -> Q (Raise e) h') ->
    (forall ys h', ext hk h' -> h' !! c = Some oc ->
                   Forall2 (resolved_from rec query allow_joins reuse summarize h0 h' own) xs ys ->
                   Q (Ok ys) h') ->
    wp (traverse (fun expr =>
          resolve_expression_positional rec 5 expr query allow_joins reuse summarize false)
          xs) hk Q.
Proof.
  induction xs as [| x xs IH]; intros hk c oc Q X0 Hc Hs He Hy; simpl.
  - apply wp_ret, Hy; [apply ext_refl | done | constructor].
  - apply wp_bind, wp_positional; [done |]. intros y h1 X1 R1.
    pose proof (ext_lookup _ _ _ _ X1 Hc Hs) as C1.
    apply wp_bind, (IH h1 c oc); [ext_tac | done | done | |].
    + intros e h2 X2. apply He. ext_tac.
    + intros ys h2 X2 C2 F2. apply wp_ret, Hy; [ext_tac | done |].
      constructor; [| done]. resolved R1.
Qed.

Lemma BaseExpression_resolve_ok self for_save h o :
  h !! self = Some o -> uses_base_resolve o = true ->
  wp (BaseExpression_resolve_expression rec self query allow_joins reuse summarize for_save)
    h (base_resolve_post rec query allow_joins reuse summarize h self o).
Proof.
  intros Hself Ho. unfold BaseExpression_resolve_expression, copy.
  apply wp_bind, wp_bind, (wp_deref_at _ _ _ _ Hself).
  destruct o; try done; simpl;
    (eapply wp_BaseExpression_copy; [done | done |]; simpl;
     apply wp_bind; (eapply wp_set_base; [lookup_tac | done |]); simpl;
     apply wp_bind; unfold get_source_expressions;
     apply wp_bind; (eapply wp_deref_at; [lookup_tac |]); apply wp_ret;
     apply wp_bind;
     (eapply (wp_traverse_rec h [length h]);
        [ext_tac | lookup_tac | done | intros; split; [err | done] |]);
     intros ys h1 X1 C1 F1; inversion F1; subst;
     try match goal with H : Forall2 _ [] _ |- _ => inversion H; subst end;
     unfold set_source_expressions;
     apply wp_bind, wp_bind; (eapply wp_deref_at; [lookup_tac |]);
     first [apply wp_store | apply wp_ret]; apply wp_ret;
     split; [split; [ext_tac |] | intros c [= <-]; split; [done | try done; lookup_tac]];
     intros c o' [= <-] Ho'; simplify_eq;
     (split; [intros _; new_node_tac |]); (split; [| done]);
     intros _ _ xs Hxs;
     rewrite (get_source_expressions_run _ _ _ _ Hself eq_refl) in Hxs;
     unfold ret in Hxs; simplify_eq;
     eexists; (split;
       [ erewrite get_source_expressions_run; [| lookup_tac | reflexivity]; reflexivity |]);
     (erewrite own_plain; [| lookup_tac | done]);
     repeat (constructor;
             [eapply resolved_from_mono; [eassumption | ext_but_tac] |]); constructor).
Qed.

Lemma Value_resolve_ok self for_save h cls b value fs :
  h !! self = Some (OValue cls b value fs) ->
  wp (Value_resolve_expression rec self query allow_joins reuse summarize for_save)
    h (resolve_post rec query allow_joins reuse summarize h self).
Proof.
  intros Hself. unfold Value_resolve_expression.
  apply wp_bind. eapply wp_mono; [by apply (BaseExpression_resolve_ok _ _ _ _ Hself) |].
  intros r h1 [[X1 P1] S1]. destruct r as [c | e]; [| by split].
  destruct (S1 c eq_refl) as (-> & C1).
  apply wp_bind. eapply wp_deref_at; [lookup_tac |].
  apply wp_bind, wp_store, wp_ret.
  split; [ext_tac |]. intros c o [= <-] Ho. simplify_eq.
  split; [intros _; new_node_tac |]. split; [| done].
  intros _ _ xs Hxs.
  rewrite (get_source_expressions_run _ _ _ _ Hself eq_refl) in Hxs.
  unfold ret in Hxs. simplify_eq.
  eexists; split.
  - erewrite get_source_expressions_run; [| lookup_tac | reflexivity]. reflexivity.
  - constructor.
Qed.

Lemma wp_get_list l hk (Q : res (list loc) -> heap -> Prop) :
  (forall items, hk !! l = Some (OList items) -> Q (Ok items) hk) ->
  (forall e, Q (Raise e) hk) ->
  wp (get_list l) hk Q.
Proof.
  intros Hi He. unfold get_list. apply wp_bind, wp_deref; [| intros; apply He].
  intros o Ho. destruct o; try apply wp_raise, He. by apply wp_ret, Hi.
Qed.

Lemma wp_list_setitem lst pos x items hk (Q : res unit -> heap -> Prop) :
  hk !! lst = Some (OList items) -> pos < length items ->
  Q (Ok tt) (<[lst := OList (<[pos := x]> items)]> hk) ->
  wp (list_setitem lst pos x) hk Q.
Proof.
  intros Hl Hp HQ. unfold list_setitem.
  apply wp_bind. eapply wp_get_list_at; [done |].
  destruct (Nat.ltb_spec pos (length items)); [| lia]. by apply wp_store.
Qed.

(** The loops of [Func.resolve_expression] and [Case.resolve_expression]:
    the list of the copy is resolved in place, element by element. *)
Lemma wp_setitem_loop h0 lst c oc for_save own rest :
  forall done hk,
    ext h0 hk -> length h0 <= lst -> lst <> c -> lst ∈ own ->
    hk !! c = Some oc -> strip oc = oc ->
    hk !! lst = Some (OList (done ++ rest)) ->
    wp (for_each (zip (seq (length done) (length rest)) rest) (fun '(pos, arg) =>
          arg' <- resolve_expression_positional rec 6 arg query allow_joins reuse summarize
                    for_save ;;
          list_setitem lst pos arg')) hk
      (fun r h' =>
         ext h0 h' /\ ext_but own hk h' /\
         (is_ok r = true ->
          h' !! c = Some oc /\
          exists rest', h' !! lst = Some (OList (done ++ rest')) /\
                        Forall2 (resolved_from rec query allow_joins reuse summarize h0 h' own)
                          rest rest')).
Proof.
  induction rest as [| arg rest IH]; intros done hk X Hl Hne Hown Hc Hs Hlst; simpl.
  - apply wp_ret. split; [done |]. split; [apply ext_but_refl |].
    intros _. split; [done |]. exists []. split; [done | constructor].
  - apply wp_bind, wp_bind, wp_positional;
      [intros; split; [ext_tac | split; [ext_but_tac | done]] |].
    intros y h1 X1 R1.
    pose proof (ext_lookup _ _ _ _ X1 Hc Hs) as C1.
    pose proof (ext_lookup _ _ _ _ X1 Hlst eq_refl) as L1.
    eapply wp_list_setitem; [done | rewrite length_app; simpl; lia |].
    replace (<[length done := y]> (done ++ arg :: rest)) with ((done ++ [y]) ++ rest).
    2: { rewrite insert_app_r_alt, Nat.sub_diag by lia. by rewrite <- app_assoc. }
    specialize (IH (done ++ [y]) (<[lst := OList ((done ++ [y]) ++ rest)]> h1)).
    rewrite length_app, Nat.add_1_r in IH.
    eapply wp_mono; [apply IH |].
    + ext_tac.
    + done.
    + done.
    + done.
    + by rewrite list_lookup_insert_ne.
    + done.
    + lookup_tac.
    + intros r h2 (X2 & B2 & P2). split; [done |]. split; [ext_but_tac |]. intros Hr.
      destruct (P2 Hr) as (C2 & rest' & L2 & F2). split; [done |].
      exists (y :: rest'). rewrite <- app_assoc in L2. split; [done |].
      constructor; [| done]. resolved R1.
Qed.

Lemma own_Func h' c cls b lst extra :
  h' !! c = Some (OFunc cls b lst extra) -> own h' c = [c; lst].
Proof. intros Hc. unfold own. by rewrite Hc. Qed.

Lemma own_Case h' c b lst default extra :
  h' !! c = Some (OCase b lst default extra) -> own h' c = [c; lst].
Proof. intros Hc. unfold own. by rewrite Hc. Qed.

Lemma Func_resolve_ok self for_save h cls b source_expressions extra :
  h !! self = Some (OFunc cls b source_expressions extra) ->
  wp (Func_resolve_expression rec self query allow_joins reuse summarize for_save)
    h (resolve_post rec query allow_joins reuse summarize h self).
Proof.
  intros Hself. unfold Func_resolve_expression, copy.
  pose proof (lookup_lt_Some _ _ _ Hself) as Hlt.
  apply wp_bind, wp_bind, (wp_deref_at _ _ _ _ Hself). unfold Func_copy.
  apply wp_bind. eapply wp_BaseExpression_copy; [done | done |]. simpl.
  apply wp_bind. eapply wp_deref_at; [lookup_tac |].
  apply wp_bind, wp_get_list; [| err]. intros items Hitems.
  apply wp_bind, wp_alloc.
  apply wp_bind. eapply wp_deref_at; [lookup_tac |].
  apply wp_bind, wp_store, wp_ret.
  apply wp_bind. eapply wp_set_base; [lookup_tac | done |]. simpl.
  apply wp_bind. eapply wp_deref_at; [lookup_tac |].
  apply wp_bind. eapply wp_get_list_at; [lookup_tac |].
  apply wp_bind. unfold enumerate.
  match goal with |- wp _ ?hk _ => set (h1 := hk) end.
  assert (length h1 = S (S (length h))) as Hlen by (subst h1; len_tac).
  eapply wp_mono.
  { eapply (wp_setitem_loop h _ (length h) _ _ [length h; S (length h)] items [] h1);
      [subst h1; ext_tac | len_tac | len_tac | own_tac | subst h1; lookup_tac | done
      | subst h1; simpl; lookup_tac]. }
  intros r h2 (X2 & B2 & P2). destruct r as [[] | e]; [| by split].
  destruct (P2 eq_refl) as (C2 & items' & L2 & F2). simpl in L2.
  apply wp_ret. split; [done |]. intros c o [= <-] Ho. simplify_eq.
  split; [intros _; new_node_tac |]. split; [| done].
  intros _ _ xs Hxs.
  rewrite (get_source_expressions_run _ _ _ _ Hself eq_refl) in Hxs.
  apply bind_ok in Hxs as (o & h3 & Ho & Hxs). unfold deref in Ho.
  destruct (h !! source_expressions) as [o' |] eqn:Hsrc; [| done]. simplify_eq.
  destruct o; try done. unfold ret in Hxs. simplify_eq.
  pose proof (lookup_lt_Some _ _ _ Hsrc).
  rewrite list_lookup_insert_ne, lookup_app_l in Hitems by lia. simplify_eq.
  exists items'. split.
  - erewrite get_source_expressions_run; [| exact C2 | reflexivity].
    by apply get_list_run.
  - erewrite own_Func; [| exact C2].
    rewrite length_insert, length_app. simpl. rewrite Nat.add_1_r. exact F2.
Qed.

Lemma When_resolve_ok self for_save h b condition result :
  h !! self = Some (OWhen b condition result) ->
  wp (When_resolve_expression rec self query allow_joins reuse summarize for_save)
    h (resolve_post rec query allow_joins reuse summarize h self).
Proof.
  intros Hself. unfold When_resolve_expression, copy.
  apply wp_bind, wp_bind, (wp_deref_at _ _ _ _ Hself).
  eapply wp_BaseExpression_copy; [done | done |]. simpl.
  apply wp_bind. eapply wp_set_base; [lookup_tac | done |]. simpl.
  apply wp_bind. eapply wp_deref_at; [lookup_tac |].
  match goal with |- wp _ ?hk _ => set (h0 := hk) end.
  assert (ext h h0) as X0 by (subst h0; ext_tac).
  assert (h0 !! length h =
          Some (OWhen (set_is_summary summarize (set_copied true b)) condition result))
    as C0 by (subst h0; lookup_tac).
  clearbody h0.
  apply wp_bind, wp_has_resolve_expression. intros [has | e] Hhas; [| err].
  assert (forall condition' h1,
    ext h h1 ->
    resolved_from rec query allow_joins reuse summarize h h1 [length h] condition condition' ->
    h1 !! length h =
      Some (OWhen (set_is_summary summarize (set_copied true b)) condition' result) ->
    wp (o <- deref (length h) ;;
        match o with
        | OWhen _ _ result0 =>
            result' <- resolve_expression_positional rec 6 result0 query allow_joins reuse
                         summarize for_save ;;
            o0 <- deref (length h) ;;
            match o0 with
            | OWhen b0 condition0 _ => store (length h) (OWhen b0 condition0 result') ;;
                                       ret (length h)
            | _ => no_attribute "result"
            end
        | _ => no_attribute "result"
        end) h1 (resolve_post rec query allow_joins reuse summarize h self)) as Hrest.
  { intros condition' h1 X1 R1 C1.
    apply wp_bind. eapply wp_deref_at; [lookup_tac |].
    apply wp_bind, wp_positional; [err |]. intros result' h2 X2 R2.
    pose proof (ext_lookup _ _ (length h) _ X2 ltac:(lookup_tac) eq_refl) as C2.
    apply wp_bind. eapply wp_deref_at; [lookup_tac |].
    apply wp_bind, wp_store, wp_ret.
    split; [ext_tac |]. intros c o [= <-] Ho. simplify_eq.
    split; [intros _; new_node_tac |]. split; [| done].
    intros _ _ xs Hxs.
    rewrite (get_source_expressions_run _ _ _ _ Hself eq_refl) in Hxs.
    unfold ret in Hxs. simplify_eq.
    eexists; split.
    - erewrite get_source_expressions_run; [| lookup_tac | reflexivity]. reflexivity.
    - erewrite own_plain; [| lookup_tac | done].
      constructor; [eapply resolved_from_mono; [exact R1 | ext_but_tac] |].
      constructor; [resolved R2 | constructor]. }
  apply wp_bind. destruct has.
  - apply wp_bind, wp_positional; [err |]. intros condition' h1 X1 R1.
    pose proof (ext_lookup _ _ (length h) _ X1 C0 eq_refl) as C1.
    apply wp_bind. eapply wp_deref_at; [lookup_tac |].
    apply wp_store. apply (Hrest condition'); [ext_tac | resolved R1 | lookup_tac].
  - apply wp_ret. apply (Hrest condition); [done | | done].
    left. split; [done |]. by exists h0.
Qed.

Lemma Case_resolve_ok self for_save h b cases default extra :
  h !! self = Some (OCase b cases default extra) ->
  wp (Case_resolve_expression rec self query allow_joins reuse summarize for_save)
    h (resolve_post rec query allow_joins reuse summarize h self).
Proof.
  intros Hself. unfold Case_resolve_expression, copy.
  pose proof (lookup_lt_Some _ _ _ Hself) as Hlt.
  apply wp_bind, wp_bind, (wp_deref_at _ _ _ _ Hself). unfold Case_copy.
  apply wp_bind. eapply wp_BaseExpression_copy; [done | done |]. simpl.
  apply wp_bind. eapply wp_deref_at; [lookup_tac |].
  apply wp_bind, wp_get_list; [| err]. intros items Hitems.
  apply wp_bind, wp_alloc.
  apply wp_bind, wp_store, wp_ret.
  apply wp_bind. eapply wp_set_base; [lookup_tac | done |]. simpl.
  apply wp_bind. eapply wp_deref_at; [lookup_tac |].
  apply wp_bind. eapply wp_get_list_at; [lookup_tac |].
  apply wp_bind. unfold enumerate.
  match goal with |- wp _ ?hk _ => set (h1 := hk) end.
  assert (length h1 = S (S (length h))) as Hlen by (subst h1; len_tac).
  assert (ext h h1) as X1 by (subst h1; ext_tac).
  eapply wp_mono.
  { eapply (wp_setitem_loop h _ (length h) _ _ [length h; S (length h)] items [] h1);
      [done | len_tac | len_tac | own_tac | subst h1; lookup_tac | done
      | subst h1; simpl; lookup_tac]. }
  clearbody h1.
  intros r h2 (X2 & B2 & P2). destruct r as [[] | e]; [| by split].
  destruct (P2 eq_refl) as (C2 & items' & L2 & F2). simpl in L2.
  apply wp_bind. eapply wp_deref_at; [lookup_tac |].
  apply wp_bind, wp_positional; [err |]. intros default' h3 X3 R3.
  pose proof (ext_lookup _ _ (length h) _ X3 ltac:(lookup_tac) eq_refl) as C3.
  pose proof (ext_lookup _ _ _ _ X3 L2 eq_refl) as L3.
  apply wp_bind. eapply wp_deref_at; [lookup_tac |].
  apply wp_bind, wp_store, wp_ret.
  split; [ext_tac |]. intros c o [= <-] Ho. simplify_eq.
  split; [intros _; new_node_tac |]. split; [| done].
  intros _ _ xs Hxs.
  rewrite (get_source_expressions_run _ _ _ _ Hself eq_refl) in Hxs.
  apply bind_ok in Hxs as (its & h4 & Ho & Hxs).
  apply bind_ok in Ho as (o & h5 & Ho & Hits). unfold deref in Ho.
  destruct (h !! cases) as [o' |] eqn:Hsrc; [| done]. simplify_eq.
  destruct o; try done. unfold ret in Hxs, Hits. simplify_eq.
  pose proof (lookup_lt_Some _ _ _ Hsrc).
  rewrite list_lookup_insert_ne, lookup_app_l in Hitems by lia. simplify_eq.
  exists (items' ++ [default']). split.
  - erewrite get_source_expressions_run; [| lookup_tac | reflexivity].
    erewrite bind_run; [reflexivity |].
    apply get_list_run. rewrite list_lookup_insert_ne by len_tac. exact L3.
  - erewrite own_Case; [| lookup_tac].
    rewrite length_insert, length_app. simpl. rewrite Nat.add_1_r.
    apply Forall2_app.
    + eapply Forall2_resolved_from_mono; [exact F2 | ext_but_tac].
    + constructor; [resolved R3 | constructor].
Qed.

Lemma sub_at_ext hk h' c cls b shape :
  ext hk h' -> sub_at hk c cls b shape -> sub_at h' c cls b shape.
Proof.
  intros [_ E] (qs & e & Hc & Hs). destruct (E _ _ Hc) as [H | H].
  - by exists qs, e.
  - destruct cls as [| n]; simpl in H; [by exists qs, e |].
    by exists (QuerySet_order_by qs), e.
Qed.

Section subquery_steps.

Variable h0 : heap.
Variable clone : loc.
Variable cls : SubqueryClass.
Variable b : Base.
Variable shape : option (list (option loc)).

Lemma wp_set_queryset_inv f hk (Q : res unit -> heap -> Prop) :
  sub_inv h0 clone cls b shape hk ->
  (forall qs, where_shape (query_where qs) = shape ->
              where_shape (query_where (f qs)) = shape) ->
  (forall r h', sub_inv h0 clone cls b shape h' -> Q r h') ->
  wp (set_queryset clone f) hk Q.
Proof.
  intros [X (qs & e & Hc & Hs)] Hf HQ. unfold set_queryset.
  apply wp_bind, (wp_deref_at _ _ _ _ Hc), wp_store, HQ. split; [ext_but_tac |].
  exists (f qs), e. split; [lookup_tac | by apply Hf].
Qed.

Lemma wp_get_queryset_inv hk (Q : res QuerySet -> heap -> Prop) :
  sub_inv h0 clone cls b shape hk ->
  (forall qs, where_shape (query_where qs) = shape -> Q (Ok qs) hk) ->
  wp (get_queryset clone) hk Q.
Proof.
  intros [X (qs & e & Hc & Hs)] HQ. unfold get_queryset.
  apply wp_bind, (wp_deref_at _ _ _ _ Hc), wp_ret. by apply HQ.
Qed.

Lemma sub_inv_ext hk h' :
  sub_inv h0 clone cls b shape hk -> ext hk h' -> sub_inv h0 clone cls b shape h'.
Proof. intros [X S] X'. split; [ext_but_tac | by eapply sub_at_ext]. Qed.

Lemma wp_Subquery_resolve child for_save hk :
  sub_inv h0 clone cls b shape hk ->
  wp (Subquery_resolve rec clone child query allow_joins reuse summarize for_save) hk
    (fun _ h' => sub_inv h0 clone cls b shape h').
Proof.
  intros I. unfold Subquery_resolve.
  apply wp_bind, wp_has_resolve_expression. intros [has | e] _; [| done].
  destruct child; try by apply wp_ret.
  destruct has; [| by apply wp_ret].
  apply wp_bind, wp_rec; [intros; by eapply sub_inv_ext |]. intros y h1 X1 _.
  pose proof (sub_inv_ext _ _ I X1) as I1.
  apply wp_bind, wp_deref; [| done]. intros o _. apply wp_bind.
  destruct o; try by apply wp_ret, wp_ret.
  apply wp_set_queryset_inv; [done | done |]. intros [[] | e] h2 I2; [by apply wp_ret | done].
Qed.

Lemma wp_Subquery_resolve_all w for_save :
  forall hk, sub_inv h0 clone cls b shape hk ->
  wp (Subquery_resolve_all rec clone w query allow_joins reuse summarize for_save) hk
    (fun r h' => sub_inv h0 clone cls b shape h' /\
                 forall w', r = Ok w' ->
                   child_lhs w' = child_lhs w /\ where_shape w' = where_shape w).
Proof.
  induction w as [lhs rhs | cs IH] using WhereNode_nested_ind; intros hk I; simpl.
  - apply wp_bind. eapply wp_mono; [by apply wp_Subquery_resolve |].
    intros [rhs' | e] h1 I1; [| done]. apply wp_ret. split; [done |].
    by intros w' [= <-].
  - apply wp_bind.
    assert (wp (traverse (fun _child =>
                  Subquery_resolve_all rec clone _child query allow_joins reuse
                    summarize for_save) cs) hk
              (fun r h' => sub_inv h0 clone cls b shape h' /\
                 forall cs', r = Ok cs' -> map child_lhs cs' = map child_lhs cs)) as Ht.
    { clear -IH I. revert hk I. induction IH as [| w ws Hw _ IHws]; intros hk I; simpl.
      - apply wp_ret. split; [done |]. by intros cs' [= <-].
      - apply wp_bind. eapply wp_mono; [by apply Hw |].
        intros [w' | e] h1 [I1 P1]; [| done].
        apply wp_bind. eapply wp_mono; [by apply IHws |].
        intros [ws' | e] h2 [I2 P2]; [| done].
        apply wp_ret. split; [done |]. intros cs' [= <-]. simpl.
        destruct (P1 w' eq_refl) as [-> _]. by rewrite (P2 ws' eq_refl). }
    eapply wp_mono; [exact Ht |].
    intros [cs' | e] h1 [I1 P1]; [| done]. apply wp_ret. split; [done |].
    intros w' [= <-]. simpl. by rewrite (P1 cs' eq_refl).
Qed.

Lemma wp_Subquery_annotations (annotations_ : list (string * pyval)) for_save :
  forall hk, sub_inv h0 clone cls b shape hk ->
  wp (traverse (fun '(key, value) =>
        sub <- is_Subquery value ;;
        if sub then
          value' <- Subquery_resolve rec clone value query allow_joins reuse
                      summarize for_save ;;
          ret (key, value')
        else ret (key, value)) annotations_) hk
    (fun _ h' => sub_inv h0 clone cls b shape h').
Proof.
  induction annotations_ as [| [key value] rest IH]; intros hk I; simpl.
  - by apply wp_ret.
  - apply wp_bind, wp_bind.
    assert (forall Q : res bool -> heap -> Prop,
               (forall r, Q r hk) -> wp (is_Subquery value) hk Q) as Hpure.
    { intros Q HQ. unfold wp.
      replace (is_Subquery value hk).2 with hk; [apply HQ |].
      destruct value; try done. unfold is_Subquery, bind, deref, ret.
      by destruct (hk !! l). }
    apply Hpure. intros [sub | e]; [| done].
    destruct sub.
    + apply wp_bind. eapply wp_mono; [by apply wp_Subquery_resolve |].
      intros [value' | e] h1 I1; [| done]. apply wp_ret.
      apply wp_bind. eapply wp_mono; [by apply IH |].
      intros [rest' | e] h2 I2; [by apply wp_ret | done].
    + apply wp_ret. apply wp_bind. eapply wp_mono; [by apply IH |].
      intros [rest' | e] h2 I2; [by apply wp_ret | done].
Qed.

End subquery_steps.

Lemma Subquery_resolve_ok self for_save h cls b qs e :
  h !! self = Some (OSubquery cls b qs e) ->
  wp (Subquery_resolve_expression rec self query allow_joins reuse summarize for_save)
    h (subquery_post query summarize h cls b qs).
Proof.
  intros Hself. unfold Subquery_resolve_expression, copy.
  apply wp_bind, wp_bind, (wp_deref_at _ _ _ _ Hself). unfold Subquery_copy.
  apply wp_bind. eapply wp_BaseExpression_copy; [done | done |]. simpl.
  apply wp_bind. unfold set_queryset at 1.
  apply wp_bind. eapply wp_deref_at; [lookup_tac |]. apply wp_store, wp_ret.
  apply wp_bind. eapply wp_set_base; [lookup_tac | done |]. simpl.
  set (b' := set_is_summary summarize (set_copied true b)).
  match goal with |- wp _ ?hk _ => set (h1 := hk) end.
  assert (ext h h1) as X1 by (subst h1; ext_tac).
  assert (h1 !! length h = Some (OSubquery cls b' (QuerySet_all qs) e)) as C1
    by (subst h1; lookup_tac).
  assert (length h < length h1) as L1 by (subst h1; len_tac).
  clearbody h1.
  apply wp_bind. apply wp_match_option;
    [intros q Hq | intros _; apply wp_raise; split; [ext_tac | intros ? [=]]].
  unfold get_queryset at 1.
  apply wp_bind, wp_bind, (wp_deref_at _ _ _ _ C1), wp_ret.
  apply wp_bind, wp_Query_bump_prefix; [| intros e'; split; [ext_tac | intros ? [=]]].
  intros nested' built Hbump. unfold set_queryset at 1.
  assert ((h1 ++ built) !! length h = Some (OSubquery cls b' (QuerySet_all qs) e)) as C2
    by (by rewrite lookup_app_l).
  apply wp_bind, (wp_deref_at _ _ _ _ C2), wp_store.
  set (shape := where_shape (query_where nested')).
  match goal with |- wp _ ?hk _ => set (hb := hk) end.
  assert (ext h hb) as Xb.
  { subst hb. apply ext_store; [| lia]. apply ext_app. exact X1. }
  assert (sub_inv hb (length h) cls b' shape hb) as Ib.
  { split; [apply ext_but_refl |]. exists nested', e. split; [subst hb; lookup_tac | done]. }
  assert (forall r' h', sub_inv hb (length h) cls b' shape h' ->
                        r' = Ok (length h) \/ (exists e', r' = Raise e') ->
                        subquery_post query summarize h cls b qs r' h') as Hfin.
  { intros r' h' [X (qs' & e' & Hc' & Hs')] Hr.
    split; [eapply ext_of_ext_but; [exact Xb | exact X | by repeat constructor] |].
    intros c ->. destruct Hr as [[= ->] | [? [=]]]. split; [done |].
    exists qs', e'. split; [done |]. intros Hkeep xs Hxs.
    assert (Subquery_get_source_expressions (QuerySet_all qs) h1 = (Ok xs, h1)) as Hxs1.
    { eapply Subquery_get_source_expressions_ext; [exact X1 | done | exact Hxs]. }
    destruct (Hkeep q _ _ _ _ _ Hq Hbump Hxs1) as (ys & Hys & Hlen).
    exists ys. split; [| done].
    eapply Subquery_get_source_expressions_truth; [| | exact Hys].
    - eapply (same_truth_ext_but (length h)); [| exact C2 | done | exact Hc' | done].
      eapply ext_but_trans; [| exact X]. subst hb. ext_but_tac.
    - by rewrite Hs'. }
  clearbody hb.
  apply wp_bind, (wp_get_queryset_inv hb _ cls b' shape); [done |]. intros qs1 Hs1.
  apply wp_bind. eapply wp_mono; [by apply (wp_Subquery_resolve_all hb _ cls b' shape) |].
  intros [w' | e'] h2 [I2 P2]; [| apply Hfin; eauto].
  destruct (P2 w' eq_refl) as [_ Hw'].
  apply wp_bind, (wp_set_queryset_inv hb _ cls b' shape); [done | |].
  { intros qs2 _. simpl. congruence. }
  intros [[] | e'] h3 I3; [| apply Hfin; eauto].
  apply wp_bind, (wp_get_queryset_inv hb _ cls b' shape); [done |]. intros qs3 Hs3.
  apply wp_bind. eapply wp_mono; [by apply (wp_Subquery_annotations hb _ cls b' shape) |].
  intros [ann' | e'] h4 I4; [| apply Hfin; eauto].
  apply wp_bind, (wp_set_queryset_inv hb _ cls b' shape); [done | |].
  { intros qs2 Hs2. done. }
  intros [[] | e'] h5 I5; [| apply Hfin; eauto].
  apply wp_ret, Hfin; eauto.
Qed.

Lemma ext_strip_store h self o : h !! self = Some o -> ext h (<[self := strip o]> h).
Proof.
  intros Hself. split; [by rewrite length_insert |]. intros l o' Hl.
  destruct (decide (l = self)) as [-> | Hne].
  - right. simplify_eq. lookup_tac.
  - left. by rewrite list_lookup_insert_ne.
Qed.

Lemma Exists_resolve_ok self for_save h negated b qs e :
  h !! self = Some (OSubquery (Exists negated) b qs e) ->
  wp (Exists_resolve_expression rec self query allow_joins reuse summarize for_save)
    h (subquery_post query summarize h (Exists negated) b qs).
Proof.
  intros Hself. unfold Exists_resolve_expression.
  apply wp_bind. unfold set_queryset.
  apply wp_bind, (wp_deref_at _ _ _ _ Hself), wp_store.
  pose proof (ext_strip_store _ _ _ Hself) as X1. simpl in X1.
  eapply wp_mono; [eapply Subquery_resolve_ok; lookup_tac |].
  intros r h' [X P]. split; [ext_tac |]. intros c ->.
  destruct (P c eq_refl) as (-> & qs' & e' & Hc & Hk).
  split; [by rewrite length_insert |]. exists qs', e'. split; [done |].
  intros Hkeep xs Hxs. apply (Hk Hkeep).
  eapply Subquery_get_source_expressions_ext; [exact X1 | done | exact Hxs].
Qed.

Lemma subquery_post_resolve_post h self cls b qs e r h' :
  h !! self = Some (OSubquery cls b qs e) ->
  subquery_post query summarize h cls b qs r h' ->
  resolve_post rec query allow_joins reuse summarize h self r h'.
Proof.
  intros Hself [X P]. split; [done |]. intros c o -> Ho. simplify_eq.
  destruct (P c eq_refl) as (-> & qs' & e' & Hc & Hk).
  split; [intros _; split; [done |]; eexists _, _; split; [exact Hc |]; by repeat split |].
  split; [done |]. split; [| done].
  intros _ Hkeep xs Hxs.
  rewrite (get_source_expressions_run _ _ _ _ Hself eq_refl) in Hxs.
  destruct (Hk Hkeep xs Hxs) as (ys & Hys & Hlen). exists ys. split; [| done].
  by erewrite get_source_expressions_run; [| exact Hc | reflexivity].
Qed.

(** A receiver that is not copied. *)
Lemma resolve_post_other h self o r h' :
  h !! self = Some o -> is_copying o = false ->
  (forall xs c, get_source_expressions self h = (Ok xs, h) -> r = Ok c ->
                c = self /\ h' = h) ->
  ext h h' -> resolve_post rec query allow_joins reuse summarize h self r h'.
Proof.
  intros Hself Ho Hsrc X. split; [done |]. intros c o' -> Ho'. simplify_eq.
  rewrite Ho. split; [done |]. split; [done |]. split.
  - by destruct o.
  - intros _ xs Hxs. by apply (Hsrc xs).
Qed.

Lemma no_sources h self o xs :
  h !! self = Some o ->
  match o with OF _ _ | OCondition _ | OList _ => True | _ => False end ->
  get_source_expressions self h = (Ok xs, h) -> False.
Proof.
  intros Hself Ho. rewrite (get_source_expressions_run _ _ _ _ Hself eq_refl).
  by destruct o.
Qed.

Lemma resolve_expression_of_ok self for_save h :
  wp (resolve_expression_of rec self query allow_joins reuse summarize for_save)
    h (resolve_post rec query allow_joins reuse summarize h self).
Proof.
  unfold resolve_expression_of. apply wp_bind, wp_deref; [| err].
  intros o Hself. destruct o.
  - (* F, ResolvedOuterRef, OuterRef *)
    assert (forall r h', ext h h' ->
              resolve_post rec query allow_joins reuse summarize h self r h') as Hany.
    { intros r h' X. eapply resolve_post_other; [done | done | | done].
      intros xs c' Hxs. by destruct (no_sources _ _ _ _ Hself I Hxs). }
    destruct cls.
    + unfold F_resolve_expression. destruct query; [| by apply wp_raise, Hany, ext_refl].
      destruct name; try by apply wp_raise, Hany, ext_refl.
      apply wp_bind, wp_lift.
      destruct (resolve_ref _ _ _ _ _) as [[l | alias target] | e];
        [apply wp_ret | apply wp_alloc | ]; apply Hany; ext_tac.
    + unfold F_resolve_expression. destruct query; [| by apply wp_raise, Hany, ext_refl].
      destruct name; try by apply wp_raise, Hany, ext_refl.
      apply wp_bind, wp_lift.
      destruct (resolve_ref _ _ _ _ _) as [[l | alias target] | e];
        [apply wp_ret | apply wp_alloc | ]; apply Hany; ext_tac.
    + unfold OuterRef_resolve_expression.
      destruct name; try (apply wp_alloc, Hany; ext_tac).
      apply wp_bind, wp_deref; [| intros; apply Hany; ext_tac].
      intros o _. destruct o as [[| |] ?| | | | | | | | | | | | | | |];
        first [apply wp_ret | apply wp_alloc]; apply Hany; ext_tac.
  - by eapply Value_resolve_ok.
  - by eapply CombinedExpression_resolve_ok.
  - by eapply Func_resolve_ok.
  - eapply wp_mono; [by apply (BaseExpression_resolve_ok _ _ _ _ Hself) | by intros ? ? []].
  - eapply wp_mono; [by apply (BaseExpression_resolve_ok _ _ _ _ Hself) | by intros ? ? []].
  - eapply wp_mono; [by apply (BaseExpression_resolve_ok _ _ _ _ Hself) | by intros ? ? []].
  - eapply wp_mono; [by apply (BaseExpression_resolve_ok _ _ _ _ Hself) | by intros ? ? []].
  - (* Ref *)
    apply wp_ret. eapply resolve_post_other; [done | done | | apply ext_refl].
    intros xs c _ [= <-]. done.
  - eapply wp_mono; [by apply (BaseExpression_resolve_ok _ _ _ _ Hself) | by intros ? ? []].
  - by eapply When_resolve_ok.
  - by eapply Case_resolve_ok.
  - destruct cls.
    + eapply wp_mono; [by eapply Subquery_resolve_ok |].
      intros r h' P. by eapply subquery_post_resolve_post.
    + eapply wp_mono; [by eapply Exists_resolve_ok |].
      intros r h' P. by eapply subquery_post_resolve_post.
  - eapply wp_mono; [by apply (BaseExpression_resolve_ok _ _ _ _ Hself) | by intros ? ? []].
  - (* Q *)
    assert (forall r h', ext h h' ->
              resolve_post rec query allow_joins reuse summarize h self r h') as Hany.
    { intros r h' X. eapply resolve_post_other; [done | done | | done].
      intros xs c' Hxs. by destruct (no_sources _ _ _ _ Hself I Hxs). }
    unfold Q_resolve_expression.
    destruct (cond_resolvable c); [| by apply wp_raise, Hany, ext_refl].
    destruct query; [| by apply wp_raise, Hany, ext_refl].
    destruct (cond_resolve_error c); [by apply wp_raise, Hany, ext_refl |].
    apply wp_alloc, Hany; ext_tac.
  - (* a list *)
    apply wp_raise. err.
Qed.

End resolve_proofs.

Lemma resolve_expression_ext limit :
  forall self query allow_joins reuse summarize for_save h r h',
    resolve_expression limit self query allow_joins reuse summarize for_save h = (r, h') ->
    ext h h'.
Proof.
  induction limit as [| limit IH]; intros self query allow_joins reuse summarize for_save h r h' E.
  - simpl in E. unfold raise in E. simplify_eq. apply ext_refl.
  - simpl in E.
    pose proof (resolve_expression_of_ok (resolve_expression limit) query allow_joins reuse
                  summarize) as H.
    eapply (wp_elim _ _ _ _ _ (H _ self for_save h)) in E. by destruct E.
    Unshelve. intros. by eapply IH.
Qed.

Lemma resolve_expression_spec limit self query allow_joins reuse summarize for_save h r h' :
  resolve_expression limit self query allow_joins reuse summarize for_save h = (r, h') ->
  ext h h' /\
  forall c o, r = Ok c -> h !! self = Some o ->
    (is_copying o = true -> new_node summarize h o c h') /\
    (is_copying o = true -> wraps_queryset o = false ->
     forall xs, get_source_expressions self h = (Ok xs, h) ->
       exists ys, get_source_expressions c h' = (Ok ys, h') /\
                  Forall2 (resolves_to query allow_joins reuse summarize h h' (own h' c))
                    xs ys) /\
    (wraps_queryset o = true -> bump_keeps_sources query -> sources_counted h self h' c) /\
    (is_copying o = false ->
     forall xs, get_source_expressions self h = (Ok xs, h) -> c = self /\ h' = h).
Proof.
  destruct limit as [| limit]; intros E.
  - simpl in E. unfold raise in E. simplify_eq. split; [apply ext_refl | done].
  - simpl in E.
    assert (forall x fs h r h',
      resolve_expression limit x query allow_joins reuse summarize fs h = (r, h') -> ext h h')
      as Hext by (intros; by eapply resolve_expression_ext).
    pose proof (resolve_expression_of_ok (resolve_expression limit) query allow_joins reuse
                  summarize Hext self for_save h) as H.
    eapply wp_elim in H; [| exact E]. destruct H as [X P]. split; [done |].
    intros c o Hc Ho. destruct (P c o Hc Ho) as (P1 & P2 & P3 & P4).
    split; [done |]. split; [| by split].
    intros Hcopy Hw xs Hxs. destruct (P2 Hcopy Hw xs Hxs) as (ys & Hys & F2).
    exists ys. split; [done |].
    eapply Forall2_impl; [exact F2 |].
    intros x y [Hl | (fs & h1 & h2 & Hr)]; [by left |]. right. eauto.
Qed.

(** ** Output fields *)

Lemma wp_get_base l o b h (Q : res Base -> heap -> Prop) :
  h !! l = Some o -> base_of o = Some b -> Q (Ok b) h -> wp (get_base l) h Q.
Proof.
  intros Hl Hb HQ. unfold get_base. apply wp_bind, (wp_deref_at _ _ _ _ Hl).
  rewrite Hb. by apply wp_ret.
Qed.

Lemma wp_run {A} (m : M A) h r h' : wp m h (fun r0 h0 => r0 = r /\ h0 = h') -> m h = (r, h').
Proof. unfold wp. destruct (m h) as [r0 h0]; simpl. by intros [-> ->]. Qed.

Lemma with_base_with_base o b b' : with_base (with_base o b) b' = with_base o b'.
Proof. by destruct o. Qed.

Lemma is_Exists_with_base o b : is_Exists (with_base o b) = is_Exists o.
Proof. by destruct o as [| | | | | | | | | | | |[|n] ? ? ?| | |]. Qed.

Lemma insert_insert_same (h : heap) l o o' : <[l := o]> (<[l := o']> h) = <[l := o]> h.
Proof. apply list_insert_insert_eq. Qed.

Lemma isinstance_refl f : isinstance f (field_class f) = true.
Proof. unfold isinstance. by rewrite String.eqb_refl. Qed.

Lemma unify_loop_Some f sources :
  unify_loop (Some f) sources =
  if forallb (fun s => isinstance f (field_class s)) (omap id sources) then Ok (Some f)
  else Raise (FieldError "Expression contains mixed types. You must set output_field").
Proof.
  induction sources as [| [s |] rest IH]; simpl; [done | | done].
  unfold unify_step. simpl. destruct (isinstance f (field_class s)); [exact IH | done].
Qed.

Lemma unify_loop_None sources : unify_loop None sources = unified_type sources.
Proof.
  induction sources as [| [s |] rest IH]; simpl; [done | | exact IH].
  unfold unify_step. simpl.
  rewrite isinstance_refl, unify_loop_Some. unfold unified_type. simpl.
  by rewrite isinstance_refl.
Qed.

Lemma set__output_field_id b : set__output_field (_output_field b) b = b.
Proof. by destruct b. Qed.

Lemma set__output_field_twice v v' b :
  set__output_field v (set__output_field v' b) = set__output_field v b.
Proof. done. Qed.

Section output_field_proofs.

Variable self : loc.

Lemma node_at_lookup h o b :
  node_at self h o b -> h !! self = Some (with_base o b) /\ base_of (with_base o b) = Some b.
Proof.
  intros [Hl Hb]. split; [done |]. destruct (base_of o) eqn:E; [| done].
  by eapply base_of_with_base.
Qed.

Lemma node_at_store h o b b' : node_at self h o b -> node_at self (<[self := with_base o b']> h) o b'.
Proof. intros [Hl Hb]. split; [lookup_tac | done]. Qed.

Lemma wp_get_base_at h o b (Q : res Base -> heap -> Prop) :
  node_at self h o b -> Q (Ok b) h -> wp (get_base self) h Q.
Proof. intros N HQ. destruct (node_at_lookup _ _ _ N). by eapply wp_get_base. Qed.

Lemma wp_set_base_at h o b f (Q : res unit -> heap -> Prop) :
  node_at self h o b -> Q (Ok tt) (<[self := with_base o (f b)]> h) -> wp (set_base self f) h Q.
Proof.
  intros N HQ. destruct (node_at_lookup _ _ _ N). eapply wp_set_base; [done | done |].
  by rewrite with_base_with_base.
Qed.

Lemma wp_check_source source h o b :
  node_at self h o b ->
  wp (check_source self source) h
    (fun r h' =>
       match unify_step (_output_field b) source with
       | Ok current => r = Ok tt /\ node_at self h' o (set__output_field current b)
       | Raise e => r = Raise e
       end).
Proof.
  intros N. unfold check_source, unify_step.
  apply wp_bind. eapply wp_get_base_at; [done |]. apply wp_bind.
  destruct (_output_field b) as [f |] eqn:Eb.
  - pose proof (set__output_field_id b) as Hid. rewrite Eb in Hid.
    apply wp_ret, wp_bind. eapply wp_get_base_at; [done |]. rewrite Eb.
    destruct source as [s |]; [| apply wp_ret; by rewrite Hid].
    simpl. destruct (isinstance f (field_class s)); simpl;
      [apply wp_ret; by rewrite Hid | by apply wp_raise].
  - pose proof (node_at_store _ _ _ (set__output_field source b) N) as N'.
    eapply wp_set_base_at; [done |]. apply wp_bind.
    eapply wp_get_base_at; [exact N' |]. simpl.
    destruct source as [s |]; [| by apply wp_ret].
    rewrite isinstance_refl. simpl. by apply wp_ret.
Qed.

(** The loop of [_resolve_output_field] computes [unify_loop]. *)
Lemma wp_unify_loop sources :
  forall h o b,
    node_at self h o b ->
    wp (for_each sources (check_source self)) h
      (fun r h' =>
         match unify_loop (_output_field b) sources with
         | Ok current => r = Ok tt /\ node_at self h' o (set__output_field current b)
         | Raise e => r = Raise e
         end).
Proof.
  induction sources as [| source rest IH]; intros h o b N; simpl.
  - apply wp_ret. split; [done |]. by rewrite set__output_field_id.
  - apply wp_bind. eapply wp_mono; [by apply wp_check_source |].
    intros r h1. simpl. destruct (unify_step (_output_field b) source) as [cur |]; [| by intros ->].
    intros [-> N1]. eapply wp_mono; [by apply IH |]. intros r h2. simpl.
    by destruct (unify_loop cur rest).
Qed.

Variable limit : nat.

Lemma with_base_id o b : base_of o = Some b -> with_base o b = o.
Proof. destruct o; simpl; intros; by simplify_eq. Qed.

Lemma node_at_intro h o b : h !! self = Some o -> base_of o = Some b -> node_at self h o b.
Proof. intros Hl Hb. split; [by rewrite (with_base_id _ _ Hb) | by rewrite Hb]. Qed.

Lemma wp_cached_property {A} (slot : Base -> option A) set_slot (method : loc -> M A)
    h o b (Q : res A -> heap -> Prop) :
  node_at self h o b ->
  match slot b with
  | Some v => Q (Ok v) h
  | None =>
      wp (method self) h (fun r h1 =>
        match r with
        | Ok v => wp (set_base self (set_slot (Some v))) h1
                    (fun r' h2 => match r' with Ok _ => Q (Ok v) h2 | Raise e => Q (Raise e) h2 end)
        | Raise e => Q (Raise e) h1
        end)
  end ->
  wp (cached_property slot set_slot method self) h Q.
Proof.
  intros N HQ. unfold cached_property. apply wp_bind. eapply wp_get_base_at; [done |].
  destruct (slot b); [by apply wp_ret |].
  apply wp_bind. eapply wp_mono; [exact HQ |]. intros [v | e] h1; [| done]. simpl.
  intros H. apply wp_bind. eapply wp_mono; [exact H |]. intros [[] | e] h2; [| done].
  simpl. intros. by apply wp_ret.
Qed.

Lemma or_none_cached h o b v :
  node_at self h o b -> cached__output_field_or_none b = Some v ->
  wp (_output_field_or_none (S limit) self) h (or_none_post self o b (Ok v)).
Proof.
  intros N Hc. simpl. eapply wp_cached_property; [done |]. rewrite Hc.
  split; [done |]. intros v' [= <-]. by exists b.
Qed.

Lemma or_none_declared h o b f :
  node_at self h o b -> cached__output_field_or_none b = None -> _output_field b = Some f ->
  wp (_output_field_or_none (S limit) self) h (or_none_post self o b (Ok (Some f))).
Proof.
  intros N Hc Hf. simpl. eapply wp_cached_property; [done |]. rewrite Hc.
  unfold BaseExpression__output_field_or_none.
  apply wp_bind. eapply wp_get_base_at; [done |]. rewrite Hf.
  apply wp_bind, wp_ret, wp_bind. eapply wp_get_base_at; [done |]. apply wp_ret.
  rewrite Hf. eapply wp_set_base_at; [done |].
  split; [done |]. intros v [= <-]. eexists. split; [by eapply node_at_store |]. done.
Qed.

Lemma or_none_inferred h o b fs h1 :
  node_at self h o b -> cached__output_field_or_none b = None -> _output_field b = None ->
  get_source_fields (_output_field_or_none limit) self h = (Ok fs, h1) ->
  node_at self h1 o b ->
  wp (_output_field_or_none (S limit) self) h (or_none_post self o b (unified_type fs)).
Proof.
  intros N Hc Hf Hfs N1. simpl. eapply wp_cached_property; [done |]. rewrite Hc.
  unfold BaseExpression__output_field_or_none.
  apply wp_bind. eapply wp_get_base_at; [done |]. rewrite Hf.
  apply wp_bind. unfold _resolve_output_field.
  apply wp_bind. eapply wp_get_base_at; [done |]. rewrite Hf.
  apply wp_bind, wp_intro. intros r h1' E. rewrite Hfs in E. simplify_eq.
  rewrite <- unify_loop_None.
  assert (forall cur h2, node_at self h2 o (set__output_field cur b) ->
            wp (b0 <- get_base self ;; ret (_output_field b0)) h2
              (fun r h3 =>
                 match r with
                 | Ok v =>
                     wp (set_base self (set_cached__output_field_or_none (Some v))) h3
                       (fun r' h4 =>
                          match r' with
                          | Ok _ => or_none_post self o b (Ok cur) (Ok v) h4
                          | Raise e => or_none_post self o b (Ok cur) (Raise e) h4
                          end)
                 | Raise e => or_none_post self o b (Ok cur) (Raise e) h3
                 end)) as Hend.
  { intros cur h2 N2. apply wp_bind. eapply wp_get_base_at; [done |]. apply wp_ret.
    eapply wp_set_base_at; [done |]. simpl. split; [done |]. intros v [= <-].
    eexists. split; [by eapply node_at_store |]. done. }
  destruct fs as [| source rest]; simpl length; cbn [Nat.eqb].
  - eapply wp_set_base_at; [done |]. apply Hend. by eapply node_at_store.
  - eapply wp_mono; [by apply wp_unify_loop |]. intros r h2. simpl. rewrite Hf.
    destruct (match unify_step None source with
              | Ok current' => unify_loop current' rest
              | Raise e => Raise e
              end) as [cur | e] eqn:Eu.
    + intros [-> N2]. by apply Hend.
    + intros ->. split; [done |]. intros v [=].
Qed.

Lemma output_field_unfold lim h o :
  h !! self = Some o -> is_Exists o = false ->
  output_field lim self h =
  cached_property cached_output_field set_cached_output_field
    (BaseExpression_output_field lim) self h.
Proof.
  intros Hl He. unfold output_field. rewrite (bind_run _ _ _ _ _ (deref_run _ _ _ Hl)).
  by destruct o as [| | | | | | | | | | | |[|n] ? ? ?| | |].
Qed.

Lemma output_field_from_or_none h o b R :
  node_at self h o b -> is_Exists o = false -> cached_output_field b = None ->
  wp (_output_field_or_none (S limit) self) h (or_none_post self o b R) ->
  wp (output_field (S limit) self) h (output_field_post self o R).
Proof.
  intros N He Hc Hor. destruct (node_at_lookup _ _ _ N) as [Hl _].
  unfold wp. rewrite (output_field_unfold _ _ _ Hl) by by rewrite is_Exists_with_base.
  change (wp (cached_property cached_output_field set_cached_output_field
                (BaseExpression_output_field (S limit)) self) h (output_field_post self o R)).
  eapply wp_cached_property; [done |]. rewrite Hc.
  unfold BaseExpression_output_field. apply wp_bind.
  eapply wp_mono; [exact Hor |]. intros r h1 [-> P1].
  destruct R as [[f |] | e].
  - destruct (P1 _ eq_refl) as (b1 & N1 & C1 & C1').
    apply wp_bind. eapply wp_mono; [by apply (or_none_cached _ _ _ _ N1 C1) |].
    intros r h2 [-> P2]. destruct (P2 _ eq_refl) as (b2 & N2 & C2 & C2').
    apply wp_ret. eapply wp_set_base_at; [done |].
    split; [done |]. split; [| done]. intros f' [= <-].
    eexists. split; [by eapply node_at_store |]. done.
  - destruct (P1 _ eq_refl) as (b1 & N1 & C1 & C1').
    apply wp_raise. split; [done |]. split; [done |]. intros _. exists b1. by rewrite C1', Hc.
  - split; [done |]. split; done.
Qed.

Lemma output_field_cached lim h o b f :
  node_at self h o b -> is_Exists o = false -> cached_output_field b = Some f ->
  output_field lim self h = (Ok f, h).
Proof.
  intros N He Hc. destruct (node_at_lookup _ _ _ N) as [Hl _].
  rewrite (output_field_unfold _ _ _ Hl) by by rewrite is_Exists_with_base.
  apply wp_run. eapply wp_cached_property; [done |]. by rewrite Hc.
Qed.

Lemma no_source_fields rec h o b :
  node_at self h o b -> get_source_expressions self h = (Ok [], h) ->
  get_source_fields rec self h = (Ok [], h).
Proof.
  intros N Hs. destruct (node_at_lookup _ _ _ N) as [Hl _].
  unfold get_source_fields. rewrite (bind_run _ _ _ _ _ (deref_run _ _ _ Hl)).
  pose proof Hs as Hs'.
  rewrite (get_source_expressions_run _ _ _ _ Hl eq_refl) in Hs'.
  destruct o; try (by unfold ret in Hs'); simpl;
    unfold BaseExpression_get_source_fields;
    by rewrite (bind_run _ _ _ _ _ Hs).
Qed.

End output_field_proofs.

Lemma wp_try_except {A} (m : M A) (handles : exn -> bool) (handler : M A) h
    (Q : res A -> heap -> Prop) :
  wp m h (fun r h1 =>
    match r with
    | Ok a => Q (Ok a) h1
    | Raise e => if handles e then wp handler h1 Q else Q (Raise e) h1
    end) ->
  wp (try_except m handles handler) h Q.
Proof. unfold wp, try_except. destruct (m h) as [[a | e] h1]; simpl; [done |]. by destruct (handles e). Qed.

Lemma wp_fst {A} (m : M A) h R : wp m h (fun r _ => r = R) -> (m h).1 = R.
Proof. done. Qed.

(** C3 (amended): for a node other than an [Exists] whose output type
    has not been requested yet, requesting the output type returns the
    declared output field when one was set; otherwise the type is
    inferred by unifying the output types of the sources, with a
    [FieldError] when a typed source does not admit the first type found;
    with zero sources nothing fails until the type is requested, and the
    request fails with a [FieldError].  For such a node without sources
    and without a declared type, setting [_output_field] before the first
    request makes the request return that field, and the answer is
    memoized; once a request has failed, the missing type is memoized as
    well, and a later request fails again even after [_output_field] was
    set. *)
Theorem output_field_inference limit self h o b :
  h !! self = Some o -> base_of o = Some b -> is_Exists o = false ->
  cached_output_field b = None -> cached__output_field_or_none b = None ->
  (forall f, _output_field b = Some f -> (output_field (S limit) self h).1 = Ok f) /\
  (forall fs h1,
     _output_field b = None ->
     get_source_fields (_output_field_or_none limit) self h = (Ok fs, h1) ->
     h1 !! self = Some o ->
     (output_field (S limit) self h).1 = requested (unified_type fs)) /\
  (_output_field b = None -> get_source_expressions self h = (Ok [], h) ->
   (_output_field_or_none (S limit) self h).1 = Ok None /\
   (output_field (S limit) self h).1 = Raise unknown_output_field /\
   (forall f,
      ((assign__output_field self (Some f) ;; output_field (S limit) self) h).1 = Ok f) /\
   (forall f g,
      ((assign__output_field self (Some f) ;; output_field (S limit) self ;;
        assign__output_field self g ;; output_field (S limit) self) h).1 = Ok f) /\
   (forall f,
      ((try_except (output_field (S limit) self ;; ret tt) is_FieldError (ret tt) ;;
        assign__output_field self (Some f) ;; output_field (S limit) self) h).1
      = Raise unknown_output_field)).
Proof.
  intros Hl Hb He Hc1 Hc2. pose proof (node_at_intro _ _ _ _ Hl Hb) as N.
  split; [| split].
  - intros f Hf. apply wp_fst.
    eapply wp_mono; [eapply output_field_from_or_none; [done | done | done |];
                     by apply or_none_declared |].
    by intros r h' [-> _].
  - intros fs h1 Hf Hfs Hl1. apply wp_fst.
    eapply wp_mono; [eapply output_field_from_or_none; [done | done | done |];
                     eapply or_none_inferred; [done | done | done | exact Hfs |];
                     by apply node_at_intro |].
    by intros r h' [-> _].
  - intros Hf Hs.
    pose proof (no_source_fields _ (_output_field_or_none limit) _ _ _ N Hs) as Hfs.
    pose proof (or_none_inferred _ limit _ _ _ _ _ N Hc2 Hf Hfs N) as Hor.
    split; [| split; [| split; [| split]]].
    + apply wp_fst. eapply wp_mono; [exact Hor |]. by intros r h' [-> _].
    + apply wp_fst.
      eapply wp_mono; [by eapply output_field_from_or_none |]. by intros r h' [-> _].
    + intros f. apply wp_fst. unfold assign__output_field.
      apply wp_bind. eapply wp_set_base_at; [done |].
      eapply wp_mono; [eapply output_field_from_or_none;
                         [by eapply node_at_store | done | done |];
                       eapply or_none_declared; [by eapply node_at_store | done | done] |].
      by intros r h' [-> _].
    + intros f g. apply wp_fst. unfold assign__output_field.
      apply wp_bind. eapply wp_set_base_at; [done |]. apply wp_bind.
      eapply wp_mono; [eapply output_field_from_or_none;
                         [by eapply node_at_store | done | done |];
                       eapply or_none_declared; [by eapply node_at_store | done | done] |].
      intros r h' (-> & P & _). destruct (P f eq_refl) as (b' & N' & C'). simpl.
      apply wp_bind. eapply wp_set_base_at; [done |].
      apply wp_intro. intros r h'' E.
      rewrite (output_field_cached _ _ _ o (set__output_field g b') f) in E;
        [by simplify_eq | by eapply node_at_store | done | done].
    + intros f. apply wp_fst. apply wp_bind, wp_try_except, wp_bind.
      eapply wp_mono; [by eapply output_field_from_or_none |].
      intros r h' (-> & _ & P). destruct (P eq_refl) as (b' & N' & C1 & C2). simpl.
      apply wp_ret. unfold assign__output_field.
      apply wp_bind. eapply wp_set_base_at; [done |].
      eapply wp_mono; [eapply output_field_from_or_none;
                         [by eapply node_at_store | done | done |];
                       eapply (or_none_cached _ _ _ _ _ None);
                         [by eapply node_at_store | done] |].
      by intros r h'' [-> _].
Qed.

Lemma output_field_inference_witness :
  value_5 !! 0 = Some (OValue Value (BaseExpression_init None) (PInt 5) None) /\
  ((assign__output_field 0 (Some fields_IntegerField) ;; output_field 1 0) value_5).1
  = Ok fields_IntegerField.
Proof.
  split; [reflexivity |].
  apply (output_field_inference 0 0 value_5 _ _ eq_refl eq_refl eq_refl eq_refl eq_refl).
  - reflexivity.
  - reflexivity.
Defined.

(** C3, as stated, fails: the output type of [Value(5)] is requested,
    which raises the configuration error; [_output_field] is then set
    and the type requested again, and the request still raises. *)
Lemma output_field_not_recovered_after_failure :
  (output_field 1 0 value_5).1 = Raise unknown_output_field /\
  ((assign__output_field 0 (Some fields_IntegerField) ;; output_field 1 0)
     (output_field 1 0 value_5).2).1 = Raise unknown_output_field.
Proof. split; reflexivity. Qed.

(** ** Rendering *)

Lemma bind_ret {A} (m : M A) h : bind m ret h = m h.
Proof. unfold bind, ret. by destruct (m h) as [[a | e] h1]. Qed.

Lemma quiet_ret {A} (a : A) : quiet (ret a).
Proof. by intros h. Qed.

Lemma quiet_raise {A} e : e <> EmptyResultSet -> quiet (@raise A e).
Proof. intros He h. simpl. congruence. Qed.

Lemma quiet_no_attribute {A} name : quiet (@no_attribute A name).
Proof. by apply quiet_raise. Qed.

Lemma quiet_bind {A B} (m : M A) (f : A -> M B) :
  quiet m -> (forall a, quiet (f a)) -> quiet (bind m f).
Proof.
  intros Hm Hf h. unfold bind. specialize (Hm h).
  destruct (m h) as [[a | e] h1]; [apply Hf |]. simpl in *. congruence.
Qed.

Lemma quiet_lift {A} (r : res A) : r <> Raise EmptyResultSet -> quiet (lift r).
Proof. by intros Hr h. Qed.

Lemma quiet_deref l : quiet (deref l).
Proof. intros h. unfold deref. by destruct (h !! l). Qed.

Lemma quiet_store l o : quiet (store l o).
Proof. by intros h. Qed.

Lemma quiet_alloc o : quiet (alloc o).
Proof. by intros h. Qed.

Lemma quiet_traverse {A B} (f : A -> M B) xs : (forall x, quiet (f x)) -> quiet (traverse f xs).
Proof.
  intros Hf. induction xs as [| x xs IH]; simpl; [apply quiet_ret |].
  apply quiet_bind; [done |]. intros y. apply quiet_bind; [done |]. intros ys. apply quiet_ret.
Qed.

Lemma quiet_for_each {A} (body : A -> M unit) xs :
  (forall x, quiet (body x)) -> quiet (for_each xs body).
Proof.
  intros Hf. induction xs as [| x xs IH]; simpl; [apply quiet_ret |].
  by apply quiet_bind.
Qed.

Ltac quiet_tac :=
  repeat first
    [ apply quiet_ret
    | apply quiet_no_attribute
    | apply quiet_raise; discriminate
    | apply quiet_deref
    | apply quiet_store
    | apply quiet_alloc
    | apply quiet_bind; [| intros ?]
    | apply quiet_traverse; intros ?
    | apply quiet_for_each; intros ?
    | assumption
    | match goal with
      | |- quiet (match ?x with _ => _ end) => destruct x
      | |- quiet (if ?x then _ else _) => destruct x
      end ].

Lemma quiet_get_base l : quiet (get_base l).
Proof. unfold get_base. quiet_tac. Qed.

Lemma quiet_set_base l f : quiet (set_base l f).
Proof. unfold set_base. quiet_tac. Qed.

Lemma quiet_get_list l : quiet (get_list l).
Proof. unfold get_list. quiet_tac. Qed.

Lemma quiet_truthy l : quiet (truthy l).
Proof. unfold truthy. quiet_tac. Qed.

Lemma quiet_get_source_expressions l : quiet (get_source_expressions l).
Proof.
  unfold get_source_expressions, Subquery_get_source_expressions.
  apply quiet_bind; [apply quiet_deref |]. intros o.
  destruct o; try (by quiet_tac); try apply quiet_get_list.
  destruct (query_where queryset); [| quiet_tac].
  apply quiet_bind; [| intros ?; apply quiet_ret].
  apply quiet_traverse. intros [|]; simpl; [quiet_tac |].
  apply quiet_bind; [apply quiet_truthy | intros ?; apply quiet_ret].
Qed.

Lemma quiet_cached_property {A} (slot : Base -> option A) set_slot method l :
  quiet (method l) -> quiet (cached_property slot set_slot method l).
Proof.
  intros Hm. unfold cached_property. apply quiet_bind; [apply quiet_get_base |].
  intros b. destruct (slot b); [apply quiet_ret |].
  apply quiet_bind; [done |]. intros v.
  apply quiet_bind; [apply quiet_set_base | intros ?; apply quiet_ret].
Qed.

Lemma quiet__output_field_or_none limit : forall l, quiet (_output_field_or_none limit l).
Proof.
  induction limit as [| limit IH]; intros l; simpl; [by apply quiet_raise |].
  apply quiet_cached_property. unfold BaseExpression__output_field_or_none.
  apply quiet_bind; [apply quiet_get_base |]. intros b.
  apply quiet_bind; [| intros ?; apply quiet_bind;
                                   [apply quiet_get_base | intros ?; apply quiet_ret]].
  destruct (_output_field b); [apply quiet_ret |].
  unfold _resolve_output_field.
  apply quiet_bind; [apply quiet_get_base |]. intros b'.
  destruct (_output_field b'); [apply quiet_ret |].
  apply quiet_bind.
  - unfold get_source_fields. apply quiet_bind; [apply quiet_deref |]. intros o.
    assert (quiet (BaseExpression_get_source_fields (_output_field_or_none limit) l)) as Hb.
    { unfold BaseExpression_get_source_fields.
      apply quiet_bind; [apply quiet_get_source_expressions |]. intros xs.
      by apply quiet_traverse. }
    destruct o; try exact Hb.
    unfold When_get_source_fields. apply quiet_bind; [apply IH | intros ?; apply quiet_ret].
  - intros fs. destruct (length fs =? 0); [apply quiet_set_base |].
    apply quiet_for_each. intros source. unfold check_source.
    apply quiet_bind; [apply quiet_get_base |]. intros b1.
    apply quiet_bind; [destruct (_output_field b1); [apply quiet_ret | apply quiet_set_base] |].
    intros _. apply quiet_bind; [apply quiet_get_base |]. intros b2.
    destruct source; [| apply quiet_ret]. simpl.
    destruct (negb _); [by apply quiet_raise | apply quiet_ret].
Qed.

Lemma quiet_output_field limit l : quiet (output_field limit l).
Proof.
  unfold output_field. apply quiet_bind; [apply quiet_deref |]. intros o.
  assert (quiet (cached_property cached_output_field set_cached_output_field
                   (BaseExpression_output_field limit) l)) as Hc.
  { apply quiet_cached_property. unfold BaseExpression_output_field.
    apply quiet_bind; [apply quiet__output_field_or_none |]. intros [f |]; [| by apply quiet_raise].
    apply quiet_bind; [apply quiet__output_field_or_none |].
    intros [f' |]; [apply quiet_ret | by apply quiet_raise]. }
  destruct o as [| | | | | | | | | | | |[|n] ? ? ?| | |]; try exact Hc. apply quiet_ret.
Qed.

Lemma format_positional_from_quiet template :
  forall after args, format_positional_from after template args <> Raise EmptyResultSet.
Proof.
  induction template as [| c rest IH]; intros after args; simpl.
  - destruct after; [done |]. by destruct args.
  - destruct after.
    + destruct (Ascii.eqb c "s").
      * destruct args as [| a args']; [done |].
        specialize (IH false args'). by destruct (format_positional_from false rest args').
      * destruct (Ascii.eqb c "%"); [| done].
        specialize (IH false args). by destruct (format_positional_from false rest args).
    + destruct (Ascii.eqb c "%"); [apply IH |].
      specialize (IH false args). by destruct (format_positional_from false rest args).
Qed.

Lemma format_mapping_from_quiet template data :
  forall st, format_mapping_from st template data <> Raise EmptyResultSet.
Proof.
  induction template as [| c rest IH]; intros st; simpl.
  - by destruct st.
  - destruct st.
    + destruct (Ascii.eqb c "%"); [apply IH |].
      specialize (IH FText). by destruct (format_mapping_from FText rest data).
    + destruct (Ascii.eqb c "%").
      * specialize (IH FText). by destruct (format_mapping_from FText rest data).
      * destruct (Ascii.eqb c "("); [apply IH | done].
    + destruct (Ascii.eqb c ")"); apply IH.
    + destruct (Ascii.eqb c "s"); [| done].
      destruct (dict_get data key); [| done].
      specialize (IH FText). by destruct (format_mapping_from FText rest data).
Qed.

Lemma quiet_percent template args : quiet (percent template args).
Proof. apply quiet_lift, format_positional_from_quiet. Qed.

Lemma quiet_percent_mapping template data : quiet (percent_mapping template data).
Proof. apply quiet_lift, format_mapping_from_quiet. Qed.

Section rendering_proofs.

Variable compiler : Compiler.
Variable connection : Connection.
Variable limit : nat.

Lemma compile_cases_skip case rest h h1 :
  compile compiler case h = (Raise EmptyResultSet, h1) ->
  compile_cases compiler (case :: rest) h = compile_cases compiler rest h1.
Proof.
  intros E. simpl. unfold bind at 1. unfold try_except. unfold bind at 1.
  rewrite E. simpl. unfold ret at 1. apply bind_ret.
Qed.

Lemma compile_cases_all_skipped items h h' :
  all_skipped compiler items h h' -> compile_cases compiler items h = (Ok ([], []), h').
Proof.
  induction 1 as [h | case rest h h1 h' E _ IH]; [done |].
  by rewrite (compile_cases_skip _ _ _ _ E).
Qed.

Lemma quiet_compile_cases items : quiet (compile_cases compiler items).
Proof.
  induction items as [| case rest IH]; simpl; [apply quiet_ret |].
  apply quiet_bind.
  - intros h. unfold try_except, bind.
    destruct (compile compiler case h) as [[f | e] h1]; simpl; [done |].
    destruct e; simpl; done.
  - intros p. apply quiet_bind; [done |]. intros q.
    destruct p as [[? ?] |]; apply quiet_ret.
Qed.

(** C4 (amended): rendering a [Case] the dialect supports.  Without
    cases the outcome is that of compiling the default expression alone;
    a case whose compilation signals an empty result set is skipped, the
    loop going on as if the case were not in the list; when every case
    is skipped the outcome is again that of compiling the default
    expression; the loop over the cases never lets the signal out, but
    the default expression is compiled outside the [try]:
    [Case.as_sql] raises [EmptyResultSet] exactly when the loop ends
    and compiling the default expression raises it. *)
Theorem Case_as_sql_skips_empty self template case_joiner extra_context
    h h0 b cases default extra items :
  check_expression_support connection self h = (Ok tt, h0) ->
  h0 !! self = Some (OCase b cases default extra) ->
  h0 !! cases = Some (OList items) ->
  (items = [] ->
   Case_as_sql compiler connection limit self template case_joiner extra_context h
   = compile compiler default h0) /\
  (forall case rest hk hk',
     compile compiler case hk = (Raise EmptyResultSet, hk') ->
     compile_cases compiler (case :: rest) hk = compile_cases compiler rest hk') /\
  (forall h1,
     all_skipped compiler items h0 h1 ->
     Case_as_sql compiler connection limit self template case_joiner extra_context h
     = compile compiler default h1) /\
  (forall hk, (compile_cases compiler items hk).1 <> Raise EmptyResultSet) /\
  ((Case_as_sql compiler connection limit self template case_joiner extra_context h).1
   = Raise EmptyResultSet <->
   exists parts h1,
     compile_cases compiler items h0 = (Ok parts, h1) /\
     (compile compiler default h1).1 = Raise EmptyResultSet).
Proof.
  intros Hcheck Hself Hcases.
  assert (Case_as_sql compiler connection limit self template case_joiner extra_context h
          = match items with
            | [] => compile compiler default
            | _ :: _ =>
                parts <- compile_cases compiler items ;;
                d <- compile compiler default ;;
                match parts.1 with
                | [] => ret d
                | case_parts =>
                    let template_params := dict_update extra extra_context in
                    let case_joiner := str_or case_joiner Case_case_joiner in
                    let template_params :=
                      dict_set template_params "cases" (join case_joiner case_parts) in
                    let template_params := dict_set template_params "default" d.1 in
                    let sql_params := parts.2 ++ d.2 in
                    let template :=
                      str_or template
                        (dict_get_default template_params "template" Case_template) in
                    sql <- percent_mapping template template_params ;;
                    declared <- _output_field_or_none limit self ;;
                    match declared with
                    | Some _ =>
                        f <- output_field limit self ;;
                        cast <- percent (unification_cast_sql connection f) [sql] ;;
                        ret (cast, sql_params)
                    | None => ret (sql, sql_params)
                    end
                end
            end h0) as Hunfold.
  { unfold Case_as_sql. rewrite (bind_run _ _ _ _ _ Hcheck).
    rewrite (bind_run _ _ _ _ _ (deref_run _ _ _ Hself)).
    rewrite (bind_run _ _ _ _ _ (get_list_run _ _ _ Hcases)). by destruct items. }
  split; [| split; [| split; [| split]]].
  - intros ->. exact Hunfold.
  - intros case rest hk hk'. apply compile_cases_skip.
  - intros h1 Hskip. rewrite Hunfold. destruct items as [| case rest].
    + by inversion Hskip.
    + rewrite (bind_run _ _ _ _ _ (compile_cases_all_skipped _ _ _ Hskip)). simpl.
      apply bind_ret.
  - apply quiet_compile_cases.
  - rewrite Hunfold. destruct items as [| case rest].
    { split.
      - intros Hd. by exists ([], []), h0.
      - intros (parts & h1 & Ec & Hd). unfold compile_cases, ret in Ec. by simplify_eq. }
    destruct (compile_cases compiler (case :: rest) h0) as [[parts | e] h1] eqn:Ec.
    2: { rewrite (bind_raise _ _ _ _ _ Ec). split.
         - intros He. simpl in He. pose proof (quiet_compile_cases (case :: rest) h0) as Hq.
           rewrite Ec in Hq. simpl in Hq. congruence.
         - by intros (parts & h2 & [=] & _). }
    rewrite (bind_run _ _ _ _ _ Ec).
    destruct (compile compiler default h1) as [[d | e] h2] eqn:Ed.
    2: { rewrite (bind_raise _ _ _ _ _ Ed). split.
         - intros He. exists parts, h1. split; [done |]. by rewrite Ed.
         - intros (parts' & h1' & [= <- <-] & Hd). by rewrite Ed in Hd. }
    rewrite (bind_run _ _ _ _ _ Ed). split.
    + intros He. exfalso. revert He.
      destruct parts.1; [done |].
      apply quiet_bind; [apply quiet_percent_mapping |]. intros sql.
      apply quiet_bind; [apply quiet__output_field_or_none |].
      intros [f |]; [| apply quiet_ret].
      apply quiet_bind; [apply quiet_output_field |]. intros f'.
      apply quiet_bind; [apply quiet_percent | intros ?; apply quiet_ret].
    + intros (parts' & h1' & [= <- <-] & Hd). by rewrite Ed in Hd.
Qed.

Lemma format_wrapper sql : format_positional "(%s)" [sql] = Ok ("(" +:+ sql +:+ ")").
Proof. unfold format_positional. simpl. done. Qed.

(** The generic combination: both sides are compiled, joined by
    [combine_expression] and put in parentheses. *)
Lemma CombinedExpression_as_sql_generic self h cls b lhs connector rhs
    lhs_output rhs_output h1 h2 l h3 r h4 :
  h !! self = Some (OCombined cls b lhs connector rhs) ->
  output_field_or_None limit lhs h = (Ok lhs_output, h1) ->
  output_field_or_None limit rhs h1 = (Ok rhs_output, h2) ->
  negb (has_native_duration_field connection) &&
    (is_duration lhs_output || is_duration rhs_output) = false ->
  is_temporal_subtraction connector lhs_output rhs_output = false ->
  compile compiler lhs h2 = (Ok l, h3) ->
  compile compiler rhs h3 = (Ok r, h4) ->
  CombinedExpression_as_sql compiler connection limit self h
  = (Ok ("(" +:+ combine_expression connection connector [l.1; r.1] +:+ ")", l.2 ++ r.2),
     h4).
Proof.
  intros Hself Hl Hr Hdur Htemp Hcl Hcr. unfold CombinedExpression_as_sql.
  rewrite (bind_run _ _ _ _ _ (deref_run _ _ _ Hself)).
  rewrite (bind_run _ _ _ _ _ Hl), (bind_run _ _ _ _ _ Hr), Hdur, Htemp.
  rewrite (bind_run _ _ _ _ _ Hcl), (bind_run _ _ _ _ _ Hcr).
  unfold percent. by rewrite format_wrapper.
Qed.

End rendering_proofs.

(** C5: [CombinedExpression(Value(3), '+', Value(4))] renders as
    ["(%s + %s)"] with the parameters [3, 4]; and whenever neither the
    duration nor the temporal subtraction case applies, the generic
    combination compiles both sides, joins them with the dialect's
    [combine_expression] and wraps the result in parentheses. *)
Theorem CombinedExpression_as_sql_renders :
  ((c <- three_plus_four ;; SQLCompiler 3 base_connection id ByCompile c) []).1
    = Ok ("(%s + %s)", [PInt 3; PInt 4]) /\
  forall compiler connection limit self h cls b lhs connector rhs
         lhs_output rhs_output h1 h2 l h3 r h4,
    h !! self = Some (OCombined cls b lhs connector rhs) ->
    output_field_or_None limit lhs h = (Ok lhs_output, h1) ->
    output_field_or_None limit rhs h1 = (Ok rhs_output, h2) ->
    negb (has_native_duration_field connection) &&
      (is_duration lhs_output || is_duration rhs_output) = false ->
    is_temporal_subtraction connector lhs_output rhs_output = false ->
    compile compiler lhs h2 = (Ok l, h3) ->
    compile compiler rhs h3 = (Ok r, h4) ->
    CombinedExpression_as_sql compiler connection limit self h
    = (Ok ("(" +:+ combine_expression connection connector [l.1; r.1] +:+ ")", l.2 ++ r.2),
       h4).
Proof.
  split; [vm_compute; reflexivity |].
  intros. by eapply CombinedExpression_as_sql_generic.
Qed.

Lemma CombinedExpression_as_sql_renders_witness :
  (three_plus_four []).2 !! 2 =
    Some (OCombined CombinedExpression (BaseExpression_init None) 0 "+" 1) /\
  (CombinedExpression_as_sql base_compiler base_connection 2 2 (three_plus_four []).2).1
  = Ok ("(%s + %s)", [PInt 3; PInt 4]).
Proof.
  split; [reflexivity |].
  erewrite (proj2 CombinedExpression_as_sql_renders base_compiler base_connection 2 2
              (three_plus_four []).2 CombinedExpression (BaseExpression_init None) 0 "+" 1
              None None _ _ ("%s", [PInt 3]) _ ("%s", [PInt 4]) _);
    reflexivity.
Defined.

(** C7: rendering a resolved outer reference fails, whatever the
    compiler and the connection: [as_sql] raises the [ValueError], and so
    does compiling the node. *)
Theorem ResolvedOuterRef_as_sql_raises compiler connection limit as_sql self name h :
  h !! self = Some (OF ResolvedOuterRef name) ->
  as_sql_of compiler connection limit as_sql self h
    = (Raise (ValueError
         "This queryset contains a reference to an outer query and may only be used in a subquery."),
       h) /\
  compile_of compiler connection limit as_sql self h
    = (Raise (ValueError
         "This queryset contains a reference to an outer query and may only be used in a subquery."),
       h) /\
  forall limit' quote how,
    SQLCompiler (S limit') connection quote how self h
    = (Raise (ValueError
         "This queryset contains a reference to an outer query and may only be used in a subquery."),
       h).
Proof.
  intros Hself.
  assert (forall cmp lim rec, as_sql_of cmp connection lim rec self h
          = (Raise (ValueError
               "This queryset contains a reference to an outer query and may only be used in a subquery."),
             h)) as Has.
  { intros. unfold as_sql_of. by rewrite (bind_run _ _ _ _ _ (deref_run _ _ _ Hself)). }
  assert (forall cmp lim rec, compile_of cmp connection lim rec self h
          = (Raise (ValueError
               "This queryset contains a reference to an outer query and may only be used in a subquery."),
             h)) as Hco.
  { intros. unfold compile_of. rewrite (bind_run _ _ _ _ _ (deref_run _ _ _ Hself)). apply Has. }
  split; [apply Has | split; [apply Hco |]].
  intros limit' quote [|]; simpl; [apply Hco | apply Has].
Qed.

Lemma ResolvedOuterRef_as_sql_raises_witness :
  [OF ResolvedOuterRef (PStr "id")] !! 0 = Some (OF ResolvedOuterRef (PStr "id")) /\
  SQLCompiler 1 base_connection id ByCompile 0 [OF ResolvedOuterRef (PStr "id")]
  = (Raise (ValueError
       "This queryset contains a reference to an outer query and may only be used in a subquery."),
     [OF ResolvedOuterRef (PStr "id")]).
Proof.
  split; [reflexivity |].
  apply (ResolvedOuterRef_as_sql_raises base_compiler base_connection 0
           (fun _ => raise RecursionError) 0 (PStr "id")).
  reflexivity.
Defined.

Lemma Case_as_sql_skips_empty_witness :
  check_expression_support base_connection 5 case_of_never = (Ok tt, case_of_never) /\
  all_skipped base_compiler [2] case_of_never case_of_never /\
  Case_as_sql base_compiler base_connection 2 5 None None [] case_of_never
  = (Ok ("%s", [PInt 1]), case_of_never).
Proof.
  assert (all_skipped base_compiler [2] case_of_never case_of_never) as Hskip.
  { econstructor; [reflexivity | constructor]. }
  split; [reflexivity | split; [exact Hskip |]].
  rewrite (proj1 (proj2 (proj2 (Case_as_sql_skips_empty base_compiler base_connection 2 5
             None None [] case_of_never case_of_never (BaseExpression_init None) 3 4 [] [2]
             eq_refl eq_refl eq_refl))) case_of_never Hskip).
  reflexivity.
Defined.

(** C4, as stated, fails: the default expression is compiled outside
    the [try] of [Case.as_sql], so that the signal of a default that
    matches no row leaves [Case.as_sql], without cases and after the
    single case was skipped alike. *)
Lemma Case_as_sql_default_signals_empty :
  compile base_compiler 0 case_default_empty = (Raise EmptyResultSet, case_default_empty) /\
  Case_as_sql base_compiler base_connection 2 2 None None [] case_default_empty
  = (Raise EmptyResultSet, case_default_empty) /\
  compile base_compiler 5 case_default_empty = (Raise EmptyResultSet, case_default_empty) /\
  Case_as_sql base_compiler base_connection 2 7 None None [] case_default_empty
  = (Raise EmptyResultSet, case_default_empty).
Proof. repeat split; reflexivity. Qed.

(** ** Outer references *)

(** C6 (amended): resolving an [OuterRef] returns the reference it
    wraps when its name is itself an [OuterRef], and a new
    [ResolvedOuterRef] of the same name otherwise; resolving a
    [ResolvedOuterRef] is the resolution of an [F]: the query binds the
    name, to an object it holds already or to a new column. *)
Theorem outer_reference_resolution limit q allow_joins reuse summarize for_save self h :
  (forall name,
     h !! self = Some (OF ResolvedOuterRef (PStr name)) ->
     resolve_expression (S limit) self (Some q) allow_joins reuse summarize for_save h
     = match resolve_ref q name allow_joins reuse summarize with
       | Ok (RefExisting l) => (Ok l, h)
       | Ok (RefCol alias target) =>
           (Ok (length h), h ++ [OCol (BaseExpression_init (Some target)) alias target])
       | Raise e => (Raise e, h)
       end) /\
  (forall inner name,
     h !! self = Some (OF OuterRef (PObj inner)) ->
     h !! inner = Some (OF OuterRef name) ->
     resolve_expression (S limit) self (Some q) allow_joins reuse summarize for_save h
     = (Ok inner, h)) /\
  (forall name,
     h !! self = Some (OF OuterRef (PStr name)) ->
     resolve_expression (S limit) self (Some q) allow_joins reuse summarize for_save h
     = (Ok (length h), h ++ [OF ResolvedOuterRef (PStr name)])).
Proof.
  split; [| split].
  - intros name Hself. simpl. unfold resolve_expression_of.
    rewrite (bind_run _ _ _ _ _ (deref_run _ _ _ Hself)). unfold F_resolve_expression.
    unfold bind, lift. by destruct (resolve_ref q name allow_joins reuse summarize) as [[|] |].
  - intros inner name Hself Hinner. simpl. unfold resolve_expression_of.
    rewrite (bind_run _ _ _ _ _ (deref_run _ _ _ Hself)). unfold OuterRef_resolve_expression.
    by rewrite (bind_run _ _ _ _ _ (deref_run _ _ _ Hinner)).
  - intros name Hself. simpl. unfold resolve_expression_of.
    by rewrite (bind_run _ _ _ _ _ (deref_run _ _ _ Hself)).
Qed.

Lemma outer_reference_resolution_witness :
  [OF OuterRef (PStr "id")] !! 0 = Some (OF OuterRef (PStr "id")) /\
  resolve_expression 1 0 (Some query_with_id) true None false false [OF OuterRef (PStr "id")]
  = (Ok 1, [OF OuterRef (PStr "id"); OF ResolvedOuterRef (PStr "id")]).
Proof.
  split; [reflexivity |].
  apply (outer_reference_resolution 0 query_with_id true None false false 0
           [OF OuterRef (PStr "id")]).
  reflexivity.
Defined.

(** C6, as stated, fails: resolving the resolved outer reference to
    [id] against a query does not return the reference itself (the
    object 0) but a column of the query, a new object. *)
Lemma ResolvedOuterRef_resolves_to_column :
  resolve_expression 1 0 (Some query_with_id) true None false false
    [OF ResolvedOuterRef (PStr "id")]
  = (Ok 1, [OF ResolvedOuterRef (PStr "id");
            OCol (BaseExpression_init (Some fields_IntegerField)) "T1" fields_IntegerField]).
Proof. reflexivity. Qed.

(** ** Grouping *)

(** C8 (amended): [get_group_by_cols] of a node of a class that keeps
    the method of [BaseExpression] returns the one-element list of the
    node itself when [contains_aggregate] is false and the concatenation
    of the columns of the source expressions when it is true; a [Value]
    always returns the empty list; [RawSQL], [Col] and [Ref] always
    return the node itself; [When] and [OrderBy] always return the
    concatenation of the columns of their source expressions. *)
Theorem get_group_by_cols_by_class limit self h o :
  h !! self = Some o ->
  match o with
  | OValue _ _ _ _ => get_group_by_cols (S limit) self h = (Ok [], h)
  | ORawSQL _ _ _ | OCol _ _ _ | ORef _ _ _ =>
      get_group_by_cols (S limit) self h = (Ok [self], h)
  | OWhen _ _ _ | OOrderBy _ _ _ _ _ =>
      get_group_by_cols (S limit) self h
      = (sources <- get_source_expressions self ;;
         cols <- traverse (get_group_by_cols limit) sources ;;
         ret (concat cols)) h
  | OCombined _ _ _ _ _ | OFunc _ _ _ _ | OStar _ | ORandom _
  | OExpressionWrapper _ _ | OCase _ _ _ _ | OSubquery _ _ _ _ =>
      forall a h1,
        contains_aggregate limit self h = (Ok a, h1) ->
        get_group_by_cols (S limit) self h
        = if a
          then (sources <- get_source_expressions self ;;
                cols <- traverse (get_group_by_cols limit) sources ;;
                ret (concat cols)) h1
          else (Ok [self], h1)
  | OF _ _ | OCondition _ | OList _ => True
  end.
Proof.
  intros Hself. simpl. unfold get_group_by_cols_of.
  rewrite (bind_run _ _ _ _ _ (deref_run _ _ _ Hself)).
  destruct o; try done;
    intros a h1 Ha; unfold BaseExpression_get_group_by_cols;
    rewrite (bind_run _ _ _ _ _ Ha); by destruct a.
Qed.

Lemma get_group_by_cols_by_class_witness :
  (three_plus_four []).2 !! 2
    = Some (OCombined CombinedExpression (BaseExpression_init None) 0 "+" 1) /\
  (get_group_by_cols 3 2 (three_plus_four []).2).1 = Ok [2].
Proof.
  split; [reflexivity |].
  erewrite (get_group_by_cols_by_class 2 2 (three_plus_four []).2 _ eq_refl false);
    reflexivity.
Defined.

(** C8, as stated, fails: [Value(5)] contains no aggregate, and its
    group-by columns are the empty list, not the list of the node
    itself. *)
Lemma Value_get_group_by_cols_empty :
  (contains_aggregate 1 0 value_5).1 = Ok false /\
  (get_group_by_cols 1 0 value_5).1 = Ok [] /\
  (get_group_by_cols 1 0 value_5).1 <> Ok [0].
Proof. split; [reflexivity | split; [reflexivity | discriminate]]. Qed.

(** ** Construction *)

(** C9: constructing an [OrderBy] with both [nulls_first] and
    [nulls_last] fails with the [ValueError], whatever is ordered; with at
    most one of the two flags, constructing it around an expression
    succeeds and yields a new [OrderBy] with the flags as given. *)
Theorem OrderBy_init_nulls expression descending h :
  OrderBy_init expression descending true true h
    = (Raise (ValueError "nulls_first and nulls_last are mutually exclusive"), h) /\
  forall e nulls_first nulls_last,
    expression = PObj e ->
    has_resolve_expression expression h = (Ok true, h) ->
    nulls_first && nulls_last = false ->
    OrderBy_init expression descending nulls_first nulls_last h
    = (Ok (length h),
       h ++ [OOrderBy (BaseExpression_init None) e descending nulls_first nulls_last]).
Proof.
  split; [done |]. intros e nulls_first nulls_last -> Hhas Hflags.
  unfold OrderBy_init. rewrite Hflags. by rewrite (bind_run _ _ _ _ _ Hhas).
Qed.

Lemma OrderBy_init_nulls_witness :
  has_resolve_expression (PObj 0) [OF F (PStr "name")] = (Ok true, [OF F (PStr "name")]) /\
  OrderBy_init (PObj 0) true false true [OF F (PStr "name")]
  = (Ok 1, [OF F (PStr "name"); OOrderBy (BaseExpression_init None) 0 true false true]).
Proof.
  split; [reflexivity |].
  apply (proj2 (OrderBy_init_nulls (PObj 0) true [OF F (PStr "name")]) 0 false true);
    reflexivity.
Defined.

(** C10: the output type of an [Exists] is a [BooleanField], whatever
    its queryset, its declared output field and the state of the store;
    in particular right after construction, where a [Subquery] of the
    same single-column queryset answers the field of that column. *)
Theorem Exists_output_field_is_boolean :
  (forall limit self h negated b queryset extra,
     h !! self = Some (OSubquery (Exists negated) b queryset extra) ->
     output_field limit self h = (Ok fields_BooleanField, h)) /\
  (forall limit queryset declared negated extra h,
     ((e <- Exists_init queryset declared negated extra ;; output_field limit e) h).1
     = Ok fields_BooleanField) /\
  (forall limit queryset col extra h,
     query_select queryset = [col] ->
     ((s <- Subquery_init queryset None extra ;; output_field (S limit) s) h).1 = Ok col).
Proof.
  assert (forall limit self h negated b queryset extra,
     h !! self = Some (OSubquery (Exists negated) b queryset extra) ->
     output_field limit self h = (Ok fields_BooleanField, h)) as Hex.
  { intros * Hself. unfold output_field.
    by rewrite (bind_run _ _ _ _ _ (deref_run _ _ _ Hself)). }
  split; [exact Hex | split].
  - intros. unfold Exists_init, Subquery_init_as, bind, alloc.
    erewrite Hex; [done | apply lookup_alloc].
  - intros limit queryset col extra h Hsel.
    unfold Subquery_init, Subquery_init_as. rewrite Hsel.
    apply wp_fst, wp_bind, wp_alloc.
    eapply wp_mono.
    { eapply (output_field_from_or_none (length h) limit _
                (OSubquery Subquery (BaseExpression_init (Some col)) queryset extra)
                (BaseExpression_init (Some col)));
        [split; [apply lookup_alloc | done] | done | done |].
      apply or_none_declared; [split; [apply lookup_alloc | done] | done | done]. }
    by intros r h' [-> _].
Qed.

(** ** Resolution: frame and sources *)

(** C1 (amended): [resolve_expression] only adds objects to the store
    and changes no field of an object that is not an [Exists], the
    receiver included (an [Exists] keeps every field but, at most, the
    ordering of its queryset); for a receiver of a class that resolves
    through [copy] the result is a new node: an object of the class of
    the receiver at a reference the store did not hold, marked as a
    copy, with [is_summary] set from [summarize]; a [Ref] resolves to
    itself and leaves the store as it is. *)
Theorem resolve_expression_frame limit self query allow_joins reuse summarize for_save h r h' :
  resolve_expression limit self query allow_joins reuse summarize for_save h = (r, h') ->
  length h <= length h' /\
  (forall l o, h !! l = Some o -> is_Exists o = false -> h' !! l = Some o) /\
  (forall l o, h !! l = Some o -> h' !! l = Some o \/ h' !! l = Some (strip o)) /\
  (forall c o, r = Ok c -> h !! self = Some o ->
     (is_copying o = true -> h !! c = None /\ new_node summarize h o c h') /\
     (forall b refs source, o = ORef b refs source -> c = self /\ h' = h)).
Proof.
  intros E. destruct (resolve_expression_spec _ _ _ _ _ _ _ _ _ _ E) as [Hext Hok].
  split; [apply Hext | split; [| split; [apply Hext |]]].
  - intros l o Hl Hex. apply (ext_lookup h); [done | done |].
    by destruct o as [| | | | | | | | | | | | [|] | | |].
  - intros c o -> Hself. split.
    + intros Hcopy. destruct (Hok c o eq_refl Hself) as [Hnew _].
      specialize (Hnew Hcopy). split; [| done].
      destruct Hnew as [-> _]. apply lookup_ge_None_2. lia.
    + intros b refs source ->. destruct limit as [| limit]; [done |].
      simpl in E. unfold resolve_expression_of in E.
      rewrite (bind_run _ _ _ _ _ (deref_run _ _ _ Hself)) in E.
      unfold Ref_resolve_expression, ret in E. by simplify_eq.
Qed.

Lemma resolve_expression_frame_witness :
  resolved_three_plus_four.1 = Ok 3 /\
  three_plus_four_store !! 2
    = Some (OCombined CombinedExpression (BaseExpression_init None) 0 "+" 1) /\
  resolved_three_plus_four.2 !! 2
    = Some (OCombined CombinedExpression (BaseExpression_init None) 0 "+" 1) /\
  three_plus_four_store !! 3 = None /\
  new_node false three_plus_four_store
    (OCombined CombinedExpression (BaseExpression_init None) 0 "+" 1) 3
    resolved_three_plus_four.2.
Proof.
  pose proof (resolve_expression_frame 2 2 (Some query_with_id) true None false false
                three_plus_four_store resolved_three_plus_four.1 resolved_three_plus_four.2
                eq_refl) as (_ & Hframe & _ & Hnew).
  split; [reflexivity | split; [reflexivity | split]].
  - apply Hframe; reflexivity.
  - apply (Hnew 3 _ eq_refl eq_refl). reflexivity.
Defined.

(** C1, as stated, fails: resolving the reference in [ref_to_value_5]
    (the object 1) returns the object 1, the receiver itself and not a
    new node. *)
Lemma Ref_resolve_expression_returns_self :
  ref_to_value_5 !! 1 = Some (ORef (BaseExpression_init None) "total" 0) /\
  resolve_expression 1 1 None true None false false ref_to_value_5 = (Ok 1, ref_to_value_5).
Proof. split; reflexivity. Qed.

(** Resolving an [Exists] re-binds the [queryset] attribute of the
    receiver to a queryset without ordering. *)
Lemma Exists_resolve_expression_clears_ordering :
  (q <- get_queryset 0 ;; ret (query_order_by q)) exists_ordered = (Ok ["name"], exists_ordered) /\
  ((q <- get_queryset 0 ;; ret (query_order_by q))
     (resolve_expression 1 0 (Some query_with_id) true None false false exists_ordered).2).1
  = Ok [].
Proof. split; reflexivity. Qed.






Lemma Exists_output_field_is_boolean_witness :
  exists_ordered !! 0
    = Some (OSubquery (Exists false) (BaseExpression_init (Some fields_IntegerField))
              ordered_queryset []) /\
  output_field 1 0 exists_ordered = (Ok fields_BooleanField, exists_ordered) /\
  ((s <- Subquery_init ordered_queryset None [] ;; output_field 1 s) []).1
  = Ok fields_IntegerField.
Proof.
  split; [reflexivity | split].
  - apply (proj1 Exists_output_field_is_boolean 1 0 exists_ordered false
             (BaseExpression_init (Some fields_IntegerField)) ordered_queryset []).
    reflexivity.
  - apply (proj2 (proj2 Exists_output_field_is_boolean) 0 ordered_queryset
             fields_IntegerField [] []).
    reflexivity.
Defined.

(** * Properties of the other methods *)

(** ** Combining *)

Lemma has_resolve_expression_plain other h :
  (forall l, other <> PObj l) -> has_resolve_expression other h = (Ok false, h).
Proof. intros H. destruct other; try done. by destruct (H l). Qed.

(** X1: [_combine] builds one new [CombinedExpression] without output
    field, the receiver on the left and the operand on the right, or the
    other way round when [reversed]; an operand that is an expression
    is used as it is, a [timedelta] is wrapped in a new [DurationValue]
    with a [DurationField], any other operand in a new plain [Value];
    the store is otherwise unchanged.  The operators [&] and [|] build
    nothing and raise [NotImplementedError]. *)
Theorem _combine_builds self other connector reversed h :
  (forall l, other = PObj l -> has_resolve_expression other h = (Ok true, h) ->
     _combine self other connector reversed h
     = (Ok (length h),
        h ++ [OCombined CombinedExpression (BaseExpression_init None)
                (if reversed then l else self) connector (if reversed then self else l)])) /\
  (forall d, other = PTimedelta d ->
     _combine self other connector reversed h
     = (Ok (S (length h)),
        h ++ [OValue DurationValue (BaseExpression_init (Some fields_DurationField)) other None;
              OCombined CombinedExpression (BaseExpression_init None)
                (if reversed then length h else self) connector
                (if reversed then self else length h)])) /\
  (has_resolve_expression other h = (Ok false, h) -> (forall d, other <> PTimedelta d) ->
     _combine self other connector reversed h
     = (Ok (S (length h)),
        h ++ [OValue Value (BaseExpression_init None) other None;
              OCombined CombinedExpression (BaseExpression_init None)
                (if reversed then length h else self) connector
                (if reversed then self else length h)])) /\
  (forall r, In r [__and__ self other h; __or__ self other h;
                   __rand__ self other h; __ror__ self other h] ->
     r = (Raise (NotImplementedError
                   "Use .bitand() and .bitor() for bitwise logical operations."), h)).
Proof.
  assert (forall o : Obj, length (h ++ [o]) = S (length h)) as Hlen.
  { intros. rewrite length_app. simpl. lia. }
  split; [| split; [| split]].
  - intros l -> Hhas. unfold _combine. rewrite (bind_run _ _ _ _ _ Hhas).
    by destruct reversed.
  - intros d ->. unfold _combine.
    rewrite (bind_run _ _ _ _ _ (has_resolve_expression_plain (PTimedelta d) h ltac:(done))).
    unfold bind, DurationValue_init, CombinedExpression_init, alloc.
    destruct reversed; cbn; rewrite ?Hlen, <- ?app_assoc; reflexivity.
  - intros Hhas Hd. unfold _combine. rewrite (bind_run _ _ _ _ _ Hhas).
    assert ((match other with
             | PObj l => if false then ret l else Value_init other None
             | PTimedelta _ => DurationValue_init other (Some fields_DurationField)
             | _ => Value_init other None
             end) = Value_init other None) as ->.
    { destruct other; try done. by destruct (Hd microseconds). }
    unfold bind, Value_init, CombinedExpression_init, alloc.
    destruct reversed; cbn; rewrite ?Hlen, <- ?app_assoc; reflexivity.
  - intros r Hr. simpl in Hr. by destruct Hr as [<- | [<- | [<- | [<- | []]]]].
Qed.

Lemma _combine_builds_witness :
  has_resolve_expression (PInt 1) [OF F (PStr "price")] = (Ok false, [OF F (PStr "price")]) /\
  __add__ 0 (PInt 1) [OF F (PStr "price")]
  = (Ok 2, [OF F (PStr "price");
            OValue Value (BaseExpression_init None) (PInt 1) None;
            OCombined CombinedExpression (BaseExpression_init None) 0 "+" 1]).
Proof.
  split; [reflexivity |].
  apply (proj1 (proj2 (proj2 (_combine_builds 0 (PInt 1) "+" false [OF F (PStr "price")]))));
    [reflexivity | discriminate].
Defined.

(** ** Construction *)

Lemma has_resolve_expression_prefix (h hk : heap) arg :
  h `prefix_of` hk -> bound_in h [arg] ->
  has_resolve_expression arg hk
  = (Ok (is_expression h arg), hk) /\
  (has_resolve_expression arg h).1 = Ok (is_expression h arg).
Proof.
  intros Hp Hb. unfold is_expression. destruct arg; try done.
  assert (l < length h) as Hl by (apply Hb; by left).
  destruct (lookup_lt_is_Some_2 h l Hl) as [o Ho].
  pose proof (prefix_lookup_Some _ _ _ _ Ho Hp) as Hk.
  unfold has_resolve_expression.
  rewrite (bind_run _ _ _ _ _ (deref_run _ _ _ Hk)), (bind_run _ _ _ _ _ (deref_run _ _ _ Ho)).
  unfold ret. simpl. by destruct o as [| | | | | | | | | | | | | | c |]; try destruct (cond_resolvable c).
Qed.

Lemma prefix_alloc (h hk : heap) o : h `prefix_of` hk -> h `prefix_of` (hk ++ [o]).
Proof. intros [k ->]. exists (k ++ [o]). by rewrite app_assoc. Qed.

Lemma parsed_as_prefix h h1 h2 arg l :
  h1 `prefix_of` h2 -> parsed_as h h1 arg l -> parsed_as h h2 arg l.
Proof.
  unfold parsed_as. intros Hp. destruct (is_expression h arg); [done |].
  intros [Hl Ho]. split; [done |]. by eapply prefix_lookup_Some.
Qed.

Lemma _parse_expressions_ok expressions : forall h hk,
  h `prefix_of` hk -> bound_in h expressions ->
  exists args h',
    _parse_expressions expressions hk = (Ok args, h') /\
    hk `prefix_of` h' /\
    Forall2 (parsed_as h h') expressions args.
Proof.
  induction expressions as [| arg rest IH]; intros h hk Hp Hb.
  - exists [], hk. by repeat split.
  - assert (bound_in h [arg]) as Harg.
    { intros l [E | []]. apply Hb. by left. }
    assert (bound_in h rest) as Hrest.
    { intros l Hl. apply Hb. by right. }
    destruct (has_resolve_expression_prefix h hk arg Hp Harg) as [Hhas _].
    assert (exists l h1,
      (b <- has_resolve_expression arg ;;
       match arg with
       | PObj l => if b then ret l else Value_init arg None
       | PStr _ => F_init arg
       | _ => Value_init arg None
       end) hk = (Ok l, h1) /\ hk `prefix_of` h1 /\ parsed_as h h1 arg l) as (l & h1 & E & Hp1 & Hl).
    { rewrite (bind_run _ _ _ _ _ Hhas). unfold parsed_as.
      pose proof (prefix_length _ _ Hp) as Hlen.
      destruct (is_expression h arg) eqn:Hexp.
      - destruct arg; try (by unfold is_expression in Hexp).
        exists l, hk. by repeat split.
      - exists (length hk), (hk ++ [match arg with
                                    | PStr _ => OF F arg
                                    | _ => OValue Value (BaseExpression_init None) arg None
                                    end]).
        split; [by destruct arg |].
        split; [by apply prefix_app_r |].
        split; [done | apply lookup_alloc]. }
    destruct (IH h h1 (transitivity Hp Hp1) Hrest) as (args & h' & E' & Hp' & Hall).
    exists (l :: args), h'. split; [| split].
    + unfold _parse_expressions in *. simpl.
      rewrite (bind_run _ _ _ _ _ E), (bind_run _ _ _ _ _ E'). done.
    + by transitivity h1.
    + constructor; [by eapply parsed_as_prefix | done].
Qed.

Lemma Forall2_parsed_as_prefix h h1 h2 args ls :
  h1 `prefix_of` h2 -> Forall2 (parsed_as h h1) args ls -> Forall2 (parsed_as h h2) args ls.
Proof.
  intros Hp Hall. eapply Forall2_impl; [exact Hall |]. intros. by eapply parsed_as_prefix.
Qed.

(** X2: [Func.__init__] of a class with a fixed arity raises the
    [TypeError] naming the class, the arity and the number of arguments
    given when the number of arguments differs, and builds nothing;
    otherwise it builds a function node whose source expressions are the
    arguments in order, each as [_parse_expressions] wraps it, and
    leaves every existing object untouched. *)
Theorem Func_init_arity cls expressions output_field extra h :
  (forall n, arity cls = Some n -> length expressions <> n ->
     Func_init cls expressions output_field extra h
     = (Raise (TypeError ("'" +:+ func_name cls +:+ "' takes exactly " +:+ str_of_nat n +:+
                          " " +:+ (if n =? 1 then "argument" else "arguments") +:+
                          " (" +:+ str_of_nat (length expressions) +:+ " given)")), h)) /\
  (arity cls = None \/ arity cls = Some (length expressions) ->
   bound_in h expressions ->
   exists c lst args h',
     Func_init cls expressions output_field extra h = (Ok c, h') /\
     h `prefix_of` h' /\ length h <= c /\
     h' !! c = Some (OFunc cls (BaseExpression_init output_field) lst extra) /\
     get_source_expressions c h' = (Ok args, h') /\
     Forall2 (parsed_as h h') expressions args).
Proof.
  split.
  - intros n Harity Hlen. unfold Func_init. rewrite Harity.
    apply Nat.eqb_neq in Hlen. rewrite Hlen. reflexivity.
  - intros Harity Hb.
    assert (match arity cls with
            | Some n =>
                if negb (length expressions =? n)
                then
                  msg <- lift (format_positional "'%s' takes exactly %s %s (%s given)"
                                 [func_name cls; str_of_nat n;
                                  if n =? 1 then "argument" else "arguments";
                                  str_of_nat (length expressions)]) ;;
                  raise (TypeError msg)
                else ret tt
            | None => ret tt
            end h = (Ok tt, h)) as Hcheck.
    { destruct Harity as [-> | ->]; [done |]. by rewrite Nat.eqb_refl. }
    destruct (_parse_expressions_ok expressions h h (reflexivity h) Hb)
      as (args & h1 & E & Hp & Hall).
    exists (S (length h1)), (length h1), args,
      ((h1 ++ [OList args])
         ++ [OFunc cls (BaseExpression_init output_field) (length h1) extra]).
    pose proof (prefix_length _ _ Hp) as Hlen.
    assert (((h1 ++ [OList args])
               ++ [OFunc cls (BaseExpression_init output_field) (length h1) extra])
              !! S (length h1)
            = Some (OFunc cls (BaseExpression_init output_field) (length h1) extra)) as Hc.
    { replace (S (length h1)) with (length (h1 ++ [OList args])); [apply lookup_alloc |].
      rewrite length_app. simpl. lia. }
    split; [| split; [| split; [| split; [| split]]]].
    + unfold Func_init. rewrite (bind_run _ _ _ _ _ Hcheck), (bind_run _ _ _ _ _ E).
      unfold bind, alloc. do 2 f_equal. rewrite length_app. simpl. lia.
    + by do 2 apply prefix_alloc.
    + lia.
    + exact Hc.
    + unfold get_source_expressions. rewrite (bind_run _ _ _ _ _ (deref_run _ _ _ Hc)).
      apply get_list_run. rewrite lookup_app_l; [apply lookup_alloc |].
      rewrite length_app. simpl. lia.
    + eapply Forall2_parsed_as_prefix; [| exact Hall].
      do 2 apply prefix_app_r. reflexivity.
Qed.

Lemma Func_init_arity_witness :
  bound_in [OStar (BaseExpression_init None)] [PObj 0; PStr "name"; PInt 1] /\
  exists c lst args h',
    Func_init Func [PObj 0; PStr "name"; PInt 1] None [] [OStar (BaseExpression_init None)]
    = (Ok c, h') /\
    [OStar (BaseExpression_init None)] `prefix_of` h' /\ 1 <= c /\
    h' !! c = Some (OFunc Func (BaseExpression_init None) lst []) /\
    get_source_expressions c h' = (Ok args, h') /\
    Forall2 (parsed_as [OStar (BaseExpression_init None)] h')
      [PObj 0; PStr "name"; PInt 1] args.
Proof.
  assert (bound_in [OStar (BaseExpression_init None)] [PObj 0; PStr "name"; PInt 1]) as Hb.
  { intros l [E | [E | [E | []]]]; try discriminate. injection E as <-. simpl. lia. }
  split; [exact Hb |].
  apply (proj2 (Func_init_arity Func [PObj 0; PStr "name"; PInt 1] None []
                  [OStar (BaseExpression_init None)])); [by left | exact Hb].
Defined.

Lemma is_Q_run (h : heap) c o :
  h !! c = Some o ->
  is_Q (PObj c) h = (Ok match o with OCondition q => cond_resolvable q | _ => false end, h).
Proof. intros Hc. unfold is_Q. by rewrite (bind_run _ _ _ _ _ (deref_run _ _ _ Hc)). Qed.

(** X3: [When.__init__] without keyword lookups raises the [TypeError]
    unless the condition is a [Q] object, and builds nothing then; with
    a [Q] object it builds a [When] on that very condition whose result
    is the [then] argument as [_parse_expressions] wraps it, and leaves
    every existing object untouched. *)
Theorem When_init_requires_Q condition then_ h :
  (is_Q condition h = (Ok false, h) ->
   When_init condition then_ h
   = (Raise (TypeError "__init__() takes either a Q object or lookups as keyword arguments"),
      h)) /\
  (forall c, condition = PObj c -> is_Q condition h = (Ok true, h) -> bound_in h [then_] ->
   exists w result h',
     When_init condition then_ h = (Ok w, h') /\
     h `prefix_of` h' /\ length h <= w /\
     h' !! w = Some (OWhen (BaseExpression_init None) c result) /\
     get_source_expressions w h' = (Ok [c; result], h') /\
     parsed_as h h' then_ result).
Proof.
  split.
  - intros HQ. unfold When_init. rewrite (bind_run _ _ _ _ _ HQ). by destruct condition.
  - intros c -> HQ Hb.
    destruct (_parse_expressions_ok [then_] h h (reflexivity h) Hb)
      as (args & h1 & E & Hp & Hall).
    apply Forall2_cons_inv_l in Hall as (result & rest & Hres & Hnil & ->).
    apply Forall2_nil_inv_l in Hnil as ->.
    pose proof (prefix_length _ _ Hp) as Hlen.
    exists (length h1), result, (h1 ++ [OWhen (BaseExpression_init None) c result]).
    split; [| split; [| split; [| split; [| split]]]].
    + unfold When_init. by rewrite (bind_run _ _ _ _ _ HQ), (bind_run _ _ _ _ _ E).
    + by apply prefix_alloc.
    + done.
    + apply lookup_alloc.
    + unfold get_source_expressions.
      by rewrite (bind_run _ _ _ _ _ (deref_run _ _ _ (lookup_alloc _ _))).
    + eapply parsed_as_prefix; [| exact Hres]. by apply prefix_app_r.
Qed.

Lemma When_init_requires_Q_witness :
  is_Q (PObj 0) [OCondition some_Q] = (Ok true, [OCondition some_Q]) /\
  bound_in [OCondition some_Q] [PInt 1] /\
  exists w result h',
    When_init (PObj 0) (PInt 1) [OCondition some_Q] = (Ok w, h') /\
    [OCondition some_Q] `prefix_of` h' /\ 1 <= w /\
    h' !! w = Some (OWhen (BaseExpression_init None) 0 result) /\
    get_source_expressions w h' = (Ok [0; result], h') /\
    parsed_as [OCondition some_Q] h' (PInt 1) result.
Proof.
  assert (bound_in [OCondition some_Q] [PInt 1]) as Hb.
  { intros l [E | []]. discriminate. }
  split; [reflexivity | split; [exact Hb |]].
  apply (proj2 (When_init_requires_Q (PObj 0) (PInt 1) [OCondition some_Q]) 0);
    [reflexivity | reflexivity | exact Hb].
Defined.

(** The check of [Case.__init__] on its positional arguments. *)
Lemma Case_init_check_ok cases h :
  (forall case, In case cases -> is_When case h = (Ok true, h)) ->
  traverse (fun case =>
    b <- is_When case ;;
    match case with
    | PObj l => if b then ret l
                else raise (TypeError "Positional arguments must all be When objects.")
    | _ => raise (TypeError "Positional arguments must all be When objects.")
    end) cases h = (Ok (objects_of cases), h) /\
  map PObj (objects_of cases) = cases.
Proof.
  induction cases as [| case rest IH]; intros Hall; [done |].
  destruct IH as [E Hmap]; [intros; apply Hall; by right |].
  pose proof (Hall case (or_introl eq_refl)) as Hcase.
  destruct case; try discriminate Hcase.
  split.
  - rewrite traverse_cons.
    erewrite (bind_run _ _ h l h); [| by rewrite (bind_run _ _ _ _ _ Hcase)].
    by rewrite (bind_run _ _ _ _ _ E).
  - simpl. by rewrite Hmap.
Qed.

Lemma is_When_bound h case :
  bound_in h [case] -> exists b, is_When case h = (Ok b, h).
Proof.
  intros Hb. destruct case; try by eexists.
  assert (l < length h) as Hl by (apply Hb; by left).
  destruct (lookup_lt_is_Some_2 h l Hl) as [o Ho].
  eexists. unfold is_When. by rewrite (bind_run _ _ _ _ _ (deref_run _ _ _ Ho)).
Qed.

Lemma Case_init_check_fails cases h :
  bound_in h cases ->
  (exists case, In case cases /\ is_When case h = (Ok false, h)) ->
  traverse (fun case =>
    b <- is_When case ;;
    match case with
    | PObj l => if b then ret l
                else raise (TypeError "Positional arguments must all be When objects.")
    | _ => raise (TypeError "Positional arguments must all be When objects.")
    end) cases h
  = (Raise (TypeError "Positional arguments must all be When objects."), h).
Proof.
  induction cases as [| case rest IH]; intros Hb (bad & Hin & Hbad); [destruct Hin |].
  destruct (is_When_bound h case) as [b Hcase].
  { intros l [E | []]. apply Hb. by left. }
  rewrite traverse_cons.
  destruct b.
  - destruct case; try discriminate Hcase.
    erewrite (bind_run _ _ h l h); [| by rewrite (bind_run _ _ _ _ _ Hcase)].
    destruct Hin as [<- | Hin]; [congruence |].
    apply bind_raise. apply IH; [| by exists bad].
    intros l' Hl'. apply Hb. by right.
  - apply bind_raise. rewrite (bind_run _ _ _ _ _ Hcase). by destruct case.
Qed.

(** X4: [Case.__init__] raises the [TypeError] and builds nothing as
    soon as a positional argument is not a [When]; when they all are,
    it builds a [Case] whose source expressions are those very [When]
    objects in order, followed by the default as [_parse_expressions]
    wraps it, one more than the cases, and leaves every existing object
    untouched. *)
Theorem Case_init_requires_When cases default output_field extra h :
  bound_in h (default :: cases) ->
  ((exists case, In case cases /\ is_When case h = (Ok false, h)) ->
   Case_init cases default output_field extra h
   = (Raise (TypeError "Positional arguments must all be When objects."), h)) /\
  ((forall case, In case cases -> is_When case h = (Ok true, h)) ->
   exists c d h',
     Case_init cases default output_field extra h = (Ok c, h') /\
     h `prefix_of` h' /\ length h <= c /\
     map PObj (objects_of cases) = cases /\
     get_source_expressions c h' = (Ok (objects_of cases ++ [d]), h') /\
     length (objects_of cases ++ [d]) = S (length cases) /\
     parsed_as h h' default d).
Proof.
  intros Hb.
  assert (bound_in h cases) as Hcases.
  { intros l Hl. apply Hb. by right. }
  assert (bound_in (h ++ [OList (objects_of cases)]) [default]) as Hdefault.
  { intros l [E | []]. rewrite length_app. simpl.
    assert (l < length h); [apply Hb; by left | lia]. }
  split.
  - intros Hbad. unfold Case_init.
    apply bind_raise, Case_init_check_fails; done.
  - intros Hall. destruct (Case_init_check_ok cases h Hall) as [E Hmap].
    assert (bound_in h [default]) as Hd.
    { intros l [El | []]. apply Hb. by left. }
    destruct (_parse_expressions_ok [default] h (h ++ [OList (objects_of cases)])
                (prefix_app_r h h _ (reflexivity h)) Hd) as (args & h1 & E1 & Hp & Hres).
    apply Forall2_cons_inv_l in Hres as (d & rest & Hres & Hnil & ->).
    apply Forall2_nil_inv_l in Hnil as ->.
    pose proof (prefix_length _ _ Hp) as Hlen. rewrite length_app in Hlen. simpl in Hlen.
    exists (length h1), d,
      (h1 ++ [OCase (BaseExpression_init output_field) (length h) d extra]).
    assert (h1 !! length h = Some (OList (objects_of cases))) as Hlst.
    { eapply prefix_lookup_Some; [apply lookup_alloc | exact Hp]. }
    split; [| split; [| split; [| split; [| split; [| split]]]]].
    + unfold Case_init. rewrite (bind_run _ _ _ _ _ E).
      unfold alloc at 1. unfold bind at 1. by rewrite (bind_run _ _ _ _ _ E1).
    + apply prefix_alloc. transitivity (h ++ [OList (objects_of cases)]); [| done].
      by apply prefix_app_r.
    + lia.
    + done.
    + unfold get_source_expressions.
      rewrite (bind_run _ _ _ _ _ (deref_run _ _ _ (lookup_alloc _ _))).
      assert ((h1 ++ [OCase (BaseExpression_init output_field) (length h) d extra])
                !! length h = Some (OList (objects_of cases))) as Hlst'.
      { rewrite lookup_app_l; [done | lia]. }
      by rewrite (bind_run _ _ _ _ _ (get_list_run _ _ _ Hlst')).
    + rewrite length_app. simpl. rewrite <- Hmap at 2. rewrite length_map. lia.
    + eapply parsed_as_prefix; [| exact Hres]. by apply prefix_app_r.
Qed.

Lemma Case_init_requires_When_witness :
  bound_in one_when [PInt 0; PObj 2] /\
  exists c d h',
    Case_init [PObj 2] (PInt 0) None [] one_when = (Ok c, h') /\
    one_when `prefix_of` h' /\ length one_when <= c /\
    map PObj (objects_of [PObj 2]) = [PObj 2] /\
    get_source_expressions c h' = (Ok (objects_of [PObj 2] ++ [d]), h') /\
    length (objects_of [PObj 2] ++ [d]) = 2 /\
    parsed_as one_when h' (PInt 0) d.
Proof.
  assert (bound_in one_when [PInt 0; PObj 2]) as Hb.
  { intros l [E | [E | []]]; [discriminate |]. injection E as <-. simpl. lia. }
  split; [exact Hb |].
  apply (proj2 (Case_init_requires_When [PObj 2] (PInt 0) None [] one_when Hb)).
  intros case [<- | []]. reflexivity.
Defined.

(** ** Source expressions *)

Lemma removelast_last {A} (xs : list A) x :
  last xs = Some x -> removelast xs ++ [x] = xs.
Proof.
  intros H. destruct (decide (xs = [])) as [-> | Hne]; [done |].
  rewrite (app_removelast_last x Hne) at 2. f_equal. f_equal.
  clear Hne. induction xs as [| a [| b xs] IH]; simpl in *; [done | by simplify_eq |].
  by apply IH.
Qed.

Lemma lookup_store_alloc (h : heap) self o o' x :
  h !! self = Some o -> <[self := o']> (h ++ [x]) !! length h = Some x.
Proof.
  intros Hs. pose proof (lookup_lt_Some _ _ _ Hs).
  rewrite list_lookup_insert_ne by lia. apply lookup_alloc.
Qed.

Lemma lookup_store_app (h : heap) self o o' x :
  h !! self = Some o -> <[self := o']> (h ++ [x]) !! self = Some o'.
Proof.
  intros Hs. pose proof (lookup_lt_Some _ _ _ Hs).
  apply list_lookup_insert_eq. rewrite length_app. lia.
Qed.

(** X5: after [set_source_expressions exprs] succeeded on a node that
    is not a subquery, [get_source_expressions] returns [exprs] (its
    first element only for an [ExpressionWrapper] and an [OrderBy],
    which keep one); the classes that keep the method of
    [BaseExpression], [Subquery] among them, accept the empty list only
    and fail with an [AssertionError] on any other, changing nothing. *)
Theorem set_then_get_source_expressions self exprs h o :
  h !! self = Some o ->
  (forall h', wraps_queryset o = false ->
     set_source_expressions self exprs h = (Ok tt, h') ->
     get_source_expressions self h' = (Ok (read_back o exprs), h')) /\
  (keeps_no_sources o = true -> exprs <> [] ->
   set_source_expressions self exprs h = (Raise AssertionError, h)).
Proof.
  intros Hs. pose proof (lookup_lt_Some _ _ _ Hs) as Hlt. split.
  - intros h' Hq. unfold set_source_expressions.
    rewrite (bind_run _ _ _ _ _ (deref_run _ _ _ Hs)).
    destruct o; try done; simpl.
    + destruct exprs; [| done]. intros [= <-]. unfold get_source_expressions.
      by rewrite (bind_run _ _ _ _ _ (deref_run _ _ _ Hs)).
    + destruct exprs as [| l [| r [| ? ?]]]; try done. intros [= <-].
      unfold get_source_expressions.
      by rewrite (bind_run _ _ _ _ _ (deref_run _ _ _ (lookup_store _ _ _ _ Hs))).
    + unfold bind, alloc, store. intros [= <-]. unfold get_source_expressions.
      rewrite (bind_run _ _ _ _ _ (deref_run _ _ _ (lookup_store_app _ _ _ _ _ Hs))).
      apply get_list_run. by eapply lookup_store_alloc.
    + destruct exprs; [| done]. intros [= <-]. unfold get_source_expressions.
      by rewrite (bind_run _ _ _ _ _ (deref_run _ _ _ Hs)).
    + destruct exprs; [| done]. intros [= <-]. unfold get_source_expressions.
      by rewrite (bind_run _ _ _ _ _ (deref_run _ _ _ Hs)).
    + destruct exprs; [| done]. intros [= <-]. unfold get_source_expressions.
      by rewrite (bind_run _ _ _ _ _ (deref_run _ _ _ Hs)).
    + destruct exprs; [| done]. intros [= <-]. unfold get_source_expressions.
      by rewrite (bind_run _ _ _ _ _ (deref_run _ _ _ Hs)).
    + destruct exprs as [| src [| ? ?]]; try done. intros [= <-].
      unfold get_source_expressions.
      by rewrite (bind_run _ _ _ _ _ (deref_run _ _ _ (lookup_store _ _ _ _ Hs))).
    + destruct exprs as [| e rest]; [done |]. intros [= <-].
      unfold get_source_expressions.
      by rewrite (bind_run _ _ _ _ _ (deref_run _ _ _ (lookup_store _ _ _ _ Hs))).
    + destruct exprs as [| c [| r [| ? ?]]]; try done. intros [= <-].
      unfold get_source_expressions.
      by rewrite (bind_run _ _ _ _ _ (deref_run _ _ _ (lookup_store _ _ _ _ Hs))).
    + unfold bind, alloc, store. destruct (last exprs) as [d |] eqn:Hlast; [| done].
      intros [= <-]. unfold get_source_expressions.
      rewrite insert_insert_same.
      rewrite (bind_run _ _ _ _ _ (deref_run _ _ _ (lookup_store_app _ _ _ _ _ Hs))).
      erewrite (bind_run _ _ _ _ _ (get_list_run _ _ _ (lookup_store_alloc _ _ _ _ _ Hs))).
      unfold ret. by rewrite (removelast_last _ _ Hlast).
    + destruct exprs as [| e rest]; [done |]. intros [= <-].
      unfold get_source_expressions.
      by rewrite (bind_run _ _ _ _ _ (deref_run _ _ _ (lookup_store _ _ _ _ Hs))).
  - intros Hk Hne. unfold set_source_expressions.
    rewrite (bind_run _ _ _ _ _ (deref_run _ _ _ Hs)).
    by destruct o; try done; destruct exprs.
Qed.

Lemma set_then_get_source_expressions_witness :
  three_plus_four_store !! 2
    = Some (OCombined CombinedExpression (BaseExpression_init None) 0 "+" 1) /\
  get_source_expressions 2 (set_source_expressions 2 [1; 0] three_plus_four_store).2
  = (Ok [1; 0], (set_source_expressions 2 [1; 0] three_plus_four_store).2).
Proof.
  split; [reflexivity |].
  apply (proj1 (set_then_get_source_expressions 2 [1; 0] three_plus_four_store _ eq_refl));
    reflexivity.
Defined.

(** ** Copying *)

Lemma prefix_insert_beyond (h hk : heap) l x :
  h `prefix_of` hk -> length h <= l -> h `prefix_of` <[l := x]> hk.
Proof.
  intros [k ->] Hl. rewrite insert_app_r_alt by done. by apply prefix_app_r.
Qed.

Lemma BaseExpression_copy_run self h o b :
  h !! self = Some o -> base_of o = Some b ->
  BaseExpression_copy self h
  = (Ok (length h), <[length h := with_base o (set_copied true b)]> (h ++ [o])).
Proof.
  intros Hs Hb. apply wp_run. eapply wp_BaseExpression_copy; done.
Qed.

Lemma length_alloc (h : heap) (o : Obj) : length (h ++ [o]) = S (length h).
Proof. rewrite length_app. simpl. lia. Qed.

(** X6: [copy] returns a new object and changes no existing one; the
    copy carries the attributes of the original (cached ones included)
    with [copied] set, and has the same source expressions; it is a
    shallow copy, except that the copy of a function node or of a [Case]
    gets a new list of its own holding the same items. *)
Theorem copy_shallow self h o b :
  h !! self = Some o -> base_of o = Some b -> list_bound h o ->
  exists h' o',
    copy self h = (Ok (length h), h') /\
    h `prefix_of` h' /\
    h' !! length h = Some o' /\
    base_of o' = Some (set_copied true b) /\
    copy_of h h' o b o' /\
    (forall xs, get_source_expressions self h = (Ok xs, h) ->
                get_source_expressions (length h) h' = (Ok xs, h')).
Proof.
  intros Hs Hb Hlist.
  pose proof (lookup_lt_Some _ _ _ Hs) as Hlt.
  pose proof (BaseExpression_copy_run self h o b Hs Hb) as Hcopy.
  set (h1 := <[length h := with_base o (set_copied true b)]> (h ++ [o])) in *.
  assert (h `prefix_of` h1) as Hp1.
  { apply prefix_insert_beyond; [by apply prefix_app_r | done]. }
  assert (h1 !! length h = Some (with_base o (set_copied true b))) as Hc1.
  { apply list_lookup_insert_eq. rewrite length_alloc. lia. }
  assert (length h1 = S (length h)) as Hlen1.
  { unfold h1. by rewrite length_insert, length_alloc. }
  assert (match o with OFunc _ _ _ _ | OCase _ _ _ _ => False | _ => True end ->
          forall xs, get_source_expressions self h = (Ok xs, h) ->
                     get_source_expressions (length h) h1 = (Ok xs, h1)) as Hsame.
  { intros Hu xs. rewrite (get_source_expressions_run _ _ _ _ Hs eq_refl).
    rewrite (get_source_expressions_run _ _ _ _ Hc1 eq_refl).
    destruct o; try done; simpl; unfold ret; try (intros ?; by simplify_eq).
    apply Subquery_get_source_expressions_ext; [| done].
    split; [lia |]. intros l o' Hl. left. by eapply prefix_lookup_Some. }
  unfold copy. rewrite (bind_run _ _ _ _ _ (deref_run _ _ _ Hs)).
  destruct o; try done; simpl in Hb; simplify_eq;
    try (exists h1; eexists;
         split; [exact Hcopy | split; [done | split; [exact Hc1 |
         split; [done | split; [done | by apply Hsame]]]]]).
  - (* Func *)
    destruct Hlist as [items Hitems].
    pose proof (prefix_lookup_Some _ _ _ _ Hs Hp1) as Hs1.
    pose proof (prefix_lookup_Some _ _ _ _ Hitems Hp1) as Hitems1.
    exists (<[length h := OFunc cls (set_copied true b) (length h1) extra]>
              (h1 ++ [OList items])).
    eexists. split; [| split; [| split; [| split; [| split]]]].
    + unfold Func_copy. rewrite (bind_run _ _ _ _ _ Hcopy).
      rewrite (bind_run _ _ _ _ _ (deref_run _ _ _ Hs1)).
      rewrite (bind_run _ _ _ _ _ (get_list_run _ _ _ Hitems1)).
      unfold alloc at 1. unfold bind at 1.
      assert ((h1 ++ [OList items]) !! length h
              = Some (with_base (OFunc cls b source_expressions extra) (set_copied true b)))
        as Hc2.
      { rewrite lookup_app_l by lia. exact Hc1. }
      by rewrite (bind_run _ _ _ _ _ (deref_run _ _ _ Hc2)).
    + apply prefix_insert_beyond; [| done]. by apply prefix_alloc.
    + apply list_lookup_insert_eq. rewrite length_alloc. lia.
    + done.
    + exists (length h1). split; [done |]. split; [lia |].
      rewrite list_lookup_insert_ne by lia. by rewrite lookup_alloc.
    + intros xs. rewrite (get_source_expressions_run _ _ _ _ Hs eq_refl).
      rewrite (get_list_run _ _ _ Hitems). intros [= <-].
      erewrite get_source_expressions_run;
        [| apply list_lookup_insert_eq; rewrite length_alloc; lia | reflexivity].
      apply get_list_run. rewrite list_lookup_insert_ne by lia. apply lookup_alloc.
  - (* Case *)
    destruct Hlist as [items Hitems].
    pose proof (prefix_lookup_Some _ _ _ _ Hitems Hp1) as Hitems1.
    exists (<[length h := OCase (set_copied true b) (length h1) default extra]>
              (h1 ++ [OList items])).
    eexists. split; [| split; [| split; [| split; [| split]]]].
    + unfold Case_copy. rewrite (bind_run _ _ _ _ _ Hcopy).
      rewrite (bind_run _ _ _ _ _ (deref_run _ _ _ Hc1)). simpl.
      by rewrite (bind_run _ _ _ _ _ (get_list_run _ _ _ Hitems1)).
    + apply prefix_insert_beyond; [| done]. by apply prefix_alloc.
    + apply list_lookup_insert_eq. rewrite length_alloc. lia.
    + done.
    + exists (length h1). split; [done |]. split; [lia |].
      rewrite list_lookup_insert_ne by lia. by rewrite lookup_alloc.
    + intros xs. rewrite (get_source_expressions_run _ _ _ _ Hs eq_refl).
      rewrite (bind_run _ _ _ _ _ (get_list_run _ _ _ Hitems)). intros [= <-].
      erewrite get_source_expressions_run;
        [| apply list_lookup_insert_eq; rewrite length_alloc; lia | reflexivity].
      assert (<[length h := OCase (set_copied true b) (length h1) default extra]>
                (h1 ++ [OList items]) !! length h1 = Some (OList items)) as Hl2.
      { rewrite list_lookup_insert_ne by lia. apply lookup_alloc. }
      by rewrite (bind_run _ _ _ _ _ (get_list_run _ _ _ Hl2)).
  - (* Subquery *)
    exists h1. eexists. split; [| split; [| split; [| split; [| split]]]].
    + assert (set_queryset (length h) QuerySet_all h1 = (Ok tt, h1)) as Hset.
      { unfold set_queryset. rewrite (bind_run _ _ _ _ _ (deref_run _ _ _ Hc1)). simpl.
        unfold store, QuerySet_all. f_equal. apply list_insert_id. exact Hc1. }
      unfold Subquery_copy. by rewrite (bind_run _ _ _ _ _ Hcopy), (bind_run _ _ _ _ _ Hset).
    + done.
    + exact Hc1.
    + done.
    + done.
    + by eapply Hsame.
Qed.

Lemma copy_shallow_witness :
  sum_of_price !! 2 = Some (OFunc (Aggregate "SUM") (BaseExpression_init None) 1 []) /\
  list_bound sum_of_price (OFunc (Aggregate "SUM") (BaseExpression_init None) 1 []) /\
  exists h' o',
    copy 2 sum_of_price = (Ok (length sum_of_price), h') /\
    sum_of_price `prefix_of` h' /\
    h' !! length sum_of_price = Some o' /\
    base_of o' = Some (set_copied true (BaseExpression_init None)) /\
    copy_of sum_of_price h' (OFunc (Aggregate "SUM") (BaseExpression_init None) 1 [])
      (BaseExpression_init None) o' /\
    (forall xs, get_source_expressions 2 sum_of_price = (Ok xs, sum_of_price) ->
                get_source_expressions (length sum_of_price) h' = (Ok xs, h')).
Proof.
  assert (list_bound sum_of_price (OFunc (Aggregate "SUM") (BaseExpression_init None) 1 []))
    as Hl by (by exists [0]).
  split; [reflexivity | split; [exact Hl |]].
  apply (copy_shallow 2 sum_of_price _ _ eq_refl eq_refl Hl).
Defined.

(** ** Rendering an ordering *)

Lemma append_nonempty s t : t <> EmptyString -> s +:+ t <> EmptyString.
Proof. destruct s; simpl; [done | discriminate]. Qed.

Lemma rstrip_cons c s :
  rstrip s <> EmptyString -> rstrip (String c s) = String c (rstrip s).
Proof. simpl. by destruct (rstrip s). Qed.

Lemma rstrip_app s t :
  rstrip t <> EmptyString -> rstrip (s +:+ t) = s +:+ rstrip t.
Proof.
  intros Ht. induction s as [| c s IH]; [done |].
  change (String c s +:+ t) with (String c (s +:+ t)).
  rewrite rstrip_cons; rewrite IH; [done | by apply append_nonempty].
Qed.

Lemma OrderBy_as_sql_run compiler connection self template h b expression descending
    nulls_first nulls_last h1 sql params h2 chosen text :
  h !! self = Some (OOrderBy b expression descending nulls_first nulls_last) ->
  check_expression_support connection self h = (Ok tt, h1) ->
  compile compiler expression h1 = (Ok (sql, params), h2) ->
  chosen = match str_or template "" with
           | EmptyString =>
               if nulls_last then "%(expression)s %(ordering)s NULLS LAST"
               else if nulls_first then "%(expression)s %(ordering)s NULLS FIRST"
               else OrderBy_template
           | t => t
           end ->
  format_mapping chosen [("expression", sql); ("ordering", ordering_keyword descending)]
    = Ok text ->
  OrderBy_as_sql compiler connection self template [] h = (Ok (rstrip text, params), h2).
Proof.
  intros Hs Hcheck Hcompile -> Hfmt. unfold OrderBy_as_sql.
  rewrite (bind_run _ _ _ _ _ (deref_run _ _ _ Hs)).
  assert (exists t,
    (match str_or template "" with
     | EmptyString =>
         if nulls_last then
           t <- percent "%s NULLS LAST" [OrderBy_template] ;; ret (Some t)
         else if nulls_first then
           t <- percent "%s NULLS FIRST" [OrderBy_template] ;; ret (Some t)
         else ret template
     | _ => ret template
     end) h = (Ok t, h) /\
    str_or t OrderBy_template
    = match str_or template "" with
      | EmptyString =>
          if nulls_last then "%(expression)s %(ordering)s NULLS LAST"
          else if nulls_first then "%(expression)s %(ordering)s NULLS FIRST"
          else OrderBy_template
      | t => t
      end) as (t & Et & Hchosen).
  { destruct template as [[| c t] |]; simpl;
      destruct nulls_last; try destruct nulls_first; by eexists. }
  rewrite (bind_run _ _ _ _ _ Et), (bind_run _ _ _ _ _ Hcheck), (bind_run _ _ _ _ _ Hcompile).
  rewrite Hchosen. unfold percent_mapping, lift, bind. simpl dict_update.
  unfold ordering_keyword in Hfmt. simpl fst. by rewrite Hfmt.
Qed.

Lemma append_nil_r s : s +:+ "" = s.
Proof. induction s as [| c s IH]; [done | exact (f_equal (String c) IH)]. Qed.

Lemma append_assoc s t u : (s +:+ t) +:+ u = s +:+ t +:+ u.
Proof. induction s as [| c s IH]; [done | exact (f_equal (String c) IH)]. Qed.

Lemma rstrip_app_nonempty s t :
  rstrip t <> EmptyString -> rstrip (s +:+ t) <> EmptyString.
Proof. intros Ht. rewrite rstrip_app by done. by apply append_nonempty. Qed.

Ltac rstrip_ne := first [by vm_compute | apply rstrip_app_nonempty; rstrip_ne].
Ltac rstrip_tac := repeat (rewrite rstrip_app; [| rstrip_ne]).

(** X7: [OrderBy.as_sql] without a template renders the ordered
    expression once, followed by [ASC] or [DESC] and, when asked for,
    by [NULLS LAST] or [NULLS FIRST], with exactly the parameters of the
    expression. *)
Theorem OrderBy_as_sql_renders compiler connection self h b expression descending
    nulls_first nulls_last h1 sql params h2 :
  h !! self = Some (OOrderBy b expression descending nulls_first nulls_last) ->
  check_expression_support connection self h = (Ok tt, h1) ->
  compile compiler expression h1 = (Ok (sql, params), h2) ->
  OrderBy_as_sql compiler connection self None [] h
  = (Ok (sql +:+ " " +:+ ordering_keyword descending
           +:+ nulls_suffix nulls_first nulls_last, params), h2).
Proof.
  intros Hs Hcheck Hcompile.
  erewrite (OrderBy_as_sql_run _ _ _ None _ _ _ _ _ _ _ _ _ _ _
              (sql +:+ " " +:+ ordering_keyword descending
                 +:+ nulls_suffix nulls_first nulls_last) Hs Hcheck Hcompile eq_refl).
  - do 2 f_equal. f_equal.
    unfold ordering_keyword, nulls_suffix.
    destruct descending, nulls_last, nulls_first; by rstrip_tac.
  - unfold ordering_keyword, nulls_suffix.
    by destruct descending, nulls_last, nulls_first.
Qed.

Lemma OrderBy_as_sql_renders_witness :
  name_desc_nulls_last !! 1 = Some (OOrderBy (BaseExpression_init None) 0 true false true) /\
  OrderBy_as_sql base_compiler base_connection 1 None [] name_desc_nulls_last
  = (Ok ("T1.name DESC NULLS LAST", []), name_desc_nulls_last).
Proof.
  split; [reflexivity |].
  apply (OrderBy_as_sql_renders base_compiler base_connection 1 name_desc_nulls_last
           (BaseExpression_init None) 0 true false true name_desc_nulls_last
           "T1.name" [] name_desc_nulls_last); reflexivity.
Defined.

(** X8: the SQLite and MySQL variants of [OrderBy.as_sql] emulate the
    placing of nulls by a term on the expression put before the
    ordering, so that the SQL text of the expression appears twice, while
    its parameters are passed once; the blank that ends the MySQL
    templates is stripped; without [nulls_first] and [nulls_last] both
    render as [as_sql] does. *)
Theorem OrderBy_dialects_repeat_expression compiler connection self h b expression
    descending nulls_first nulls_last h1 sql params h2 :
  h !! self = Some (OOrderBy b expression descending nulls_first nulls_last) ->
  check_expression_support connection self h = (Ok tt, h1) ->
  compile compiler expression h1 = (Ok (sql, params), h2) ->
  OrderBy_as_sqlite compiler connection self h
  = (Ok (sqlite_nulls_prefix nulls_first nulls_last sql
           +:+ sql +:+ " " +:+ ordering_keyword descending, params), h2) /\
  OrderBy_as_mysql compiler connection self h
  = (Ok (mysql_nulls_prefix nulls_first nulls_last sql
           +:+ sql +:+ " " +:+ ordering_keyword descending, params), h2).
Proof.
  intros Hs Hcheck Hcompile. split.
  - unfold OrderBy_as_sqlite. rewrite (bind_run _ _ _ _ _ (deref_run _ _ _ Hs)).
    erewrite (OrderBy_as_sql_run _ _ _ _ _ _ _ _ _ _ _ _ _ _ _
                (sqlite_nulls_prefix nulls_first nulls_last sql
                   +:+ sql +:+ " " +:+ ordering_keyword descending)
                Hs Hcheck Hcompile eq_refl).
    + do 2 f_equal. f_equal. unfold sqlite_nulls_prefix, ordering_keyword.
      destruct descending, nulls_last, nulls_first; simpl;
        rewrite ?append_assoc; by rstrip_tac.
    + unfold sqlite_nulls_prefix, ordering_keyword.
      destruct descending, nulls_last, nulls_first; simpl;
        by rewrite ?append_assoc.
  - unfold OrderBy_as_mysql. rewrite (bind_run _ _ _ _ _ (deref_run _ _ _ Hs)).
    erewrite (OrderBy_as_sql_run _ _ _ _ _ _ _ _ _ _ _ _ _ _ _
                (mysql_nulls_prefix nulls_first nulls_last sql
                   +:+ sql +:+ " " +:+ ordering_keyword descending
                   +:+ (if nulls_last || nulls_first then " " else ""))
                Hs Hcheck Hcompile eq_refl).
    + do 2 f_equal. f_equal. unfold mysql_nulls_prefix, ordering_keyword.
      destruct descending, nulls_last, nulls_first; cbn [orb];
        rewrite ?append_assoc; by rstrip_tac.
    + unfold mysql_nulls_prefix, ordering_keyword.
      destruct descending, nulls_last, nulls_first; simpl;
        by rewrite ?append_assoc.
Qed.

Lemma OrderBy_dialects_repeat_expression_witness :
  value_desc_nulls_last !! 1 = Some (OOrderBy (BaseExpression_init None) 0 true false true) /\
  OrderBy_as_sqlite base_compiler base_connection 1 value_desc_nulls_last
  = (Ok ("%s IS NULL, %s DESC", [PInt 1]), value_desc_nulls_last) /\
  OrderBy_as_mysql base_compiler base_connection 1 value_desc_nulls_last
  = (Ok ("IF(ISNULL(%s),1,0), %s DESC", [PInt 1]), value_desc_nulls_last).
Proof.
  split; [reflexivity |].
  apply (OrderBy_dialects_repeat_expression base_compiler base_connection 1
           value_desc_nulls_last (BaseExpression_init None) 0 true false true
           value_desc_nulls_last "%s" [PInt 1] value_desc_nulls_last); reflexivity.
Defined.

(** ** Reversing an ordering *)

Lemma insert_id_after (h : heap) l o o' :
  h !! l = Some o -> <[l := o]> (<[l := o']> h) = h.
Proof. intros Hl. rewrite insert_insert_same. by apply list_insert_id. Qed.

(** X9: [reverse_ordering] on an [OrderBy] flips its direction in
    place and returns the receiver, so that reversing twice restores the
    store; [asc] and [desc] on an [OrderBy] set the direction in place,
    whatever it was, and return [None]; on any other expression
    [reverse_ordering] returns the receiver and changes nothing. *)
Theorem reverse_ordering_flips self h o :
  h !! self = Some o ->
  match o with
  | OOrderBy b expression descending nulls_first nulls_last =>
      reverse_ordering self h
      = (Ok self, <[self := OOrderBy b expression (negb descending) nulls_first nulls_last]> h) /\
      (reverse_ordering self ;; reverse_ordering self) h = (Ok self, h) /\
      asc self no_kwargs h
      = (Ok PNone, <[self := OOrderBy b expression false nulls_first nulls_last]> h) /\
      desc self no_kwargs h
      = (Ok PNone, <[self := OOrderBy b expression true nulls_first nulls_last]> h) /\
      (desc self no_kwargs ;; reverse_ordering self) h
      = (Ok self, <[self := OOrderBy b expression false nulls_first nulls_last]> h)
  | OF _ _ | OCondition _ | OList _ => True
  | _ => reverse_ordering self h = (Ok self, h)
  end.
Proof.
  intros Hs.
  destruct o; try done;
    try (unfold reverse_ordering; by rewrite (bind_run _ _ _ _ _ (deref_run _ _ _ Hs))).
  assert (forall d h0, h0 !! self = Some (OOrderBy b expression d nulls_first nulls_last) ->
            reverse_ordering self h0
            = (Ok self, <[self := OOrderBy b expression (negb d) nulls_first nulls_last]> h0))
    as Hrev.
  { intros d h0 H0. unfold reverse_ordering, OrderBy_reverse_ordering.
    by rewrite !(bind_run _ _ _ _ _ (deref_run _ _ _ H0)). }
  assert (forall d, OrderBy_set_descending self d h
            = (Ok PNone, <[self := OOrderBy b expression d nulls_first nulls_last]> h))
    as Hset.
  { intros d. unfold OrderBy_set_descending.
    by rewrite (bind_run _ _ _ _ _ (deref_run _ _ _ Hs)). }
  split; [by apply Hrev | split; [| split; [| split]]].
  - rewrite (bind_run _ _ _ _ _ (Hrev _ _ Hs)).
    rewrite (Hrev (negb descending)); [| by eapply lookup_store].
    rewrite negb_involutive. f_equal. by apply insert_id_after.
  - unfold asc. rewrite (bind_run _ _ _ _ _ (deref_run _ _ _ Hs)). apply Hset.
  - unfold desc. rewrite (bind_run _ _ _ _ _ (deref_run _ _ _ Hs)). apply Hset.
  - assert (desc self no_kwargs h
            = (Ok PNone, <[self := OOrderBy b expression true nulls_first nulls_last]> h))
      as Hdesc.
    { unfold desc. rewrite (bind_run _ _ _ _ _ (deref_run _ _ _ Hs)). apply Hset. }
    rewrite (bind_run _ _ _ _ _ Hdesc).
    rewrite (Hrev true); [| by eapply lookup_store].
    by rewrite insert_insert_same.
Qed.

Lemma reverse_ordering_flips_witness :
  name_desc_nulls_last !! 1 = Some (OOrderBy (BaseExpression_init None) 0 true false true) /\
  (reverse_ordering 1 ;; reverse_ordering 1) name_desc_nulls_last
  = (Ok 1, name_desc_nulls_last).
Proof.
  split; [reflexivity |].
  apply (reverse_ordering_flips 1 name_desc_nulls_last _ eq_refl).
Defined.

(** ** Values *)

Lemma insert_alloc (h : heap) o o' : <[length h := o']> (h ++ [o]) = h ++ [o'].
Proof.
  rewrite insert_app_r_alt by done. by rewrite Nat.sub_diag.
Qed.

Lemma lookup_alloc_old (h : heap) l o x : h !! l = Some o -> (h ++ [x]) !! l = Some o.
Proof. intros Hl. by apply lookup_app_l_Some. Qed.

Lemma Value_resolve_run limit self query allow_joins reuse
    summarize for_save h cls b value fs :
  h !! self = Some (OValue cls b value fs) ->
  resolve_expression (S limit) self query allow_joins reuse summarize for_save h
  = (Ok (length h),
     h ++ [OValue cls (set_is_summary summarize (set_copied true b)) value (Some for_save)]).
Proof.
  intros Hs. simpl. unfold resolve_expression_of.
  rewrite (bind_run _ _ _ _ _ (deref_run _ _ _ Hs)).
  unfold Value_resolve_expression.
  assert (BaseExpression_resolve_expression (resolve_expression limit) self query allow_joins
            reuse summarize for_save h
          = (Ok (length h),
             h ++ [OValue cls (set_is_summary summarize (set_copied true b)) value fs])) as E.
  { unfold BaseExpression_resolve_expression.
    assert (copy self h
            = (Ok (length h), h ++ [OValue cls (set_copied true b) value fs])) as Hcopy.
    { unfold copy. rewrite (bind_run _ _ _ _ _ (deref_run _ _ _ Hs)).
      rewrite (BaseExpression_copy_run _ _ _ b Hs eq_refl). by rewrite insert_alloc. }
    rewrite (bind_run _ _ _ _ _ Hcopy).
    assert (set_base (length h) (set_is_summary summarize)
              (h ++ [OValue cls (set_copied true b) value fs])
            = (Ok tt,
               h ++ [OValue cls (set_is_summary summarize (set_copied true b)) value fs]))
      as Hset.
    { unfold set_base. rewrite (bind_run _ _ _ _ _ (deref_run _ _ _ (lookup_alloc _ _))).
      simpl. unfold store. by rewrite insert_alloc. }
    rewrite (bind_run _ _ _ _ _ Hset).
    assert (forall v : Obj, base_of v <> None ->
              match v with OValue _ _ _ _ => True | _ => False end ->
              get_source_expressions (length h) (h ++ [v]) = (Ok [], h ++ [v]) /\
              set_source_expressions (length h) [] (h ++ [v]) = (Ok tt, h ++ [v])) as Hleaf.
    { intros v _ Hv. destruct v; try done. split.
      - by rewrite (get_source_expressions_run _ _ _ _ (lookup_alloc _ _) eq_refl).
      - unfold set_source_expressions.
        by rewrite (bind_run _ _ _ _ _ (deref_run _ _ _ (lookup_alloc _ _))). }
    destruct (Hleaf (OValue cls (set_is_summary summarize (set_copied true b)) value fs))
      as [Hget Hput]; [done | done |].
    rewrite (bind_run _ _ _ _ _ Hget). simpl traverse. unfold ret at 1. unfold bind at 1.
    by rewrite (bind_run _ _ _ _ _ Hput). }
  rewrite (bind_run _ _ _ _ _ E).
  rewrite (bind_run _ _ _ _ _ (deref_run _ _ _ (lookup_alloc _ _))).
  unfold bind, store, ret. by rewrite insert_alloc.
Qed.

(** X10: [Value.resolve_expression] returns a new [Value] of the same
    class with the same value, whose attributes are those of the
    receiver with [copied] and with [is_summary] as given, and which
    records [for_save]; the store is otherwise unchanged. *)
Theorem Value_resolve_expression_records_for_save limit self query allow_joins reuse
    summarize for_save h cls b value fs :
  h !! self = Some (OValue cls b value fs) ->
  resolve_expression (S limit) self query allow_joins reuse summarize for_save h
  = (Ok (length h),
     h ++ [OValue cls (set_is_summary summarize (set_copied true b)) value (Some for_save)]).
Proof. apply Value_resolve_run. Qed.

Lemma Value_resolve_expression_records_for_save_witness :
  value_5 !! 0 = Some (OValue Value (BaseExpression_init None) (PInt 5) None) /\
  resolve_expression 1 0 None true None true true value_5
  = (Ok 1, value_5 ++ [OValue Value
                         (set_is_summary true (set_copied true (BaseExpression_init None)))
                         (PInt 5) (Some true)]).
Proof.
  split; [reflexivity |].
  apply (Value_resolve_expression_records_for_save 0 0 None true None true true value_5
           Value (BaseExpression_init None) (PInt 5) None).
  reflexivity.
Defined.

Lemma lookup_ext0 (h : heap) x L : (h ++ x :: L) !! length h = Some x.
Proof. by apply list_lookup_middle. Qed.

Lemma insert_ext0 (h : heap) x y L : <[length h := y]> (h ++ x :: L) = h ++ y :: L.
Proof. rewrite insert_app_r_alt by done. by rewrite Nat.sub_diag. Qed.

Lemma lookup_old (h : heap) L l o : h !! l = Some o -> (h ++ L) !! l = Some o.
Proof. intros Hl. by apply lookup_app_l_Some. Qed.

Lemma alloc_ext (h : heap) L o : (h ++ L) ++ [o] = h ++ (L ++ [o]).
Proof. by rewrite app_assoc. Qed.

Lemma resolve_expression_positional_run
    (rec : loc -> option Query -> bool -> option (list string) -> bool -> bool -> M loc)
    given x query allow_joins reuse summarize for_save h o r :
  h !! x = Some o -> is_Exists o = false ->
  rec x query allow_joins reuse summarize for_save h = r ->
  resolve_expression_positional rec given x query allow_joins reuse summarize for_save h = r.
Proof.
  intros Hx Ho <-. unfold resolve_expression_positional.
  rewrite (bind_run _ _ _ _ _ (deref_run _ _ _ Hx)).
  by destruct o as [| | | | | | | | | | | | [|] | | |].
Qed.

Lemma resolve_expression_S limit :
  resolve_expression (S limit) = resolve_expression_of (resolve_expression limit).
Proof. reflexivity. Qed.

(** X11: [BaseExpression.resolve_expression] resolves the source
    expressions without handing [for_save] over, so that the [Value]
    under a resolved [ExpressionWrapper] records [for_save = False]
    whatever was asked for, whereas [CombinedExpression.resolve_expression]
    hands it over to both sides; in both cases the result is a new node
    over new [Value]s and the store is otherwise unchanged. *)
Theorem for_save_reaches_sources limit query allow_joins reuse summarize for_save self h :
  (forall b e cls bv value fs,
     h !! self = Some (OExpressionWrapper b e) ->
     h !! e = Some (OValue cls bv value fs) ->
     resolve_expression (S (S limit)) self query allow_joins reuse summarize for_save h
     = (Ok (length h),
        h ++ [OExpressionWrapper (set_is_summary summarize (set_copied true b))
                (S (length h));
              OValue cls (set_is_summary summarize (set_copied true bv)) value
                (Some false)])) /\
  (forall cls b lhs connector rhs cl bl vl fl cr br vr fr,
     h !! self = Some (OCombined cls b lhs connector rhs) ->
     h !! lhs = Some (OValue cl bl vl fl) ->
     h !! rhs = Some (OValue cr br vr fr) ->
     resolve_expression (S (S limit)) self query allow_joins reuse summarize for_save h
     = (Ok (length h),
        h ++ [OCombined cls (set_is_summary summarize (set_copied true b))
                (S (length h)) connector (S (S (length h)));
              OValue cl (set_is_summary summarize (set_copied true bl)) vl (Some for_save);
              OValue cr (set_is_summary summarize (set_copied true br)) vr
                (Some for_save)])).
Proof.
  assert (forall o b, h !! self = Some o -> base_of o = Some b ->
            match o with OFunc _ _ _ _ | OCase _ _ _ _ | OSubquery _ _ _ _ => False
                    | _ => True end ->
            copy self h = (Ok (length h), h ++ [with_base o (set_copied true b)])) as Hcopy.
  { intros o b Hs Hb Ho. unfold copy. rewrite (bind_run _ _ _ _ _ (deref_run _ _ _ Hs)).
    rewrite <- insert_alloc with (o := o).
    destruct o; try done; by apply BaseExpression_copy_run. }
  assert (forall o b f, base_of o = Some b ->
            set_base (length h) f (h ++ [o]) = (Ok tt, h ++ [with_base o (f b)])) as Hset.
  { intros o b f Hb. unfold set_base.
    rewrite (bind_run _ _ _ _ _ (deref_run _ _ _ (lookup_alloc _ _))). rewrite Hb.
    unfold store. by rewrite insert_alloc. }
  split.
  - intros b e cls bv value fs Hs He. rewrite resolve_expression_S. unfold resolve_expression_of at 1.
    rewrite (bind_run _ _ _ _ _ (deref_run _ _ _ Hs)).
    unfold BaseExpression_resolve_expression.
    rewrite (bind_run _ _ _ _ _ (Hcopy _ b Hs eq_refl I)). simpl with_base.
    rewrite (bind_run _ _ _ _ _ (Hset (OExpressionWrapper (set_copied true b) e) _
                                   (set_is_summary summarize) eq_refl)).
    simpl with_base.
    assert (forall b', get_source_expressions (length h) (h ++ [OExpressionWrapper b' e])
                       = (Ok [e], h ++ [OExpressionWrapper b' e])) as Hget.
    { intros b'. by rewrite (get_source_expressions_run _ _ _ _ (lookup_alloc _ _) eq_refl). }
    rewrite (bind_run _ _ _ _ _ (Hget _)).
    pose proof (Value_resolve_run limit e query allow_joins reuse summarize false _ _ _ _ _
                  (lookup_old h [OExpressionWrapper
                                   (set_is_summary summarize (set_copied true b)) e]
                     _ _ He)) as Hv.
    eapply (resolve_expression_positional_run _ 5) in Hv;
      [| by apply lookup_old | done].
    erewrite (bind_run (traverse _ [e]));
      [| rewrite traverse_cons, (bind_run _ _ _ _ _ Hv); reflexivity].
    rewrite alloc_ext. simpl app.
    erewrite (bind_run (set_source_expressions _ _));
      [| unfold set_source_expressions;
         rewrite (bind_run _ _ _ _ _ (deref_run _ _ _ (lookup_ext0 _ _ _)));
         unfold store; rewrite insert_ext0; reflexivity].
    by rewrite length_alloc.
  - intros cls b lhs connector rhs cl bl vl fl cr br vr fr Hs Hl Hr.
    rewrite resolve_expression_S. unfold resolve_expression_of at 1.
    rewrite (bind_run _ _ _ _ _ (deref_run _ _ _ Hs)).
    unfold CombinedExpression_resolve_expression.
    rewrite (bind_run _ _ _ _ _ (Hcopy _ b Hs eq_refl I)). simpl with_base.
    rewrite (bind_run _ _ _ _ _ (Hset (OCombined cls (set_copied true b) lhs connector rhs) _
                                   (set_is_summary summarize) eq_refl)).
    simpl with_base.
    rewrite (bind_run _ _ _ _ _ (deref_run _ _ _ (lookup_alloc _ _))).
    pose proof (Value_resolve_run limit lhs query allow_joins reuse summarize for_save _ _ _ _
                  _ (lookup_old h [OCombined cls (set_is_summary summarize (set_copied true b))
                                     lhs connector rhs] _ _ Hl)) as Hvl.
    eapply (resolve_expression_positional_run _ 6) in Hvl;
      [| by apply lookup_old | done].
    rewrite (bind_run _ _ _ _ _ Hvl).
    rewrite alloc_ext. simpl app.
    rewrite (bind_run _ _ _ _ _ (deref_run _ _ _ (lookup_ext0 _ _ _))).
    unfold store at 1. unfold bind at 1. rewrite insert_ext0.
    pose proof (Value_resolve_run limit rhs query allow_joins reuse summarize for_save _ _ _ _
                  _ (lookup_old h
                       [OCombined cls (set_is_summary summarize (set_copied true b))
                          (length (h ++ [OCombined cls
                                           (set_is_summary summarize (set_copied true b))
                                           lhs connector rhs])) connector rhs;
                        OValue cl (set_is_summary summarize (set_copied true bl)) vl
                          (Some for_save)] _ _ Hr)) as Hvr.
    eapply (resolve_expression_positional_run _ 6) in Hvr;
      [| by apply lookup_old | done].
    rewrite (bind_run _ _ _ _ _ Hvr).
    rewrite alloc_ext. simpl app.
    rewrite (bind_run _ _ _ _ _ (deref_run _ _ _ (lookup_ext0 _ _ _))).
    unfold store, bind, ret. rewrite insert_ext0.
    rewrite !length_app. simpl length. rewrite !Nat.add_1_r.
    by replace (length h + 2) with (S (S (length h))) by lia.
Qed.

Lemma for_save_reaches_sources_witness :
  wrapped_value_5 !! 1
    = Some (OExpressionWrapper (BaseExpression_init (Some fields_IntegerField)) 0) /\
  wrapped_value_5 !! 0 = Some (OValue Value (BaseExpression_init None) (PInt 5) None) /\
  resolve_expression 2 1 None true None false true wrapped_value_5
  = (Ok 2,
     wrapped_value_5
       ++ [OExpressionWrapper
             (set_is_summary false
                (set_copied true (BaseExpression_init (Some fields_IntegerField)))) 3;
           OValue Value (set_is_summary false (set_copied true (BaseExpression_init None)))
             (PInt 5) (Some false)]).
Proof.
  split; [reflexivity | split; [reflexivity |]].
  apply (proj1 (for_save_reaches_sources 0 None true None false true 1 wrapped_value_5)
           (BaseExpression_init (Some fields_IntegerField)) 0 Value
           (BaseExpression_init None) (PInt 5) None); reflexivity.
Defined.

(** X12: [Value.as_sql] of a value without output field renders the
    literal [NULL] for [None] and one parameter otherwise; with an
    output field it reads [for_save], which only [resolve_expression]
    sets, so that rendering a [Value] that has an output field and was
    never resolved fails with an [AttributeError]; once resolved, the
    value is prepared by [get_db_prep_save] or by [get_db_prep_value]
    of the field and rendered through the placeholder of the field when
    it has one. *)
Theorem Value_as_sql_cases connection limit self h h1 cls b value for_save :
  check_expression_support connection self h = (Ok tt, h1) ->
  h1 !! self = Some (OValue cls b value for_save) ->
  (_output_field b = None ->
   Value_as_sql connection limit self h = (Ok (Value_literal value), h1)) /\
  (forall f, _output_field b = Some f -> for_save = None ->
   exists msg, Value_as_sql connection limit self h = (Raise (AttributeError msg), h1)) /\
  (forall f s, _output_field b = Some f -> for_save = Some s ->
   cached_output_field b = None -> cached__output_field_or_none b = None ->
   (Value_as_sql connection (S limit) self h).1
   = Ok (let val := if s then get_db_prep_save f value else get_db_prep_value f value in
         match get_placeholder f with
         | Some placeholder => (placeholder val, [val])
         | None => Value_literal val
         end)).
Proof.
  intros Hcheck Hs. split; [| split].
  - intros Hf. unfold Value_as_sql.
    rewrite (bind_run _ _ _ _ _ Hcheck), (bind_run _ _ _ _ _ (deref_run _ _ _ Hs)), Hf.
    by destruct value.
  - intros f Hf ->. eexists. unfold Value_as_sql.
    rewrite (bind_run _ _ _ _ _ Hcheck), (bind_run _ _ _ _ _ (deref_run _ _ _ Hs)), Hf.
    reflexivity.
  - intros f s Hf -> Hc1 Hc2. unfold Value_as_sql.
    rewrite (bind_run _ _ _ _ _ Hcheck), (bind_run _ _ _ _ _ (deref_run _ _ _ Hs)), Hf.
    assert (wp (output_field (S limit) self) h1 (fun r _ => r = Ok f)) as Hout.
    { eapply wp_mono.
      - eapply (output_field_from_or_none self limit h1 _ b);
          [by apply node_at_intro | done | done |].
        apply or_none_declared; [by apply node_at_intro | done | done].
      - by intros r h' [-> _]. }
    apply wp_fst, wp_bind.
    destruct s.
    + apply wp_bind. eapply wp_mono; [exact Hout |]. intros r h' ->.
      apply wp_ret. unfold Value_literal.
      destruct (get_placeholder f); [by apply wp_ret |].
      by destruct (get_db_prep_save f value); apply wp_ret.
    + apply wp_bind. eapply wp_mono; [exact Hout |]. intros r h' ->.
      apply wp_ret. unfold Value_literal.
      destruct (get_placeholder f); [by apply wp_ret |].
      by destruct (get_db_prep_value f value); apply wp_ret.
Qed.

Lemma Value_as_sql_cases_witness :
  check_expression_support base_connection 0 (typed_value None) = (Ok tt, typed_value None) /\
  typed_value None !! 0
    = Some (OValue Value (BaseExpression_init (Some fields_CharField)) (PStr "a") None) /\
  exists msg,
    Value_as_sql base_connection 1 0 (typed_value None)
    = (Raise (AttributeError msg), typed_value None).
Proof.
  split; [reflexivity | split; [reflexivity |]].
  apply (proj1 (proj2 (Value_as_sql_cases base_connection 1 0 (typed_value None)
                         (typed_value None) Value
                         (BaseExpression_init (Some fields_CharField)) (PStr "a") None
                         eq_refl eq_refl)) fields_CharField); reflexivity.
Defined.

(** ** Rendering calls and cases *)

Lemma dict_get_set_eq d k v : dict_get (dict_set d k v) k = Some v.
Proof.
  induction d as [| [k' v'] d IH]; simpl; [by rewrite String.eqb_refl |].
  destruct (String.eqb k k') eqn:E; simpl; rewrite ?String.eqb_refl, ?E; done.
Qed.

Lemma dict_get_set_ne d k v k' : k <> k' -> dict_get (dict_set d k v) k' = dict_get d k'.
Proof.
  intros Hne. induction d as [| [k0 v0] d IH]; simpl.
  - apply not_eq_sym, String.eqb_neq in Hne. by rewrite Hne.
  - destruct (String.eqb k k0) eqn:E; simpl.
    + apply String.eqb_eq in E as <-.
      apply not_eq_sym, String.eqb_neq in Hne. by rewrite Hne.
    + by rewrite IH.
Qed.

Lemma format_function_call data f e :
  dict_get data "function" = Some f -> dict_get data "expressions" = Some e ->
  format_mapping "%(function)s(%(expressions)s)" data = Ok (f +:+ "(" +:+ e +:+ ")").
Proof.
  intros Hf He. unfold format_mapping.
  cbv -[dict_get]. rewrite Hf. cbv -[dict_get]. rewrite He. reflexivity.
Qed.

(** X13: [Func.as_sql] of a class with the default template, without
    template or joiner in [extra], renders the name of the function
    followed by the compiled arguments, joined by the joiner of the
    class, between parentheses, with the parameters of the arguments in
    order; the name is the [function] argument when given, else the
    [function] entry of [extra], else the class attribute. *)
Theorem Func_as_sql_renders compiler connection self function_ h h1 h2 cls b lst extra
    args parts params :
  check_expression_support connection self h = (Ok tt, h1) ->
  h1 !! self = Some (OFunc cls b lst extra) ->
  h1 !! lst = Some (OList args) ->
  compile_all compiler args h1 = (Ok (parts, params), h2) ->
  func_template cls = "%(function)s(%(expressions)s)" ->
  dict_get extra "template" = None ->
  dict_get extra "arg_joiner" = None ->
  Func_as_sql compiler connection self function_ None None [] h
  = (Ok (function_used function_ extra cls +:+ "("
           +:+ join (arg_joiner cls) parts +:+ ")", params), h2).
Proof.
  intros Hcheck Hs Hl Hall Htemplate Hnt Hnj. unfold Func_as_sql.
  rewrite (bind_run _ _ _ _ _ Hcheck), (bind_run _ _ _ _ _ (deref_run _ _ _ Hs)).
  rewrite (bind_run _ _ _ _ _ (get_list_run _ _ _ Hl)), (bind_run _ _ _ _ _ Hall).
  cbn [dict_update fold_left fst snd].
  set (data := match function_ with
               | Some f => dict_set extra "function" f
               | None =>
                   dict_setdefault extra "function"
                     match function cls with Some f => f | None => "None" end
               end).
  assert (dict_get data "function" = Some (function_used function_ extra cls)) as Hfun.
  { unfold data, function_used, dict_setdefault. destruct function_ as [f |].
    - apply dict_get_set_eq.
    - destruct (dict_get extra "function") eqn:E; [done | apply dict_get_set_eq]. }
  assert (forall k, k <> "function" -> dict_get data k = dict_get extra k) as Hother.
  { intros k Hk. unfold data, dict_setdefault. destruct function_ as [f |].
    - by apply dict_get_set_ne.
    - destruct (dict_get extra "function"); [done | by apply dict_get_set_ne]. }
  unfold dict_get_default. rewrite !Hother, Hnt, Hnj, Htemplate by done.
  unfold str_or, percent_mapping, lift, bind.
  erewrite format_function_call; [done | |].
  - rewrite !dict_get_set_ne by done. exact Hfun.
  - rewrite dict_get_set_ne by done. apply dict_get_set_eq.
Qed.

Lemma Func_as_sql_renders_witness :
  coalesce_call !! 3 = Some (OFunc (Aggregate "COALESCE") (BaseExpression_init None) 2 []) /\
  Func_as_sql base_compiler base_connection 3 None None None [] coalesce_call
  = (Ok ("COALESCE(%s, %s)", [PInt 1; PInt 2]), coalesce_call).
Proof.
  split; [reflexivity |].
  apply (Func_as_sql_renders base_compiler base_connection 3 None coalesce_call
           coalesce_call coalesce_call (Aggregate "COALESCE") (BaseExpression_init None)
           2 [] [0; 1] ["%s"; "%s"] [PInt 1; PInt 2]); reflexivity.
Defined.

(** X14: [When.as_sql] renders [WHEN] followed by the compiled
    condition, [THEN] and the compiled result, with the parameters of
    the condition before those of the result. *)
Theorem When_as_sql_renders compiler connection self h h1 h2 h3 b condition result
    condition_sql condition_params result_sql result_params :
  check_expression_support connection self h = (Ok tt, h1) ->
  h1 !! self = Some (OWhen b condition result) ->
  compile compiler condition h1 = (Ok (condition_sql, condition_params), h2) ->
  compile compiler result h2 = (Ok (result_sql, result_params), h3) ->
  When_as_sql compiler connection self None [] h
  = (Ok ("WHEN " +:+ condition_sql +:+ " THEN " +:+ result_sql,
         condition_params ++ result_params), h3).
Proof.
  intros Hcheck Hs Hc Hr. unfold When_as_sql.
  rewrite (bind_run _ _ _ _ _ Hcheck), (bind_run _ _ _ _ _ (deref_run _ _ _ Hs)).
  rewrite (bind_run _ _ _ _ _ Hc), (bind_run _ _ _ _ _ Hr).
  unfold percent_mapping, lift, bind, ret.
  assert (format_mapping (str_or None When_template)
            (dict_set (dict_set [] "condition" condition_sql) "result" result_sql)
          = Ok ("WHEN " +:+ condition_sql +:+ " THEN " +:+ result_sql +:+ "")) as E
    by reflexivity.
  simpl fst. simpl snd. rewrite E. by rewrite append_nil_r.
Qed.

Lemma When_as_sql_renders_witness :
  check_expression_support base_connection 2 case_of_price = (Ok tt, case_of_price) /\
  case_of_price !! 2 = Some (OWhen (BaseExpression_init None) 0 1) /\
  When_as_sql base_compiler base_connection 2 None [] case_of_price
  = (Ok ("WHEN price > %s THEN %s", [PInt 0; PInt 1]), case_of_price).
Proof.
  split; [reflexivity | split; [reflexivity |]].
  apply (When_as_sql_renders base_compiler base_connection 2 case_of_price case_of_price
           case_of_price case_of_price (BaseExpression_init None) 0 1
           "price > %s" [PInt 0] "%s" [PInt 1]); reflexivity.
Defined.

Lemma format_case data cases default :
  dict_get data "cases" = Some cases -> dict_get data "default" = Some default ->
  format_mapping Case_template data = Ok ("CASE " +:+ cases +:+ " ELSE " +:+ default +:+ " END").
Proof.
  intros Hc Hd. unfold format_mapping, Case_template.
  cbv -[dict_get]. rewrite Hc. cbv -[dict_get]. rewrite Hd. reflexivity.
Qed.

(** X15: [Case.as_sql] of a [Case] without [extra] renders, when at
    least one case survives and no output type is known, [CASE], the
    surviving cases joined by a blank, [ELSE], the default and [END],
    with the parameters of the cases before those of the default. *)
Theorem Case_as_sql_renders compiler connection limit self h h0 h1 h2 h3 b cases default
    items part parts params default_sql default_params :
  check_expression_support connection self h = (Ok tt, h0) ->
  h0 !! self = Some (OCase b cases default []) ->
  h0 !! cases = Some (OList items) ->
  compile_cases compiler items h0 = (Ok (part :: parts, params), h1) ->
  compile compiler default h1 = (Ok (default_sql, default_params), h2) ->
  _output_field_or_none limit self h2 = (Ok None, h3) ->
  Case_as_sql compiler connection limit self None None [] h
  = (Ok ("CASE " +:+ join " " (part :: parts) +:+ " ELSE " +:+ default_sql +:+ " END",
         params ++ default_params), h3).
Proof.
  intros Hcheck Hs Hl Hcases Hdefault Hnone. unfold Case_as_sql.
  rewrite (bind_run _ _ _ _ _ Hcheck), (bind_run _ _ _ _ _ (deref_run _ _ _ Hs)).
  rewrite (bind_run _ _ _ _ _ (get_list_run _ _ _ Hl)).
  destruct items as [| item items].
  { simpl in Hcases. unfold ret in Hcases. simplify_eq. }
  rewrite (bind_run _ _ _ _ _ Hcases), (bind_run _ _ _ _ _ Hdefault).
  cbn [fst snd dict_update fold_left].
  unfold dict_get_default.
  rewrite !dict_get_set_ne by done. cbn [dict_get str_or].
  unfold percent_mapping, lift. unfold bind at 1.
  erewrite format_case;
    [| rewrite dict_get_set_ne by done; apply dict_get_set_eq | apply dict_get_set_eq].
  by rewrite (bind_run _ _ _ _ _ Hnone).
Qed.

Lemma Case_as_sql_renders_witness :
  check_expression_support base_connection 5 case_of_price = (Ok tt, case_of_price) /\
  case_of_price !! 5 = Some (OCase (BaseExpression_init None) 3 4 []) /\
  (Case_as_sql base_compiler base_connection 3 5 None None [] case_of_price).1
  = Ok ("CASE WHEN price > %s THEN %s ELSE %s END", [PInt 0; PInt 1; PInt 2]).
Proof.
  split; [reflexivity | split; [reflexivity |]].
  rewrite (Case_as_sql_renders base_compiler base_connection 3 5 case_of_price
             case_of_price case_of_price case_of_price
             (_output_field_or_none 3 5 case_of_price).2 (BaseExpression_init None) 3 4 [2]
             "WHEN price > %s THEN %s" [] [PInt 0; PInt 1] "%s" [PInt 2]);
    reflexivity.
Defined.

(** ** Negating an [Exists] *)

Lemma Exists_as_sql_run connection limit c hk negated b queryset extra :
  supports_all connection ->
  hk !! c = Some (OSubquery (Exists negated) b queryset extra) ->
  Exists_as_sql connection limit c None [] hk
  = (match Exists_fragment connection queryset extra with
     | Ok p => Ok (negate negated p)
     | Raise e => Raise e
     end, hk).
Proof.
  intros Hsup Hc. unfold Exists_as_sql, Subquery_as_sql, Exists_fragment.
  assert (output_field limit c hk = (Ok fields_BooleanField, hk)) as Hout.
  { unfold output_field. by rewrite (bind_run _ _ _ _ _ (deref_run _ _ _ Hc)). }
  unfold bind at 1. unfold bind at 1. rewrite Hsup.
  rewrite (bind_run _ _ _ _ _ (deref_run _ _ _ Hc)).
  cbn [dict_update fold_left Subquery_template].
  unfold lift at 1. unfold bind at 1.
  destruct (query_as_sql queryset) as [nested | e]; [| done].
  unfold percent_mapping, lift at 1. unfold bind at 1.
  destruct (format_mapping _ _) as [sql | e]; [| done].
  rewrite (bind_run _ _ _ _ _ Hout).
  unfold percent, lift, bind.
  destruct (format_positional _ _) as [cast | e]; [| done].
  unfold ret. rewrite (deref_run _ _ _ Hc). by destruct negated.
Qed.

(** X16: inverting an [Exists] builds a new [Exists] over the same
    queryset and the same [extra], with a [BooleanField] as declared
    output field and the negation flipped, and leaves the store
    otherwise unchanged; on a dialect that supports every expression
    the inverse renders the fragment of the original with [NOT] added or
    removed, and the inverse of the inverse renders exactly as the
    original. *)
Theorem Exists_invert_flips_negation connection limit self h negated b queryset extra :
  h !! self = Some (OSubquery (Exists negated) b queryset extra) ->
  __invert__ limit self h
  = (Ok (length h),
     h ++ [OSubquery (Exists (negb negated)) (BaseExpression_init (Some fields_BooleanField))
             queryset extra]) /\
  (supports_all connection ->
   forall p, Exists_fragment connection queryset extra = Ok p ->
     (Exists_as_sql connection limit self None [] h).1 = Ok (negate negated p) /\
     ((c <- __invert__ limit self ;; Exists_as_sql connection limit c None []) h).1
     = Ok (negate (negb negated) p) /\
     ((c <- __invert__ limit self ;; c2 <- __invert__ limit c ;;
       Exists_as_sql connection limit c2 None []) h).1
     = Ok (negate negated p)).
Proof.
  intros Hs.
  assert (forall hk c n b',
            hk !! c = Some (OSubquery (Exists n) b' queryset extra) ->
            __invert__ limit c hk
            = (Ok (length hk),
               hk ++ [OSubquery (Exists (negb n))
                        (BaseExpression_init (Some fields_BooleanField)) queryset extra]))
    as Hinv.
  { intros hk c n b' Hc. unfold __invert__.
    rewrite (bind_run _ _ _ _ _ (deref_run _ _ _ Hc)).
    assert (output_field limit c hk = (Ok fields_BooleanField, hk)) as Hout.
    { unfold output_field. by rewrite (bind_run _ _ _ _ _ (deref_run _ _ _ Hc)). }
    rewrite (bind_run _ _ _ _ _ Hout).
    unfold Exists_init, Subquery_init_as, alloc. by destruct (query_select queryset). }
  split; [by eapply Hinv |].
  intros Hsup p Hp. split; [| split].
  - rewrite (Exists_as_sql_run _ _ _ _ _ _ _ _ Hsup Hs). by rewrite Hp.
  - rewrite (bind_run _ _ _ _ _ (Hinv _ _ _ _ Hs)).
    rewrite (Exists_as_sql_run _ _ _ _ _ _ _ _ Hsup (lookup_alloc _ _)). by rewrite Hp.
  - rewrite (bind_run _ _ _ _ _ (Hinv _ _ _ _ Hs)).
    rewrite (bind_run _ _ _ _ _ (Hinv _ _ _ _ (lookup_alloc _ _))).
    rewrite (Exists_as_sql_run _ _ _ _ _ _ _ _ Hsup (lookup_alloc _ _)).
    by rewrite Hp, negb_involutive.
Qed.

Lemma Exists_invert_flips_negation_witness :
  exists_ordered !! 0
    = Some (OSubquery (Exists false) (BaseExpression_init (Some fields_IntegerField))
              ordered_queryset []) /\
  supports_all base_connection /\
  ((c <- __invert__ 1 0 ;; Exists_as_sql base_connection 1 c None []) exists_ordered).1
  = Ok ("NOT EXISTS(SELECT U0.id FROM t U0 ORDER BY U0.name)", []).
Proof.
  assert (supports_all base_connection) as Hsup by done.
  split; [reflexivity | split; [exact Hsup |]].
  apply (proj2 (Exists_invert_flips_negation base_connection 1 0 exists_ordered false _
                  ordered_queryset [] eq_refl) Hsup
           ("EXISTS(SELECT U0.id FROM t U0 ORDER BY U0.name)", [])).
  reflexivity.
Defined.

(** ** Aggregates *)

Lemma reads_only_ret {A} (a : A) : reads_only (ret a).
Proof. by intros h. Qed.

Lemma reads_only_raise {A} e : reads_only (@raise A e).
Proof. by intros h. Qed.

Lemma reads_only_bind {A B} (m : M A) (f : A -> M B) :
  reads_only m -> (forall a, reads_only (f a)) -> reads_only (bind m f).
Proof.
  intros Hm Hf h. unfold bind. specialize (Hm h).
  destruct (m h) as [[a | e] h1]; simpl in Hm; subst h1; [apply Hf | done].
Qed.

Lemma reads_only_deref l : reads_only (deref l).
Proof. intros h. unfold deref. by destruct (h !! l). Qed.

Lemma reads_only_traverse {A B} (f : A -> M B) xs :
  (forall x, reads_only (f x)) -> reads_only (traverse f xs).
Proof.
  intros Hf. induction xs as [| x xs IH]; [apply reads_only_ret |].
  rewrite traverse_cons. apply reads_only_bind; [apply Hf |]. intros y.
  apply reads_only_bind; [apply IH |]. intros ys. apply reads_only_ret.
Qed.

Lemma reads_only_get_list l : reads_only (get_list l).
Proof.
  apply reads_only_bind; [apply reads_only_deref |].
  intros o. destruct o; first [apply reads_only_ret | apply reads_only_raise].
Qed.

Lemma reads_only_truthy l : reads_only (truthy l).
Proof. intros h. apply truthy_pure. Qed.

Lemma reads_only_get_source_expressions l : reads_only (get_source_expressions l).
Proof.
  apply reads_only_bind; [apply reads_only_deref |]. intros o.
  destruct o; try apply reads_only_ret; try apply reads_only_raise;
    try apply reads_only_get_list.
  - apply reads_only_bind; [apply reads_only_get_list |]. intros ?. apply reads_only_ret.
  - unfold Subquery_get_source_expressions.
    destruct (query_where queryset); [| apply reads_only_raise].
    apply reads_only_bind; [| intros ?; apply reads_only_ret].
    apply reads_only_traverse. intros [|]; simpl; [apply reads_only_ret |].
    apply reads_only_bind; [apply reads_only_truthy | intros ?; apply reads_only_ret].
Qed.

Lemma wp_reads_only {A} (m : M A) h (Q : res A -> heap -> Prop) :
  reads_only m -> (forall r, Q r h) -> wp m h Q.
Proof. intros Hm HQ. unfold wp. rewrite Hm. apply HQ. Qed.

Lemma cache_only_refl h : cache_only h h.
Proof. split; [done | auto]. Qed.

Lemma cache_only_trans h1 h2 h3 : cache_only h1 h2 -> cache_only h2 h3 -> cache_only h1 h3.
Proof.
  intros [L1 E1] [L2 E2]. split; [congruence |].
  intros l o Hl. destruct (E1 l o Hl) as [H | (b & v & Hb & H)].
  - apply E2, H.
  - destruct (E2 _ _ H) as [H' | (b' & v' & Hb' & H')]; [right; eauto |].
    right. exists b, v'. split; [done |]. rewrite H', with_base_with_base.
    rewrite (base_of_with_base _ _ _ Hb) in Hb'. by simplify_eq.
Qed.

Lemma cache_only_set h l o b v :
  h !! l = Some o -> base_of o = Some b ->
  cache_only h (<[l := with_base o (set_cached_contains_aggregate v b)]> h).
Proof.
  intros Hl Hb. split; [by rewrite length_insert |].
  intros l' o' Hl'. destruct (decide (l' = l)) as [-> | Hne].
  - right. simplify_eq. exists b, v. split; [done |]. by eapply lookup_store.
  - left. by rewrite list_lookup_insert_ne.
Qed.

Lemma aggregate_boundary_with_base o b :
  aggregate_boundary (with_base o b) = aggregate_boundary o.
Proof. by destruct o. Qed.

Lemma wp_cache_slot (method : loc -> M bool) l h :
  wp (method l) h (fun _ h' => cache_only h h') ->
  wp (cached_property cached_contains_aggregate set_cached_contains_aggregate method l) h
    (fun _ h' => cache_only h h').
Proof.
  intros Hm. unfold cached_property, get_base.
  apply wp_bind, wp_bind, wp_deref; [| intros; apply cache_only_refl].
  intros o Ho. destruct (base_of o) as [b |]; [| apply cache_only_refl].
  apply wp_ret. destruct (cached_contains_aggregate b); [apply cache_only_refl |].
  apply wp_bind. eapply wp_mono; [exact Hm |]. intros [v | e] h1 C1; [| done].
  apply wp_bind. unfold set_base.
  apply wp_bind, wp_deref; [| done]. intros o1 Ho1.
  destruct (base_of o1) as [b1 |] eqn:Hb1; [| done].
  apply wp_store, wp_ret. eapply cache_only_trans; [exact C1 |]. by apply cache_only_set.
Qed.

Lemma BaseExpression_contains_aggregate_cache_only (rec : loc -> M bool) :
  (forall l h, wp (rec l) h (fun _ h' => cache_only h h')) ->
  forall l h, wp (BaseExpression_contains_aggregate rec l) h (fun _ h' => cache_only h h').
Proof.
  intros IH l0 h0. unfold BaseExpression_contains_aggregate.
  apply wp_bind, wp_intro. intros r h1 E.
  pose proof (reads_only_get_source_expressions l0 h0) as P. rewrite E in P.
  simpl in P. subst h1. destruct r as [sources | e]; [| apply cache_only_refl].
  clear E.
  assert (forall hk, cache_only h0 hk ->
            wp (any_contains_aggregate rec sources) hk
              (fun _ h' => cache_only h0 h')) as Hloop.
  { induction sources as [| expr rest IHs]; intros hk Ck; [done |].
    simpl. apply wp_bind, wp_reads_only; [apply reads_only_truthy |].
    intros [[|] | e]; [| by apply IHs | exact Ck].
    apply wp_bind. eapply wp_mono; [apply IH |]. intros [[|] | e] h2 C2.
    - eapply cache_only_trans; [exact Ck | exact C2].
    - apply IHs. eapply cache_only_trans; [exact Ck | exact C2].
    - eapply cache_only_trans; [exact Ck | exact C2]. }
  apply Hloop, cache_only_refl.
Qed.

Lemma contains_aggregate_cache_only limit :
  forall l h, wp (contains_aggregate limit l) h (fun _ h' => cache_only h h').
Proof.
  induction limit as [| limit IH]; intros l h; [apply cache_only_refl |].
  pose proof (BaseExpression_contains_aggregate_cache_only _ IH) as Hmethod.
  simpl. apply wp_bind, wp_deref; [| intros; apply cache_only_refl].
  intros o Ho.
  destruct o; try apply cache_only_refl; try (apply wp_cache_slot, Hmethod).
  - destruct (func_contains_aggregate cls); [apply cache_only_refl |].
    apply wp_cache_slot, Hmethod.
  - destruct (cond_resolvable c); apply cache_only_refl.
Qed.

Lemma contains_aggregate_unfold limit l h o b :
  h !! l = Some o -> base_of o = Some b -> aggregate_boundary o = false ->
  contains_aggregate (S limit) l h
  = cached_property cached_contains_aggregate set_cached_contains_aggregate
      (BaseExpression_contains_aggregate (contains_aggregate limit)) l h.
Proof.
  intros Hl Hb Ha. simpl. rewrite (bind_run _ _ _ _ _ (deref_run _ _ _ Hl)).
  destruct o; try done. simpl in Ha. by rewrite Ha.
Qed.

Lemma contains_aggregate_cached limit l h o b a :
  h !! l = Some o -> base_of o = Some b -> aggregate_boundary o = false ->
  cached_contains_aggregate b = Some a ->
  contains_aggregate (S limit) l h = (Ok a, h).
Proof.
  intros Hl Hb Ha Hc. rewrite (contains_aggregate_unfold _ _ _ _ _ Hl Hb Ha).
  unfold cached_property, get_base.
  rewrite (bind_run _ _ (h) b h); [by rewrite Hc |].
  rewrite (bind_run _ _ _ _ _ (deref_run _ _ _ Hl)). by rewrite Hb.
Qed.

Lemma contains_aggregate_boundary limit l h o :
  h !! l = Some o -> aggregate_boundary o = true ->
  contains_aggregate (S limit) l h = (Ok true, h).
Proof.
  intros Hl Ha. simpl. rewrite (bind_run _ _ _ _ _ (deref_run _ _ _ Hl)).
  destruct o; try done. simpl in Ha. by rewrite Ha.
Qed.

Lemma set_source_expressions_keeps self exprs h o h' :
  h !! self = Some o -> set_source_expressions self exprs h = (Ok tt, h') ->
  exists o', h' !! self = Some o' /\ base_of o' = base_of o /\
             aggregate_boundary o' = aggregate_boundary o.
Proof.
  intros Hs. unfold set_source_expressions.
  rewrite (bind_run _ _ _ _ _ (deref_run _ _ _ Hs)).
  destruct o; try done; simpl.
  - destruct exprs; [| done]. intros [= <-]. eexists. split; [exact Hs | done].
  - destruct exprs as [| l [| r [| ? ?]]]; try done. intros [= <-].
    eexists. split; [by eapply lookup_store | done].
  - unfold bind, alloc, store. intros [= <-].
    eexists. split; [by eapply lookup_store_app | done].
  - destruct exprs; [| done]. intros [= <-]. eexists. split; [exact Hs | done].
  - destruct exprs; [| done]. intros [= <-]. eexists. split; [exact Hs | done].
  - destruct exprs; [| done]. intros [= <-]. eexists. split; [exact Hs | done].
  - destruct exprs; [| done]. intros [= <-]. eexists. split; [exact Hs | done].
  - destruct exprs as [| src [| ? ?]]; try done. intros [= <-].
    eexists. split; [by eapply lookup_store | done].
  - destruct exprs as [| e rest]; [done |]. intros [= <-].
    eexists. split; [by eapply lookup_store | done].
  - destruct exprs as [| c [| r [| ? ?]]]; try done. intros [= <-].
    eexists. split; [by eapply lookup_store | done].
  - unfold bind, alloc, store. destruct (last exprs) as [d |]; [| done].
    intros [= <-]. exists (OCase b (length h) d extra). split; [| done].
    rewrite insert_insert_same. by eapply lookup_store_app.
  - destruct exprs; [| done]. intros [= <-]. eexists. split; [exact Hs | done].
  - destruct exprs as [| e rest]; [done |]. intros [= <-].
    eexists. split; [by eapply lookup_store | done].
Qed.

(** X17: [contains_aggregate] writes nothing but the cached answers
    of the nodes it visits, and its answer is computed once per node: a
    second read returns the same answer, and so does a read after
    [set_source_expressions] replaced the source expressions of the
    node, whatever they are now. *)
Theorem contains_aggregate_memoized limit limit' self h o b a h1 :
  h !! self = Some o -> base_of o = Some b ->
  contains_aggregate (S limit) self h = (Ok a, h1) ->
  cache_only h h1 /\
  contains_aggregate (S limit') self h1 = (Ok a, h1) /\
  forall exprs h2,
    set_source_expressions self exprs h1 = (Ok tt, h2) ->
    contains_aggregate (S limit') self h2 = (Ok a, h2).
Proof.
  intros Hs Hb E.
  pose proof (wp_elim _ _ _ _ _ (contains_aggregate_cache_only (S limit) self h) E) as Hframe.
  split; [exact Hframe |].
  destruct (aggregate_boundary o) eqn:Ha.
  - rewrite (contains_aggregate_boundary _ _ _ _ Hs Ha) in E. simplify_eq.
    split; [by eapply contains_aggregate_boundary |].
    intros exprs h2 Hset.
    destruct (set_source_expressions_keeps _ _ _ _ _ Hs Hset) as (o' & Ho' & _ & Ha').
    eapply contains_aggregate_boundary; [exact Ho' | congruence].
  - assert (exists o1 b1, h1 !! self = Some o1 /\ base_of o1 = Some b1 /\
                          aggregate_boundary o1 = false /\
                          cached_contains_aggregate b1 = Some a)
      as (o1 & b1 & Ho1 & Hb1 & Ha1 & Hc1).
    { rewrite (contains_aggregate_unfold _ _ _ _ _ Hs Hb Ha) in E.
      unfold cached_property in E.
      apply bind_ok in E as (b0 & h0 & Eb & E).
      unfold get_base in Eb. rewrite (bind_run _ _ _ _ _ (deref_run _ _ _ Hs)), Hb in Eb.
      unfold ret in Eb. simplify_eq.
      destruct (cached_contains_aggregate b0) as [v |] eqn:Hc.
      - unfold ret in E. simplify_eq. by exists o, b0.
      - apply bind_ok in E as (v & hm & Em & E).
        apply bind_ok in E as ([] & hs & Eset & E). unfold ret in E. simplify_eq.
        pose proof (wp_elim _ _ _ _ _
                      (BaseExpression_contains_aggregate_cache_only _
                         (contains_aggregate_cache_only limit) self h0) Em) as [_ Cm].
        unfold set_base in Eset. apply bind_ok in Eset as (om & hm' & Ed & Eset).
        unfold deref in Ed. destruct (hm !! self) as [om' |] eqn:Hom; [| done].
        simplify_eq. destruct (base_of om) as [bm |] eqn:Hbm; [| done].
        unfold store in Eset. simplify_eq.
        exists (with_base om (set_cached_contains_aggregate (Some a) bm)),
          (set_cached_contains_aggregate (Some a) bm).
        split; [by eapply lookup_store |].
        split; [by eapply base_of_with_base |]. split; [| done].
        rewrite aggregate_boundary_with_base.
        destruct (Cm _ _ Hs) as [H | (b' & v' & _ & H)]; rewrite Hom in H; simplify_eq;
          [done | by rewrite aggregate_boundary_with_base]. }
    split; [by eapply contains_aggregate_cached |].
    intros exprs h2 Hset.
    destruct (set_source_expressions_keeps _ _ _ _ _ Ho1 Hset) as (o' & Ho' & Hb' & Ha').
    eapply contains_aggregate_cached;
      [exact Ho' | rewrite Hb'; exact Hb1 | rewrite Ha'; exact Ha1 | exact Hc1].
Qed.

Lemma contains_aggregate_memoized_witness :
  let h1 := (contains_aggregate 2 4 wrapped_sum).2 in
  let h2 := (set_source_expressions 4 [3] h1).2 in
  contains_aggregate 2 4 wrapped_sum = (Ok true, h1) /\
  set_source_expressions 4 [3] h1 = (Ok tt, h2) /\
  get_source_expressions 4 h2 = (Ok [3], h2) /\
  (contains_aggregate 2 3 h2).1 = Ok false /\
  contains_aggregate 2 4 h2 = (Ok true, h2).
Proof.
  intros h1 h2.
  split; [reflexivity |]. split; [reflexivity |]. split; [reflexivity |].
  split; [reflexivity |].
  apply (proj2 (proj2 (contains_aggregate_memoized 1 1 4 wrapped_sum
                         (OExpressionWrapper (BaseExpression_init None) 2)
                         (BaseExpression_init None) true h1 eq_refl eq_refl eq_refl))
           [3] h2 eq_refl).
Defined.

Lemma flatten_sources_yields (rec : loc -> M (list loc)) sources :
  (forall e h xs h', rec e h = (Ok xs, h') -> h' = h /\ exists rest, xs = e :: rest) ->
  forall h ys h',
    flatten_sources rec sources h = (Ok ys, h') ->
    h' = h /\ forall e, In e sources -> truthy e h = (Ok true, h) -> In e ys.
Proof.
  intros Hrec. induction sources as [| s sources IH]; intros h ys h' E.
  - unfold flatten_sources, ret in E. simplify_eq. by split; [| intros e []].
  - cbn [flatten_sources] in E.
    apply bind_ok in E as (t & h0 & Et & E).
    pose proof (reads_only_truthy s h) as Ht. rewrite Et in Ht. simpl in Ht. subst h0.
    apply bind_ok in E as (xs & h1 & Ex & E).
    apply bind_ok in E as (zs & h2 & Ez & E). unfold ret in E. simplify_eq.
    assert (h1 = h /\ (t = true -> exists rest, xs = s :: rest)) as [-> Hxs].
    { destruct t.
      - destruct (Hrec _ _ _ _ Ex) as [-> Hr]. by split.
      - unfold ret in Ex. simplify_eq. by split. }
    destruct (IH _ _ _ Ez) as [-> Hin]. split; [done |].
    intros e [<- | He] Hte; apply in_or_app.
    + left. rewrite Et in Hte. simplify_eq.
      destruct (Hxs eq_refl) as [rest ->]. by left.
    + right. by apply Hin.
Qed.

(** X18: [flatten], run to its end, changes nothing in the store,
    yields the expression itself first, and yields after it every
    source expression of it that is true. *)
Theorem flatten_yields_self_then_sources limit self h xs h' :
  flatten limit self h = (Ok xs, h') ->
  h' = h /\
  exists sources rest,
    get_source_expressions self h = (Ok sources, h) /\
    xs = self :: rest /\
    forall e, In e sources -> truthy e h = (Ok true, h) -> In e rest.
Proof.
  revert self h xs h'.
  assert (forall self h xs h',
            flatten limit self h = (Ok xs, h') ->
            h' = h /\
            exists sources rest,
              get_source_expressions self h = (Ok sources, h) /\
              xs = self :: rest /\
              forall e, In e sources -> truthy e h = (Ok true, h) -> In e rest) as H;
    [| exact H].
  induction limit as [| limit IH]; intros self h xs h' E; [done |].
  cbn [flatten] in E. unfold flatten_of in E.
  apply bind_ok in E as (o & h0 & Eo & E).
  pose proof (reads_only_deref self h) as Hd. rewrite Eo in Hd. simpl in Hd. subst h0.
  assert (BaseExpression_flatten (flatten limit) self h = (Ok xs, h')) as Eb
    by (destruct o; first [exact E | done]).
  clear E. unfold BaseExpression_flatten in Eb.
  apply bind_ok in Eb as (sources & h0 & Es & Eb).
  pose proof (reads_only_get_source_expressions self h) as Hg.
  rewrite Es in Hg. simpl in Hg. subst h0.
  apply bind_ok in Eb as (rest & h1 & Er & Eb). unfold ret in Eb. simplify_eq.
  assert (forall e h xs h', flatten limit e h = (Ok xs, h') ->
            h' = h /\ exists rest, xs = e :: rest) as Hrec.
  { intros e h0 xs h1 E. destruct (IH _ _ _ _ E) as (-> & _ & r & _ & -> & _).
    split; [done | by exists r]. }
  destruct (flatten_sources_yields _ _ Hrec _ _ _ Er) as [-> Hin].
  split; [done |]. by exists sources, rest.
Qed.

Lemma flatten_yields_self_then_sources_witness :
  flatten 2 3 coalesce_call = (Ok [3; 0; 1], coalesce_call) /\
  exists sources rest,
    get_source_expressions 3 coalesce_call = (Ok sources, coalesce_call) /\
    [3; 0; 1] = 3 :: rest /\
    forall e, In e sources -> truthy e coalesce_call = (Ok true, coalesce_call) -> In e rest.
Proof.
  split; [reflexivity |].
  apply (proj2 (flatten_yields_self_then_sources 2 3 coalesce_call [3; 0; 1] coalesce_call
                  eq_refl)).
Defined.

(** ** Sources that are [Exists] *)

Lemma wp_positional_Exists
    (rec : loc -> option Query -> bool -> option (list string) -> bool -> bool -> M loc)
    given x query allow_joins reuse summarize for_save hk negated b qs e
    (Q : res loc -> heap -> Prop) :
  hk !! x = Some (OSubquery (Exists negated) b qs e) ->
  (forall msg, Q (Raise (TypeError msg)) hk) ->
  wp (resolve_expression_positional rec given x query allow_joins reuse summarize for_save)
    hk Q.
Proof.
  intros Hx HQ. unfold resolve_expression_positional.
  apply wp_bind, (wp_deref_at _ _ _ _ Hx), wp_raise, HQ.
Qed.

Ltac prefix_tac :=
  first
    [ done
    | apply prefix_insert_beyond; [prefix_tac | len_tac]
    | apply prefix_alloc; prefix_tac ].

(** X19: [Exists.resolve_expression] takes the query only by position,
    and the nodes resolve their source expressions by position: resolving
    a node whose first source expression is an [Exists] raises a
    [TypeError].  The call leaves every object as it was, the [Exists]
    and its ordering included; it only adds the copy it made. *)
Theorem Exists_source_is_TypeError limit self query allow_joins reuse summarize for_save
    h o x xs negated b qs e :
  h !! self = Some o -> is_copying o = true -> wraps_queryset o = false ->
  get_source_expressions self h = (Ok (x :: xs), h) ->
  h !! x = Some (OSubquery (Exists negated) b qs e) ->
  exists msg h',
    resolve_expression (S limit) self query allow_joins reuse summarize for_save h
    = (Raise (TypeError msg), h') /\
    h `prefix_of` h'.
Proof.
  intros Hself Hcopy Hwraps Hxs Hx.
  pose proof (lookup_lt_Some _ _ _ Hx) as Hlt.
  pose proof (lookup_lt_Some _ _ _ Hself) as Hlts.
  assert (wp (resolve_expression (S limit) self query allow_joins reuse summarize for_save) h
            (fun r h' => (exists msg, r = Raise (TypeError msg)) /\ h `prefix_of` h')) as H.
  2: { unfold wp in H. destruct H as [[msg Hr] Hp].
       exists msg, (resolve_expression (S limit) self query allow_joins reuse summarize
                      for_save h).2.
       split; [| done]. rewrite <- Hr. by destruct (resolve_expression _ _ _ _ _ _ _ _). }
  rewrite (get_source_expressions_run _ _ _ _ Hself eq_refl) in Hxs.
  simpl. unfold resolve_expression_of.
  apply wp_bind, (wp_deref_at _ _ _ _ Hself).
  destruct o; try done; try (by unfold ret in Hxs).
  - (* CombinedExpression *)
    unfold ret in Hxs. simplify_eq.
    unfold CombinedExpression_resolve_expression, copy.
    apply wp_bind, wp_bind, (wp_deref_at _ _ _ _ Hself).
    eapply wp_BaseExpression_copy; [done | done |]. simpl.
    apply wp_bind. eapply wp_set_base; [lookup_tac | done |]. simpl.
    apply wp_bind. eapply wp_deref_at; [lookup_tac |].
    apply wp_bind. eapply wp_positional_Exists; [lookup_tac |].
    intros msg. split; [by eexists | prefix_tac].
  - (* Func *)
    apply bind_ok in Hxs as (ol & h1 & Hol & Hxs). unfold deref in Hol.
    destruct (h !! source_expressions) as [ol' |] eqn:Hsrc; [| done]. simplify_eq.
    destruct ol; try done. unfold ret in Hxs. simplify_eq.
    pose proof (lookup_lt_Some _ _ _ Hsrc).
    unfold Func_resolve_expression, copy.
    apply wp_bind, wp_bind, (wp_deref_at _ _ _ _ Hself). unfold Func_copy.
    apply wp_bind. eapply wp_BaseExpression_copy; [done | done |]. simpl.
    apply wp_bind. eapply wp_deref_at; [lookup_tac |].
    apply wp_bind. eapply wp_get_list_at; [lookup_tac |].
    apply wp_bind, wp_alloc.
    apply wp_bind. eapply wp_deref_at; [lookup_tac |].
    apply wp_bind, wp_store, wp_ret.
    apply wp_bind. eapply wp_set_base; [lookup_tac | done |]. simpl.
    apply wp_bind. eapply wp_deref_at; [lookup_tac |].
    apply wp_bind. eapply wp_get_list_at; [lookup_tac |].
    apply wp_bind. unfold enumerate. simpl.
    apply wp_bind, wp_bind. eapply wp_positional_Exists; [lookup_tac |].
    intros msg. split; [by eexists | prefix_tac].
  - (* ExpressionWrapper *)
    unfold ret in Hxs. simplify_eq.
    unfold BaseExpression_resolve_expression, copy.
    apply wp_bind, wp_bind, (wp_deref_at _ _ _ _ Hself).
    eapply wp_BaseExpression_copy; [done | done |]. simpl.
    apply wp_bind. eapply wp_set_base; [lookup_tac | done |]. simpl.
    apply wp_bind. unfold get_source_expressions.
    apply wp_bind. eapply wp_deref_at; [lookup_tac |]. apply wp_ret.
    apply wp_bind. rewrite traverse_cons.
    apply wp_bind. eapply wp_positional_Exists; [lookup_tac |].
    intros msg. split; [by eexists | prefix_tac].
  - (* When *)
    unfold ret in Hxs. simplify_eq.
    unfold When_resolve_expression, copy.
    apply wp_bind, wp_bind, (wp_deref_at _ _ _ _ Hself).
    eapply wp_BaseExpression_copy; [done | done |]. simpl.
    apply wp_bind. eapply wp_set_base; [lookup_tac | done |]. simpl.
    apply wp_bind. eapply wp_deref_at; [lookup_tac |].
    apply wp_bind. unfold has_resolve_expression.
    apply wp_bind. eapply wp_deref_at; [lookup_tac |]. apply wp_ret.
    apply wp_bind, wp_bind. eapply wp_positional_Exists; [lookup_tac |].
    intros msg. split; [by eexists | prefix_tac].
  - (* Case *)
    apply bind_ok in Hxs as (items & h1 & Hitems & Hxs).
    apply bind_ok in Hitems as (ol & h2 & Hol & Hitems). unfold deref in Hol.
    destruct (h !! cases) as [ol' |] eqn:Hsrc; [| done]. simplify_eq.
    destruct ol; try done. unfold ret in Hxs, Hitems. simplify_eq.
    pose proof (lookup_lt_Some _ _ _ Hsrc).
    unfold Case_resolve_expression, copy.
    apply wp_bind, wp_bind, (wp_deref_at _ _ _ _ Hself). unfold Case_copy.
    apply wp_bind. eapply wp_BaseExpression_copy; [done | done |]. simpl.
    apply wp_bind. eapply wp_deref_at; [lookup_tac |].
    apply wp_bind. eapply wp_get_list_at; [lookup_tac |].
    apply wp_bind, wp_alloc.
    apply wp_bind, wp_store, wp_ret.
    apply wp_bind. eapply wp_set_base; [lookup_tac | done |]. simpl.
    apply wp_bind. eapply wp_deref_at; [lookup_tac |].
    apply wp_bind. eapply wp_get_list_at; [lookup_tac |].
    apply wp_bind. unfold enumerate.
    destruct items as [| case rest]; simpl in *; simplify_eq.
    + apply wp_ret.
      apply wp_bind. eapply wp_deref_at; [lookup_tac |].
      apply wp_bind. eapply wp_positional_Exists; [lookup_tac |].
      intros msg. split; [by eexists | prefix_tac].
    + apply wp_bind, wp_bind. eapply wp_positional_Exists; [lookup_tac |].
      intros msg. split; [by eexists | prefix_tac].
  - (* OrderBy *)
    unfold ret in Hxs. simplify_eq.
    unfold BaseExpression_resolve_expression, copy.
    apply wp_bind, wp_bind, (wp_deref_at _ _ _ _ Hself).
    eapply wp_BaseExpression_copy; [done | done |]. simpl.
    apply wp_bind. eapply wp_set_base; [lookup_tac | done |]. simpl.
    apply wp_bind. unfold get_source_expressions.
    apply wp_bind. eapply wp_deref_at; [lookup_tac |]. apply wp_ret.
    apply wp_bind. rewrite traverse_cons.
    apply wp_bind. eapply wp_positional_Exists; [lookup_tac |].
    intros msg. split; [by eexists | prefix_tac].
Qed.

Lemma Exists_source_is_TypeError_witness :
  wrapped_exists !! 1
    = Some (OExpressionWrapper (BaseExpression_init (Some fields_BooleanField)) 0) /\
  get_source_expressions 1 wrapped_exists = (Ok [0], wrapped_exists) /\
  (resolve_expression 1 0 (Some query_with_id) true None false false wrapped_exists).1 = Ok 2 /\
  exists msg h',
    resolve_expression 2 1 (Some query_with_id) true None false false wrapped_exists
    = (Raise (TypeError msg), h') /\
    wrapped_exists `prefix_of` h'.
Proof.
  split; [reflexivity | split; [reflexivity | split; [reflexivity |]]].
  apply (Exists_source_is_TypeError 1 1 (Some query_with_id) true None false false
           wrapped_exists
           (OExpressionWrapper (BaseExpression_init (Some fields_BooleanField)) 0) 0 []
           false (BaseExpression_init (Some fields_IntegerField)) ordered_queryset []);
    reflexivity.
Defined.
